(** * The in-process event bus of [event/event.go]

    A shallow embedding of the package [event]: the [eventStream] struct, its
    methods ([subscribe], [unsubscribe], [emit], [stop]), the dispatch loop
    [start], the package-level [Emit], and the goroutines the package spawns,
    as an interleaving machine whose atomic steps are the synchronisation
    points of the Go source (a critical section under [e.mu], an atomic
    load or store, a channel operation, a [WaitGroup] operation).  The
    registry [e.subs] is a map of lists there; a second model has it in
    memory, as slice headers over backing arrays, and is shown to represent
    the first.

    Besides the event bus: the installer's [generateSecret], [ensureEnv],
    [injectSecret] and the per-file step of [replaceIdentifierInTree], on
    byte strings and a file system of contents and permission bits by
    path; and package [ui]'s [joinClasses], [Merge], [Class], [Attr] and
    [CreateAttrs]. *)

From stdpp Require Import gmap strings list fin_maps.
From Stdlib Require Import ZArith Lia Sorted Ascii.

Local Open Scope Z_scope.

(** ** Data model *)

(** [slog] records; only what the package writes. *)
Inductive LogEntry :=
| LogWarn (msg : string) (topic : string)
| LogDebug (msg : string) (topic : string).

(** State of a [sync.Once]: never run, its function running, done. *)
Inductive OnceState := OnceFresh | OnceRunning | OnceDone.

(** [make(chan event, 128)] in [newStream]. *)
Definition eventch_cap : nat := 128.

(** [atomic.Uint64]: the counter wraps at 2^64. *)
Definition uint64_mod : Z := 2 ^ 64.

(** How a call ends: it returns, it panics, or it never returns. *)
Inductive Outcome (A : Type) :=
| Returns (a : A)
| Panics
| Blocks.
Arguments Returns {A} a.
Arguments Panics {A}.
Arguments Blocks {A}.

Section EventBus.

(** [HandlerFunc] is [func(context.Context, any)]: handlers are opaque
    callables, payloads are opaque values. *)
Context {HandlerFunc any : Type}.

Record event := mk_event { topic : string; message : any }.

Record Subscription := mk_sub {
  ID : Z;              (* uint64 *)
  Topic : string;
  CreatedAt : Z;       (* int64, time.Now().UnixNano() *)
  Fn : HandlerFunc
}.

(** The struct [eventStream].  [eventch] is the content of the buffered
    channel, oldest first; [eventch_closed] says whether [close] was called
    on it; [ctx_done] whether [cancel] was called; [wg] is the WaitGroup
    counter. *)
Record eventStream := mk_stream {
  subs : gmap string (list Subscription);
  eventch : list event;
  eventch_closed : bool;
  ctx_done : bool;
  wg : Z;
  stopOnce : OnceState;
  closed : bool
}.

Definition set_subs (m : gmap string (list Subscription)) (e : eventStream) :=
  mk_stream m (eventch e) (eventch_closed e) (ctx_done e) (wg e) (stopOnce e) (closed e).
Definition set_eventch (q : list event) (e : eventStream) :=
  mk_stream (subs e) q (eventch_closed e) (ctx_done e) (wg e) (stopOnce e) (closed e).
Definition set_eventch_closed (b : bool) (e : eventStream) :=
  mk_stream (subs e) (eventch e) b (ctx_done e) (wg e) (stopOnce e) (closed e).
Definition set_ctx_done (b : bool) (e : eventStream) :=
  mk_stream (subs e) (eventch e) (eventch_closed e) b (wg e) (stopOnce e) (closed e).
Definition set_wg (n : Z) (e : eventStream) :=
  mk_stream (subs e) (eventch e) (eventch_closed e) (ctx_done e) n (stopOnce e) (closed e).
Definition set_stopOnce (o : OnceState) (e : eventStream) :=
  mk_stream (subs e) (eventch e) (eventch_closed e) (ctx_done e) (wg e) o (closed e).
Definition set_closed (b : bool) (e : eventStream) :=
  mk_stream (subs e) (eventch e) (eventch_closed e) (ctx_done e) (wg e) (stopOnce e) b.

(** [newStream]: the struct it builds (the [go e.start()] is the loop
    goroutine of the machine below). *)
Definition newStream : eventStream :=
  mk_stream ∅ [] false false 0 OnceFresh false.

(** ** The registry: [e.subs] *)

(** [e.subs[topic]]: a missing key reads as the nil slice. *)
Definition subs_of (e : eventStream) (t : string) : list Subscription :=
  default [] (subs e !! t).

(** [append([]Subscription(nil), e.subs[evt.topic]...)] under the read lock:
    a fresh slice with the same elements. *)
Definition snapshot (e : eventStream) (t : string) : list Subscription :=
  [] ++ subs_of e t.

(** [subIDCounter.Add(1)]: the new value, modulo 2^64. *)
Definition subID_add1 (c : Z) : Z := (c + 1) mod uint64_mod.

(** [eventStream.subscribe]; [c] is the value of the global [subIDCounter]
    before the call and [now] what [time.Now().UnixNano()] returns.  The
    result is the returned Subscription, the counter and the stream. *)
Definition subscribe (t : string) (h : HandlerFunc) (now : Z)
    (c : Z) (e : eventStream) : Subscription * Z * eventStream :=
  let sub := mk_sub (subID_add1 c) t now h in
  (sub, subID_add1 c, set_subs (<[t := subs_of e t ++ [sub]]> (subs e)) e).

(** [slices.DeleteFunc(l, func(s) bool { return s.ID == sub.ID })]. *)
Definition delete_by_id (id : Z) (l : list Subscription) : list Subscription :=
  List.filter (fun s => negb (ID s =? id)) l.

(** [eventStream.unsubscribe]. *)
Definition unsubscribe (sub : Subscription) (e : eventStream) : eventStream :=
  match subs e !! Topic sub with
  | Some l =>
      let l' := delete_by_id (ID sub) l in
      let m := <[Topic sub := l']> (subs e) in
      if (length l' =? 0)%nat then set_subs (delete (Topic sub) m) e
      else set_subs m e
  | None => e
  end.

(** ** The queue: [e.eventch] *)

(** The [select] of [emit]: a send on a closed channel panics, a send on a
    channel with room enqueues, and otherwise the [default] branch logs. *)
Inductive SendResult :=
| SendPanic
| Sent (e : eventStream)
| Dropped (l : LogEntry).

Definition try_send (evt : event) (e : eventStream) : SendResult :=
  if eventch_closed e then SendPanic
  else if (length (eventch e) <? eventch_cap)%nat
       then Sent (set_eventch (eventch e ++ [evt]) e)
       else Dropped (LogWarn "event channel full; dropping event" (topic evt)).

(** ** The goroutines

    The dispatch loop [start] is one goroutine; its program counter says
    where it stands between two synchronisation points. *)
Inductive LoopPc :=
| LSelect                                           (* at the [select] *)
| LGot (evt : event)                                (* received, before [RLock] *)
| LSpawn (handlers : list Subscription) (msg : any) (* in the [for range], handlers left *)
| LExited.                                          (* returned *)

(** A caller of [stop], inside [stopOnce.Do]. *)
Inductive StopPc :=
| SOnceWait   (* another caller runs the function: blocked in [Do] *)
| SStore      (* before [e.closed.Store(true)] *)
| SCancel     (* before [e.cancel()] *)
| SClose      (* before [close(e.eventch)] *)
| SWait       (* before [e.wg.Wait()] *)
| SWaitSema   (* in [Wait]: counted as a waiter, asleep on the semaphore *)
| SWaitWoken  (* in [Wait]: handed the semaphore, before it looks at the state again *)
| SClear      (* before the registry is replaced *)
| SReturned.  (* [stop] has returned *)

(** The process: the stream behind the global [stream] pointer, the global
    [subIDCounter], what was logged, and the goroutines: the dispatch
    loop, the handler invocations started by [go func(s, msg)] and not yet
    finished, the callers of [emit] between the [closed.Load()] and the
    [select], the callers of [stop].  [crashed] is set when a panic reached
    the top of a goroutine's stack: the Go runtime then terminates the
    program.  [drains] is a ghost counter of how many times the function
    handed to [stopOnce.Do] was entered. *)
Record Proc := mk_proc {
  stream : eventStream;
  subIDCounter : Z;
  slog : list LogEntry;
  loop : LoopPc;
  running : list (Subscription * any);
  emitting : list event;
  stopping : list StopPc;
  crashed : bool;
  drains : nat
}.

Definition set_stream (e : eventStream) (p : Proc) :=
  mk_proc e (subIDCounter p) (slog p) (loop p) (running p) (emitting p)
          (stopping p) (crashed p) (drains p).
Definition set_subIDCounter (c : Z) (p : Proc) :=
  mk_proc (stream p) c (slog p) (loop p) (running p) (emitting p)
          (stopping p) (crashed p) (drains p).
Definition add_slog (l : LogEntry) (p : Proc) :=
  mk_proc (stream p) (subIDCounter p) (slog p ++ [l]) (loop p) (running p)
          (emitting p) (stopping p) (crashed p) (drains p).
Definition set_loop (pc : LoopPc) (p : Proc) :=
  mk_proc (stream p) (subIDCounter p) (slog p) pc (running p) (emitting p)
          (stopping p) (crashed p) (drains p).
Definition set_running (r : list (Subscription * any)) (p : Proc) :=
  mk_proc (stream p) (subIDCounter p) (slog p) (loop p) r (emitting p)
          (stopping p) (crashed p) (drains p).
Definition set_emitting (l : list event) (p : Proc) :=
  mk_proc (stream p) (subIDCounter p) (slog p) (loop p) (running p) l
          (stopping p) (crashed p) (drains p).
Definition set_stopping (l : list StopPc) (p : Proc) :=
  mk_proc (stream p) (subIDCounter p) (slog p) (loop p) (running p)
          (emitting p) l (crashed p) (drains p).
Definition set_crashed (b : bool) (p : Proc) :=
  mk_proc (stream p) (subIDCounter p) (slog p) (loop p) (running p)
          (emitting p) (stopping p) b (drains p).
Definition set_drains (n : nat) (p : Proc) :=
  mk_proc (stream p) (subIDCounter p) (slog p) (loop p) (running p)
          (emitting p) (stopping p) (crashed p) n.

(** [sync.WaitGroup].  Its state word holds the counter, [wg] of the
    stream, and the number of waiters: the callers of [Wait] that found the
    counter above zero, added themselves and sleep on the semaphore. *)
Definition is_waiter (pc : StopPc) : bool :=
  match pc with SWaitSema => true | _ => false end.

Definition wg_waiters (p : Proc) : nat :=
  length (List.filter is_waiter (stopping p)).

(** The semaphore is released to a waiter. *)
Definition wake (pc : StopPc) : StopPc :=
  match pc with SWaitSema => SWaitWoken | _ => pc end.

(** [e.wg.Done()], that is [Add(-1)]: the counter goes down, and when it
    has come to zero with waiters there, the state word is reset and every
    waiter is handed the semaphore.  (A handler that ends was counted, so
    the counter does not become negative; the decrement and the release
    are taken as one step.) *)
Definition wg_done (p : Proc) : Proc :=
  let v := wg (stream p) - 1 in
  let p' := set_stream (set_wg v (stream p)) p in
  if (0 <? v) || (wg_waiters p =? 0)%nat then p'
  else set_stopping (map wake (stopping p)) p'.

(** [init]: [stream = newStream()], the loop goroutine at its [select]. *)
Definition init_proc : Proc :=
  mk_proc newStream 0 [] LSelect [] [] [] false 0.

(** What the scheduler and the callers of the package can do next. *)
Inductive Action :=
| ASubscribe (t : string) (h : HandlerFunc) (now : Z)
| AUnsubscribe (sub : Subscription)
| AEmitCheck (t : string) (v : any)
| AEmitSend (i : nat)
| ALoopCancelled
| ALoopRecv
| ALoopSnapshot
| ALoopSpawn
| AHandlerReturn (i : nat)
| AHandlerPanic (i : nat)
| AStopCall
| AStopStep (i : nat).

(** [emit], up to the [select]: the event is dropped when the stream is
    marked closed. *)
Definition emit_check (t : string) (v : any) (p : Proc) : Proc :=
  if closed (stream p)
  then add_slog (LogDebug "dropping event because stream is closed" t) p
  else set_emitting (emitting p ++ [mk_event t v]) p.

(** [emit], the [select], for the [i]-th caller waiting at it. *)
Definition emit_send (i : nat) (p : Proc) : option Proc :=
  evt ← emitting p !! i;
  let p' := set_emitting (delete i (emitting p)) p in
  Some match try_send evt (stream p) with
       | SendPanic => set_crashed true p'
       | Sent e => set_stream e p'
       | Dropped l => add_slog l p'
       end.

(** [start], the [select]: the case [<-e.ctx.Done()]. *)
Definition start_cancelled (p : Proc) : option Proc :=
  match loop p with
  | LSelect => if ctx_done (stream p) then Some (set_loop LExited p) else None
  | _ => None
  end.

(** [start], the [select]: the case [evt, ok := <-e.eventch].  A closed
    channel still hands out what it buffers; closed and empty gives
    [ok = false]; open and empty is not ready. *)
Definition start_recv (p : Proc) : option Proc :=
  match loop p with
  | LSelect =>
      match eventch (stream p) with
      | evt :: q => Some (set_loop (LGot evt) (set_stream (set_eventch q (stream p)) p))
      | [] => if eventch_closed (stream p) then Some (set_loop LExited p) else None
      end
  | _ => None
  end.

(** [start], the copy of the handlers under the read lock and the test
    [len(handlers) == 0]. *)
Definition start_snapshot (p : Proc) : option Proc :=
  match loop p with
  | LGot evt =>
      match snapshot (stream p) (topic evt) with
      | [] => Some (set_loop LSelect p)
      | handlers => Some (set_loop (LSpawn handlers (message evt)) p)
      end
  | _ => None
  end.

(** [start], one round of the [for range]: [e.wg.Add(1)] and the [go]
    statement for the next handler.  ([Add] panics on a waiter with the
    counter at zero; [wg_done] leaves no such state, see
    [waiter_counted].) *)
Definition start_spawn (p : Proc) : option Proc :=
  match loop p with
  | LSpawn (sub :: rest) msg =>
      let e := set_wg (wg (stream p) + 1) (stream p) in
      let pc := match rest with [] => LSelect | _ => LSpawn rest msg end in
      Some (set_loop pc (set_running (running p ++ [(sub, msg)]) (set_stream e p)))
  | _ => None
  end.

(** The [i]-th running invocation ends; the deferred [e.wg.Done()] runs
    whether [s.Fn] returned or panicked.  The goroutine has no [recover]:
    a panic goes on to the top of its stack and the runtime terminates
    the program. *)
Definition handler_done (panicked : bool) (i : nat) (p : Proc) : option Proc :=
  _ ← running p !! i;
  let p' := set_running (delete i (running p)) (wg_done p) in
  Some (if panicked then set_crashed true p' else p').

(** A call of [stop] reaches [stopOnce.Do]. *)
Definition stop_call (p : Proc) : Proc :=
  match stopOnce (stream p) with
  | OnceDone => set_stopping (stopping p ++ [SReturned]) p
  | OnceRunning => set_stopping (stopping p ++ [SOnceWait]) p
  | OnceFresh =>
      set_drains (S (drains p))
        (set_stopping (stopping p ++ [SStore])
           (set_stream (set_stopOnce OnceRunning (stream p)) p))
  end.

(** The [i]-th caller of [stop] moves on by one statement.  [e.wg.Wait()]
    returns at once with the counter at zero; otherwise the caller becomes
    a waiter and sleeps, and when it has been released it loads the state
    word again and panics ("WaitGroup is reused before previous Wait has
    returned") unless that is zero. *)
Definition stop_step (i : nat) (p : Proc) : option Proc :=
  pc ← stopping p !! i;
  let goto pc' := set_stopping (<[i := pc']> (stopping p)) in
  match pc with
  | SOnceWait =>
      match stopOnce (stream p) with
      | OnceDone => Some (goto SReturned p)
      | _ => None
      end
  | SStore => Some (goto SCancel (set_stream (set_closed true (stream p)) p))
  | SCancel => Some (goto SClose (set_stream (set_ctx_done true (stream p)) p))
  | SClose =>
      if eventch_closed (stream p)
      then Some (set_crashed true p)   (* close of a closed channel panics *)
      else Some (goto SWait (set_stream (set_eventch_closed true (stream p)) p))
  | SWait =>
      if wg (stream p) =? 0 then Some (goto SClear p)
      else Some (goto SWaitSema p)
  | SWaitSema => None
  | SWaitWoken =>
      if (wg (stream p) =? 0) && (wg_waiters p =? 0)%nat
      then Some (goto SClear p)
      else Some (set_crashed true p)
  | SClear =>
      Some (goto SReturned
              (set_stream (set_stopOnce OnceDone (set_subs ∅ (stream p))) p))
  | SReturned => None
  end.

(** One step of the machine; [None] when the action is not enabled (the
    goroutine is blocked or is not there) or the program has terminated. *)
Definition exec (a : Action) (p : Proc) : option Proc :=
  if crashed p then None else
  match a with
  | ASubscribe t h now =>
      let '(_, c, e) := subscribe t h now (subIDCounter p) (stream p) in
      Some (set_stream e (set_subIDCounter c p))
  | AUnsubscribe sub => Some (set_stream (unsubscribe sub (stream p)) p)
  | AEmitCheck t v => Some (emit_check t v p)
  | AEmitSend i => emit_send i p
  | ALoopCancelled => start_cancelled p
  | ALoopRecv => start_recv p
  | ALoopSnapshot => start_snapshot p
  | ALoopSpawn => start_spawn p
  | AHandlerReturn i => handler_done false i p
  | AHandlerPanic i => handler_done true i p
  | AStopCall => Some (stop_call p)
  | AStopStep i => stop_step i p
  end.

(** A schedule, run from left to right. *)
Fixpoint run (tr : list Action) (p : Proc) : option Proc :=
  match tr with
  | [] => Some p
  | a :: tr' => p' ← exec a p; run tr' p'
  end.

(** A call of [emit] with nothing scheduled in between: the load of
    [closed], and the [select] unless the call has returned. *)
Definition emit_seq (t : string) (v : any) (p : Proc) : option Proc :=
  p1 ← exec (AEmitCheck t v) p;
  if closed (stream p) then Some p1
  else exec (AEmitSend (length (emitting p))) p1.



Definition is_subscribe (a : Action) : bool :=
  match a with ASubscribe _ _ _ => true | _ => false end.

(** The calls that change the registry from outside. *)
Definition is_registry_op (a : Action) : bool :=
  match a with ASubscribe _ _ _ | AUnsubscribe _ => true | _ => false end.

(** A round of the loop's [for range]. *)
Definition is_loop_spawn (a : Action) : bool :=
  match a with ALoopSpawn => true | _ => false end.

(** What the callers of [subscribe] and [unsubscribe] and the loop in its
    [for range] do. *)
Definition is_registry_or_spawn (a : Action) : bool :=
  is_registry_op a || is_loop_spawn a.

(** How many rounds of the [for range] a schedule makes. *)
Definition spawn_count (tr : list Action) : nat :=
  length (List.filter is_loop_spawn tr).

(** How many calls of [subscribe] a schedule makes. *)
Definition subscribe_count (tr : list Action) : Z :=
  Z.of_nat (length (List.filter is_subscribe tr)).

(** The ids of the subscriptions that the calls of [subscribe] in a
    schedule return, in the order of the calls. *)
Fixpoint returned_ids (tr : list Action) (p : Proc) : list Z :=
  match tr with
  | [] => []
  | a :: tr' =>
      match exec a p with
      | None => []
      | Some p' =>
          match a with
          | ASubscribe t h now =>
              [ID (subscribe t h now (subIDCounter p) (stream p)).1.1]
          | _ => []
          end ++ returned_ids tr' p'
      end
  end.

(** The subscriptions that the calls of [subscribe] in a schedule return,
    in the order of the calls. *)
Fixpoint returned_subs (tr : list Action) (p : Proc) : list Subscription :=
  match tr with
  | [] => []
  | a :: tr' =>
      match exec a p with
      | None => []
      | Some p' =>
          match a with
          | ASubscribe t h now =>
              [(subscribe t h now (subIDCounter p) (stream p)).1.1]
          | _ => []
          end ++ returned_subs tr' p'
      end
  end.

(** What it would take for a panic of the [i]-th running handler to be
    caught at the invocation: the program goes on, the invocation has left
    the join count, and the fault was logged. *)
Definition fault_isolated (p : Proc) (i : nat) : Prop :=
  ∃ p', exec (AHandlerPanic i) p = Some p' ∧
        crashed p' = false ∧
        wg (stream p') = wg (stream p) - 1 ∧
        ∃ l, slog p' = slog p ++ [l].

(** [stop] has drained: the loop has returned and no handler runs. *)
Definition drained (p : Proc) : Prop :=
  loop p = LExited ∧ running p = [].

(** Registry calls leave the goroutines and the rest of the stream alone. *)
Definition same_but_registry (p p' : Proc) : Prop :=
  loop p' = loop p ∧ running p' = running p ∧ emitting p' = emitting p ∧
  crashed p' = crashed p ∧ slog p' = slog p ∧
  ∃ m, stream p' = set_subs m (stream p).

(** No subscription with the id and topic of [sub] is registered. *)
Definition absent (sub : Subscription) (e : eventStream) : Prop :=
  ∀ t s, s ∈ subs_of e t → ¬ (ID s = ID sub ∧ Topic s = Topic sub).

(** The states the program can be in. *)
Definition reachable (p : Proc) : Prop := ∃ tr, run tr init_proc = Some p.

(** ** The package-level API, called in sequence *)

(** [eventStream.emit] with nothing scheduled between its load of [closed]
    and its [select]: the stream afterwards and what was logged, or [None]
    for a panic. *)
Definition emit (t : string) (v : any) (e : eventStream)
    : option (eventStream * list LogEntry) :=
  if closed e
  then Some (e, [LogDebug "dropping event because stream is closed" t])
  else match try_send (mk_event t v) e with
       | SendPanic => None
       | Sent e' => Some (e', [])
       | Dropped l => Some (e, [l])
       end.

(** The package variables: [stream] ([None] is the nil pointer),
    [subIDCounter], and the default logger's output. *)
Record Globals := mk_globals {
  g_stream : option eventStream;
  g_subIDCounter : Z;
  g_slog : list LogEntry
}.

(** [Emit]; [None] for a panic. *)
Definition Emit (t : string) (v : any) (g : Globals) : option Globals :=
  match g_stream g with
  | None =>
      Some (mk_globals None (g_subIDCounter g)
              (g_slog g ++ [LogWarn "event stream not initialized; dropping event" t]))
  | Some e =>
      '(e', l) ← emit t v e;
      Some (mk_globals (Some e') (g_subIDCounter g) (g_slog g ++ l))
  end.

(** Every key of the map holds a non-empty slice. *)
Definition nonempty_ok (e : eventStream) : Prop :=
  ∀ t l, subs e !! t = Some l → l ≠ [].

(** Every subscription is filed under its own topic. *)
Definition topics_ok (e : eventStream) : Prop :=
  ∀ t l s, subs e !! t = Some l → s ∈ l → Topic s = t.

(** ** The invariant of the machine *)

(** What holds of the stream while the caller that runs the function of
    [stopOnce] stands at [pc]. *)
Definition body_ok (pc : StopPc) (e : eventStream) : Prop :=
  match pc with
  | SStore => eventch_closed e = false
  | SCancel | SClose => eventch_closed e = false ∧ closed e = true
  | SWait | SWaitSema | SWaitWoken | SClear => closed e = true
  | SOnceWait | SReturned => False
  end.

Definition stop_ok (p : Proc) : Prop :=
  match stopOnce (stream p) with
  | OnceFresh =>
      stopping p = [] ∧ drains p = 0%nat ∧ eventch_closed (stream p) = false
  | OnceRunning =>
      drains p = 1%nat ∧
      ∃ pc n, stopping p = pc :: replicate n SOnceWait ∧ body_ok pc (stream p)
  | OnceDone =>
      drains p = 1%nat ∧ closed (stream p) = true ∧
      Forall (λ pc, pc = SReturned ∨ pc = SOnceWait) (stopping p)
  end.

Record Inv (p : Proc) : Prop := mk_Inv {
  inv_nonempty : nonempty_ok (stream p);
  inv_topics : topics_ok (stream p);
  inv_wg : wg (stream p) = Z.of_nat (length (running p));
  inv_cap : (length (eventch (stream p)) ≤ eventch_cap)%nat;
  inv_stop : stop_ok p;
  inv_counter : 0 ≤ subIDCounter p < uint64_mod
}.

(** ** Further invariants *)

(** Where the shutdown stands, read off the caller inside the function of
    [stopOnce]: the mark [closed], the cancellation and the closing of the
    channel come in this order and are never undone. *)
Definition shutdown_pc_ok (pc : StopPc) (e : eventStream) : Prop :=
  match pc with
  | SStore => closed e = false ∧ ctx_done e = false
  | SCancel => ctx_done e = false
  | SClose => ctx_done e = true
  | SWait | SWaitSema | SWaitWoken | SClear =>
      ctx_done e = true ∧ eventch_closed e = true
  | SOnceWait | SReturned => True
  end.

Definition shutdown_ok (p : Proc) : Prop :=
  match stopOnce (stream p) with
  | OnceFresh => closed (stream p) = false ∧ ctx_done (stream p) = false
  | OnceRunning => ∀ pc l, stopping p = pc :: l → shutdown_pc_ok pc (stream p)
  | OnceDone => ctx_done (stream p) = true ∧ eventch_closed (stream p) = true
  end.

(** The ids in the registry: positive, at most the counter, without
    repetition inside a topic's list nor across topics. *)
Definition ids_ok (c : Z) (e : eventStream) : Prop :=
  (∀ t s, s ∈ subs_of e t → 0 < ID s ≤ c) ∧
  (∀ t, NoDup (map ID (subs_of e t))) ∧
  (∀ t1 t2 s1 s2, s1 ∈ subs_of e t1 → s2 ∈ subs_of e t2 →
                  ID s1 = ID s2 → t1 = t2).


(** The [for range] of [start] is entered with a non-empty snapshot only. *)
Definition loop_ok (p : Proc) : Prop :=
  match loop p with LSpawn [] _ => False | _ => True end.

(** The steps of the loop goroutine. *)
Definition is_loop_step (a : Action) : bool :=
  match a with
  | ALoopCancelled | ALoopRecv | ALoopSnapshot | ALoopSpawn => true
  | _ => false
  end.

(** ** The rest of the package-level API *)

(** [eventStream.stop] with nothing scheduled in between.  The function of
    [stopOnce] runs only on the first call; [e.wg.Wait()] returns only with
    the counter at zero. *)
Definition stop (e : eventStream) : Outcome eventStream :=
  match stopOnce e with
  | OnceDone => Returns e
  | OnceRunning => Blocks
  | OnceFresh =>
      if eventch_closed e then Panics
      else if wg e =? 0
           then Returns (mk_stream ∅ (eventch e) true true (wg e) OnceDone true)
           else Blocks
  end.

(** [Stop]: guarded against the nil stream. *)
Definition Stop (g : Globals) : Outcome Globals :=
  match g_stream g with
  | None => Returns g
  | Some e =>
      match stop e with
      | Returns e' => Returns (mk_globals (Some e') (g_subIDCounter g) (g_slog g))
      | Panics => Panics
      | Blocks => Blocks
      end
  end.

(** [Subscribe]: the method is called on the pointer as it is; with a nil
    pointer [e.mu.Lock()] dereferences nil. *)
Definition Subscribe (t : string) (h : HandlerFunc) (now : Z) (g : Globals)
    : Outcome (Subscription * Globals) :=
  match g_stream g with
  | None => Panics
  | Some e =>
      let '(sub, c, e') := subscribe t h now (g_subIDCounter g) e in
      Returns (sub, mk_globals (Some e') c (g_slog g))
  end.

(** [Unsubscribe]: likewise. *)
Definition Unsubscribe (sub : Subscription) (g : Globals) : Outcome Globals :=
  match g_stream g with
  | None => Panics
  | Some e =>
      Returns (mk_globals (Some (unsubscribe sub e)) (g_subIDCounter g) (g_slog g))
  end.

End EventBus.

(** * The registry in memory

    A Go slice is a pointer to a backing array with a length, and the
    capacity is what is left of the array.  The slices of [e.subs] always
    start at the first element of their array.  [append] writes into the
    array when it has room and moves to a new one otherwise;
    [slices.DeleteFunc] moves the elements that stay to the front of the
    same array.  What the loop of [start] iterates over is the array behind
    its slice. *)

Section Slices.

Context {HandlerFunc : Type}.

(** An element of a backing array: a Subscription, or the zero value. *)
Definition cell : Type := option (@Subscription HandlerFunc).

Definition cell_ID (c : cell) : Z :=
  match c with Some s => ID s | None => 0 end.

(** A slice header; [ptr = None] is the nil slice. *)
Record slice := mk_slice { ptr : option positive; slen : nat }.

Definition nil_slice : slice := mk_slice None 0.

(** The backing arrays by address, and the map [e.subs] of slice headers. *)
Record registry := mk_registry {
  arrays : gmap positive (list cell);
  headers : gmap string slice
}.

Definition empty_registry : registry := mk_registry ∅ ∅.

Definition array_of (h : gmap positive (list cell)) (s : slice) : list cell :=
  match ptr s with Some a => default [] (h !! a) | None => [] end.

(** [cap(s)] and the elements [s[0], ..., s[len(s)-1]]. *)
Definition cap (h : gmap positive (list cell)) (s : slice) : nat :=
  length (array_of h s).

Definition elems (h : gmap positive (list cell)) (s : slice) : list cell :=
  take (slen s) (array_of h s).

(** The capacity the runtime gives a new array, from the old capacity and
    the length needed; and whether [slices.DeleteFunc] clears the elements
    it leaves behind the new length (it does since Go 1.22). *)
Context (growslice : nat → nat → nat) (clear_tail : bool).

(** [append(s, x)]. *)
Definition append_one (h : gmap positive (list cell)) (s : slice)
    (x : @Subscription HandlerFunc) : gmap positive (list cell) * slice :=
  match ptr s with
  | Some a =>
      if (slen s <? cap h s)%nat
      then (<[a := <[slen s := Some x]> (array_of h s)]> h,
            mk_slice (Some a) (S (slen s)))
      else
        let a' := fresh (dom h) in
        let c := growslice (cap h s) (S (slen s)) in
        (<[a' := elems h s ++ Some x :: replicate (c - S (slen s)) None]> h,
         mk_slice (Some a') (S (slen s)))
  | None =>
      let a' := fresh (dom h) in
      let c := growslice 0 1 in
      (<[a' := Some x :: replicate (c - 1) None]> h, mk_slice (Some a') 1)
  end.

(** [append([]Subscription(nil), s...)]: nil for an empty [s], a new array
    otherwise. *)
Definition copy_slice (h : gmap positive (list cell)) (s : slice)
    : gmap positive (list cell) * slice :=
  if (slen s =? 0)%nat then (h, nil_slice)
  else
    let a' := fresh (dom h) in
    let c := growslice 0 (slen s) in
    (<[a' := elems h s ++ replicate (c - slen s) None]> h,
     mk_slice (Some a') (slen s)).

(** [slices.DeleteFunc(s, func(x) bool { return x.ID == id })]: nothing is
    written when no element is to go; otherwise the elements that stay are
    moved to the front of the same array and the slice is cut. *)
Definition DeleteFunc (h : gmap positive (list cell)) (s : slice) (id : Z)
    : gmap positive (list cell) * slice :=
  let l := elems h s in
  let kept := List.filter (λ c, negb (cell_ID c =? id)) l in
  match ptr s with
  | Some a =>
      if (length kept =? length l)%nat then (h, s)
      else
        let tail := if clear_tail
                    then replicate (length l - length kept) None
                    else drop (length kept) l in
        (<[a := kept ++ tail ++ drop (slen s) (array_of h s)]> h,
         mk_slice (Some a) (length kept))
  | None => (h, s)
  end.

(** [subscribe], [unsubscribe] and the copy made by [start], on the
    registry in memory. *)
Definition subscribe_mem (t : string) (hf : HandlerFunc) (now : Z) (c : Z)
    (m : registry) : @Subscription HandlerFunc * Z * registry :=
  let sub := mk_sub (subID_add1 c) t now hf in
  let hs := append_one (arrays m) (default nil_slice (headers m !! t)) sub in
  (sub, subID_add1 c, mk_registry hs.1 (<[t := hs.2]> (headers m))).

Definition unsubscribe_mem (sub : @Subscription HandlerFunc) (m : registry)
    : registry :=
  match headers m !! Topic sub with
  | Some s =>
      let hs := DeleteFunc (arrays m) s (ID sub) in
      if (slen hs.2 =? 0)%nat
      then mk_registry hs.1 (delete (Topic sub) (headers m))
      else mk_registry hs.1 (<[Topic sub := hs.2]> (headers m))
  | None => m
  end.

Definition snapshot_mem (m : registry) (t : string) : registry * slice :=
  let hs := copy_slice (arrays m) (default nil_slice (headers m !! t)) in
  (mk_registry hs.1 (headers m), hs.2).

(** What [start] would iterate over without the copy:
    [handlers := e.subs[evt.topic]]. *)
Definition alias_mem (m : registry) (t : string) : slice :=
  default nil_slice (headers m !! t).

(** The Subscriptions of a slice, and the registry as a map of lists. *)
Definition abs_list (h : gmap positive (list cell)) (s : slice)
    : list (@Subscription HandlerFunc) :=
  omap id (elems h s).

Definition abs_subs (m : registry) : gmap string (list (@Subscription HandlerFunc)) :=
  abs_list (arrays m) <$> headers m.

(** A slice of the registry: it has its array, is not longer than it, is
    not empty, and holds Subscriptions up to its length. *)
Definition slice_ok (h : gmap positive (list cell)) (s : slice) : Prop :=
  ∃ a arr, ptr s = Some a ∧ h !! a = Some arr ∧
           (0 < slen s ≤ length arr)%nat ∧
           Forall (λ c : cell, is_Some c) (take (slen s) arr).

(** The registry in memory is well formed: every header is, and no two
    topics share an array. *)
Definition mem_ok (m : registry) : Prop :=
  (∀ t s, headers m !! t = Some s → slice_ok (arrays m) s) ∧
  (∀ t1 t2 s1 s2, headers m !! t1 = Some s1 → headers m !! t2 = Some s2 →
                  ptr s1 = ptr s2 → t1 = t2).

(** The array at [a] is allocated and no header of the registry points to
    it. *)
Definition private (a : positive) (m : registry) : Prop :=
  is_Some (arrays m !! a) ∧
  ∀ t s, headers m !! t = Some s → ptr s ≠ Some a.

End Slices.

Section RegistryInMemory.

Context {HandlerFunc any : Type}.
Context (growslice : nat → nat → nat) (clear_tail : bool).

(** The calls of [subscribe] and [unsubscribe] of a schedule, made on the
    registry in memory; [c] is the counter. *)
Fixpoint run_mem (muts : list (@Action HandlerFunc any)) (c : Z)
    (m : @registry HandlerFunc) : Z * @registry HandlerFunc :=
  match muts with
  | [] => (c, m)
  | ASubscribe t h now :: rest =>
      let r := subscribe_mem growslice t h now c m in
      run_mem rest r.1.2 r.2
  | AUnsubscribe sub :: rest =>
      run_mem rest c (unsubscribe_mem clear_tail sub m)
  | _ :: rest => run_mem rest c m
  end.

(** The registry in memory holds what the map of lists [subs e] says. *)
Definition represents (m : @registry HandlerFunc)
    (e : @eventStream HandlerFunc any) : Prop :=
  mem_ok m ∧ abs_subs m = subs e.

End RegistryInMemory.

(** * Concrete schedules

    Handlers are numbered, messages are strings. *)

(** One subscriber on topic "t", one event for it, taken by the loop up
    to its snapshot. *)
Definition snapshot_schedule : list (@Action nat string) :=
  [ASubscribe "t" 1%nat 100; AEmitCheck "t" "x"; AEmitSend 0;
   ALoopRecv; ALoopSnapshot].

(** The same, with the handler started. *)
Definition dispatch_schedule : list (@Action nat string) :=
  snapshot_schedule ++ [ALoopSpawn].

(** One call of [stop], run to its end. *)
Definition stop_schedule : list (@Action nat string) :=
  AStopCall :: replicate 5 (AStopStep 0).

(** A call of [stop] that runs from start to end between the loop's
    snapshot and its [e.wg.Add(1)]. *)
Definition racy_stop_schedule : list (@Action nat string) :=
  snapshot_schedule ++ stop_schedule ++ [ALoopSpawn].

(** Two handlers on topic "t" and one event for them.  The loop has
    started the first handler and still holds the second; a call of [stop]
    has marked, cancelled and closed, found the join count at 1 and sleeps
    in [e.wg.Wait()]; a second call of [stop] waits in [stopOnce.Do]. *)
Definition waiting_stop_schedule : list (@Action nat string) :=
  [ASubscribe "t" 1%nat 100; ASubscribe "t" 2%nat 200;
   AEmitCheck "t" "x"; AEmitSend 0; ALoopRecv; ALoopSnapshot; ALoopSpawn;
   AStopCall; AStopStep 0; AStopStep 0; AStopStep 0; AStopStep 0;
   AStopCall].

(** Then the first handler returns, which releases the sleeping caller,
    and the loop goes on with its [for range]: [e.wg.Add(1)] for the second
    handler comes before the released caller runs again. *)
Definition wait_reuse_schedule : list (@Action nat string) :=
  waiting_stop_schedule ++ [AHandlerReturn 0; ALoopSpawn].

(** [n] rounds of subscribe-then-unsubscribe on topic "tmp", the counter
    standing at [c] at the start. *)
Fixpoint churn (n : nat) (c : Z) : list (@Action nat string) :=
  match n with
  | O => []
  | S n' =>
      ASubscribe "tmp" 0%nat 0
        :: AUnsubscribe (mk_sub (subID_add1 c) "tmp" 0 0%nat)
        :: churn n' (subID_add1 c)
  end.

(** A subscription that is kept, 2^64 - 2 rounds of churn, and one more
    call of [subscribe]: 2^64 calls in all. *)
Definition wrap_schedule : list (@Action nat string) :=
  ASubscribe "t" 1%nat 0
    :: churn (Z.to_nat (uint64_mod - 2)) 1 ++ [ASubscribe "t" 2%nat 0].

(** Two handlers on topic "t" and one on topic "u". *)
Definition two_topics_schedule : list (@Action nat string) :=
  [ASubscribe "t" 1%nat 10; ASubscribe "t" 2%nat 20; ASubscribe "u" 3%nat 30].


(** A call of [stop] that has marked the stream and cancelled the context,
    the loop holding a snapshot. *)
Definition cancelled_schedule : list (@Action nat string) :=
  snapshot_schedule ++ [AStopCall; AStopStep 0; AStopStep 0].

(** Calls made after a [stop]. *)
Definition after_stop_schedule : list (@Action nat string) :=
  [ASubscribe "t" 1%nat 10; AEmitCheck "t" "x"; ALoopCancelled].

(** An event is buffered and never received before a call of [stop] runs
    to its end. *)
Definition buffered_stop_schedule : list (@Action nat string) :=
  [AEmitCheck "t" "x"; AEmitSend 0] ++ stop_schedule.

(** Afterwards a handler subscribes, and the loop goes on. *)
Definition late_subscriber_schedule : list (@Action nat string) :=
  [ASubscribe "t" 1%nat 100; ALoopRecv; ALoopSnapshot; ALoopSpawn].

(** A subscription that is kept and 2^64 - 1 rounds of churn: 2^64 calls
    of [subscribe]. *)
Definition wrap_after_stop_schedule : list (@Action nat string) :=
  ASubscribe "t" 1%nat 0 :: churn (Z.to_nat (uint64_mod - 1)) 1.

(** Three subscribers on "t"; the first unsubscribes; then an event for
    "t" is emitted and received by the loop. *)
Definition unsubscribed_schedule : list (@Action nat string) :=
  [ASubscribe "t" 1%nat 100; ASubscribe "t" 2%nat 200;
   ASubscribe "t" 3%nat 300; AUnsubscribe (mk_sub 1 "t" 100 1%nat);
   AEmitCheck "t" "x"; AEmitSend 0; ALoopRecv].

(** What happens while the loop goes through its snapshot: a fourth
    handler subscribes before the first round of the [for range], the
    third one unsubscribes before the second round. *)
Definition late_registry_calls : list (@Action nat string) :=
  [ASubscribe "t" 4%nat 400; ALoopSpawn;
   AUnsubscribe (mk_sub 3 "t" 300 3%nat); ALoopSpawn].

(** A growth of capacities as the runtime may choose it. *)
Definition grow_double (old n : nat) : nat := Nat.max n (2 * old).

(** Two handlers on "t", in memory. *)
Definition two_handlers_mem : @registry nat :=
  (run_mem (any := string) grow_double true
     [ASubscribe "t" 1%nat 100; ASubscribe "t" 2%nat 200] 0 empty_registry).2.

(** * Go strings

    A Go [string] or [[]byte] is a sequence of bytes. *)

Abbreviation bytes := (list ascii).

(** A string literal. *)
Definition lit (s : string) : bytes := String.list_ascii_of_string s.

(** The byte ['\n']. *)
Definition nl : ascii := ascii_of_nat 10.

(** [strings.HasPrefix]: [len(s) >= len(prefix) && s[:len(prefix)] == prefix]. *)
Definition HasPrefix (s prefix : bytes) : bool :=
  (length prefix <=? length s)%nat && bool_decide (take (length prefix) s = prefix).

(** [strings.HasSuffix]. *)
Definition HasSuffix (s suffix : bytes) : bool :=
  (length suffix <=? length s)%nat &&
  bool_decide (drop (length s - length suffix) s = suffix).

(** [strings.Contains]: [substr] starts at some index of [s]. *)
Fixpoint Contains (s substr : bytes) : bool :=
  HasPrefix s substr ||
  match s with
  | [] => false
  | _ :: s' => Contains s' substr
  end.

(** [strings.ReplaceAll] for a non-empty [old]: the occurrences are taken
    from the left and do not overlap; [skip] bytes of an occurrence are
    still to be passed over. *)
Fixpoint replace_from (s old new : bytes) (skip : nat) : bytes :=
  match s with
  | [] => []
  | c :: s' =>
      match skip with
      | S k => replace_from s' old new k
      | O =>
          if HasPrefix s old
          then new ++ replace_from s' old new (length old - 1)
          else c :: replace_from s' old new 0
      end
  end.

Definition ReplaceAll (s old new : bytes) : bytes := replace_from s old new 0.

(** [strings.Split] with a separator of one byte: the pieces between the
    separators, one more than there are separators. *)
Fixpoint Split (s : bytes) (sep : ascii) : list bytes :=
  match s with
  | [] => [[]]
  | c :: s' =>
      if bool_decide (c = sep) then [] :: Split s' sep
      else match Split s' sep with
           | piece :: pieces => (c :: piece) :: pieces
           | [] => [[c]]
           end
  end.

(** [strings.Join]. *)
Fixpoint Join (elems : list bytes) (sep : bytes) : bytes :=
  match elems with
  | [] => []
  | [x] => x
  | x :: rest => x ++ sep ++ Join rest sep
  end.

(** * The installer: [generateSecret], [ensureEnv], [injectSecret] *)

Definition secretByteLen : nat := 32.

(** [encoding/hex]: [hextable] and [EncodeToString], two digits per
    byte, [hextable[v>>4]] then [hextable[v&0x0f]]. *)
Definition hextable : bytes := lit "0123456789abcdef".

Definition hex_digit (n : N) : ascii :=
  nth (N.to_nat n) hextable (ascii_of_nat 0).

Definition EncodeToString (src : bytes) : bytes :=
  flat_map (λ v, [hex_digit (N.shiftr (N_of_ascii v) 4);
                  hex_digit (N.land (N_of_ascii v) 15)]) src.

(** [fromHexChar] of [encoding/hex] on the digits of [hextable], and the
    byte of two digits. *)
Definition fromHexChar (c : ascii) : N :=
  let n := N_of_ascii c in
  if (n <? 58)%N then (n - 48)%N else (n - 97 + 10)%N.

Definition byte_of_hex (hi lo : ascii) : ascii :=
  ascii_of_N (N.lor (N.shiftl (fromHexChar hi) 4) (fromHexChar lo)).

(** [generateSecret]; [rand_Read n] is what [rand.Read] puts into a buffer
    of [n] bytes, or [None] for its error, on which [log.Fatalf] ends the
    program. *)
Definition generateSecret (rand_Read : nat → option bytes) : option bytes :=
  b ← rand_Read secretByteLen;
  Some (EncodeToString b).

(** The files the installer handles: content and permission bits, by path.
    The calls of package [os] are taken on a file system where they fail
    for a missing file only. *)
Record file := mk_file { data : bytes; perm : Z }.

Record filesys := mk_filesys {
  files : gmap bytes file;
  umask : Z
}.

(** [os.Stat(p)] returns a nil error. *)
Definition exists_file (p : bytes) (fs : filesys) : bool :=
  bool_decide (is_Some (files fs !! p)).

(** [os.ReadFile]. *)
Definition ReadFile (p : bytes) (fs : filesys) : option bytes :=
  data <$> files fs !! p.

(** [os.WriteFile]: an existing file is truncated and written, its
    permissions kept; a missing one is created with [mode], less the
    umask. *)
Definition WriteFile (p : bytes) (d : bytes) (mode : Z) (fs : filesys) : filesys :=
  let f := match files fs !! p with
           | Some f0 => mk_file d (perm f0)
           | None => mk_file d (Z.ldiff mode (umask fs))
           end in
  mk_filesys (<[p := f]> (files fs)) (umask fs).

(** [os.Rename]: [None] for the error on a missing source. *)
Definition Rename (oldpath newpath : bytes) (fs : filesys) : option filesys :=
  f ← files fs !! oldpath;
  Some (mk_filesys (<[newpath := f]> (delete oldpath (files fs))) (umask fs)).

Definition placeholder : bytes := lit "{{app_secret}}".
Definition app_secret_key : bytes := lit "APP_SECRET=".

(** [ensureEnv]; [None] when it returns an error. *)
Definition ensureEnv (envLocal envExample dest : bytes) (fs : filesys)
    : option filesys :=
  if exists_file dest fs then Some fs
  else if exists_file envLocal fs then Rename envLocal dest fs
  else if exists_file envExample fs then
    input ← ReadFile envExample fs;
    Some (WriteFile dest input 384 fs)          (* 0o600 *)
  else
    let content := app_secret_key ++ placeholder ++ [nl] in
    Some (WriteFile dest content 384 fs).

(** The body of the loop over the lines in [injectSecret]: what stands
    at [lines[i]] afterwards. *)
Definition secret_line (secret ln : bytes) : bytes :=
  if HasPrefix ln app_secret_key then app_secret_key ++ secret else ln.

(** What [injectSecret] makes of the content it has read. *)
Definition inject (content secret : bytes) : bytes :=
  if Contains content placeholder then
    ReplaceAll content placeholder secret
  else if Contains content app_secret_key then
    let lines := Split content nl in
    Join (map (secret_line secret) lines) [nl]
  else
    let content' := if HasSuffix content [nl] then content
                    else content ++ [nl] in
    content' ++ app_secret_key ++ secret ++ [nl].

(** [injectSecret]; [None] when it returns an error. *)
Definition injectSecret (envPath secret : bytes) (fs : filesys)
    : option filesys :=
  b ← ReadFile envPath fs;
  let content := inject b secret in
  let mode := match files fs !! envPath with
              | Some info => perm info
              | None => 384
              end in
  Some (WriteFile envPath content mode fs).

(** [isBinary]: [bytes.IndexByte(b, 0) != -1]. *)
Fixpoint IndexByte (b : bytes) (c : ascii) : Z :=
  match b with
  | [] => -1
  | x :: b' =>
      if bool_decide (x = c) then 0
      else let i := IndexByte b' c in if i =? -1 then -1 else i + 1
  end.

Definition isBinary (b : bytes) : bool :=
  negb (IndexByte b (ascii_of_nat 0) =? -1).

(** The function that [replaceIdentifierInTree] hands to
    [filepath.WalkDir], called with a nil error for the regular file at
    [p]; [None] when it returns an error. [oldID] is not empty. *)
Definition replace_in_file (oldID newVal p : bytes) (fs : filesys)
    : option filesys :=
  b ← ReadFile p fs;
  if isBinary b then Some fs
  else if negb (Contains b oldID) then Some fs
  else
    let newContent := ReplaceAll b oldID newVal in
    info ← files fs !! p;
    Some (WriteFile p newContent (perm info) fs).

(** A project with one file [.env], as the installer may find it. *)
Definition env_path : bytes := lit "app/.env".

Definition env_fs (content : bytes) : filesys :=
  mk_filesys {[ env_path := mk_file content 420 ]} 18.      (* 0o644, 0o022 *)

(** A source of random bytes for [rand_Read]. *)
Definition rand_const (c : ascii) (n : nat) : option bytes :=
  Some (replicate n c).

(** * Package [ui]: class lists and attributes *)

(** [asciiSpace] of package [strings]. *)
Definition asciiSpace (c : ascii) : bool :=
  bool_decide (c ∈ map ascii_of_nat [9; 10; 11; 12; 13; 32]%nat).

(** A byte below [utf8.RuneSelf]. *)
Definition is_ascii_byte (c : ascii) : bool := (N_of_ascii c <? 128)%N.

(** [strings.Fields] on a string of ASCII bytes: the maximal runs of
    bytes that are not white space. *)
Fixpoint fields_ascii (s : bytes) : list bytes :=
  match s with
  | [] => []
  | c :: s' =>
      if asciiSpace c then fields_ascii s'
      else match s' with
           | [] => [[c]]
           | c' :: _ =>
               if asciiSpace c' then [c] :: fields_ascii s'
               else match fields_ascii s' with
                    | w :: ws => (c :: w) :: ws
                    | [] => [[c]]
                    end
           end
  end.

(** The parts of a list in first-seen order, each once. *)
Fixpoint first_seen (l : list bytes) : list bytes :=
  match l with
  | [] => []
  | x :: r => x :: filter (λ y, y ≠ x) (first_seen r)
  end.

(** A class name: not empty, no white space, ASCII. *)
Definition is_word (w : bytes) : Prop :=
  w ≠ [] ∧ Forall (λ c, asciiSpace c = false ∧ is_ascii_byte c = true) w.

(** A string of ASCII bytes only. *)
Definition ascii_only (s : bytes) : Prop := forallb is_ascii_byte s = true.

Section UI.

(** What [strings.Fields] returns for a string with a byte outside ASCII,
    where it decodes UTF-8 and asks [unicode.IsSpace]; and the values an
    attribute can hold besides a string. *)
Context (FieldsFunc_unicode : bytes → list bytes) {Other : Type}.

(** [strings.Fields]. *)
Definition Fields (s : bytes) : list bytes :=
  if forallb is_ascii_byte s then fields_ascii s else FieldsFunc_unicode s.

(** The inner loop of [joinClasses]: [seen] and [out] after one more part. *)
Definition add_part (st : list bytes * list bytes) (p : bytes)
    : list bytes * list bytes :=
  if bool_decide (p = []) then st
  else if bool_decide (p ∈ st.1) then st
  else (p :: st.1, st.2 ++ [p]).

(** The outer loop: one more class string. *)
Definition add_classes (st : list bytes * list bytes) (cs : bytes)
    : list bytes * list bytes :=
  if bool_decide (cs = []) then st
  else foldl add_part st (Fields cs).

(** [joinClasses]. *)
Definition joinClasses (classes : list bytes) : bytes :=
  Join (foldl add_classes ([], []) classes).2 (lit " ").

(** [Merge]. *)
Definition Merge (a b : bytes) : bytes := joinClasses [a; b].

(** A value of [templ.Attributes], a [map[string]any]. *)
Inductive attr_value :=
| AString (s : bytes)
| AOther (v : Other).

(** [Class(c)], applied to a non-nil [*templ.Attributes]: the type
    assertion [.(string)] gives the empty string for a missing key and for
    a value that is no string. *)
Definition Class (c : bytes) (attrs : gmap bytes attr_value)
    : gmap bytes attr_value :=
  let current := match attrs !! lit "class" with
                 | Some (AString s) => s
                 | _ => []
                 end in
  <[lit "class" := AString (joinClasses [current; c])]> attrs.

(** [Attr(key, value)], applied to a non-nil pointer. *)
Definition Attr (key : bytes) (value : attr_value) (attrs : gmap bytes attr_value)
    : gmap bytes attr_value :=
  <[key := value]> attrs.

(** [CreateAttrs]; a nil option is [None]. *)
Definition CreateAttrs (baseClass defaultClass : bytes)
    (opts : list (option (gmap bytes attr_value → gmap bytes attr_value)))
    : gmap bytes attr_value :=
  foldl (λ attrs o, match o with Some f => f attrs | None => attrs end)
        (<[lit "class" := AString (joinClasses [baseClass; defaultClass])]> ∅)
        opts.

End UI.

(** Class strings and options to try [joinClasses] and [CreateAttrs] on;
    the strings are ASCII, so [strings.Fields] never decodes UTF-8. *)
Definition no_unicode (s : bytes) : list bytes := [].

Definition btn_classes : list bytes :=
  [lit "  btn btn-primary "; lit "p-2 btn"; lit "mt-1"].

Definition btn_options : list (option bytes) :=
  [Some (lit "p-2 btn"); None; Some (lit "mt-1  p-2")].

(** * Proofs *)

Section Properties.

Context {HandlerFunc any : Type}.

Implicit Types (e : @eventStream HandlerFunc any) (p : @Proc HandlerFunc any).
Implicit Types (sub s : @Subscription HandlerFunc) (evt : @event any).
Implicit Types (tr : list (@Action HandlerFunc any)).

Local Abbreviation init_proc := (@init_proc HandlerFunc any).

(** ** Properties of the registry *)

Lemma subs_of_Some e t l : subs e !! t = Some l → subs_of e t = l.
Proof. unfold subs_of. by intros ->. Qed.

Lemma subs_of_None e t : subs e !! t = None → subs_of e t = [].
Proof. unfold subs_of. by intros ->. Qed.

Lemma snapshot_eq e t : snapshot e t = subs_of e t.
Proof. reflexivity. Qed.

Lemma subs_of_set_subs m e t : subs_of (set_subs m e) t = default [] (m !! t).
Proof. reflexivity. Qed.

Lemma subscribe_subs_of t h now c e t' :
  subs_of (subscribe t h now c e).2 t' =
  if decide (t = t') then subs_of e t ++ [mk_sub (subID_add1 c) t now h]
  else subs_of e t'.
Proof.
  unfold subscribe; cbn. rewrite subs_of_set_subs, lookup_insert.
  by case_decide.
Qed.

Lemma elem_of_delete_by_id id l s :
  s ∈ delete_by_id id l ↔ s ∈ l ∧ ID s ≠ id.
Proof.
  unfold delete_by_id. rewrite !list_elem_of_In, filter_In.
  rewrite negb_true_iff, Z.eqb_neq. done.
Qed.

Lemma unsubscribe_subs_of sub e t :
  subs_of (unsubscribe sub e) t =
  if decide (Topic sub = t) then delete_by_id (ID sub) (subs_of e t)
  else subs_of e t.
Proof.
  unfold unsubscribe.
  destruct (subs e !! Topic sub) as [l|] eqn:Hl.
  - cbv zeta. destruct (length (delete_by_id (ID sub) l) =? 0)%nat eqn:Hlen.
    + rewrite subs_of_set_subs, lookup_delete. case_decide as Ht.
      * subst t. rewrite (subs_of_Some _ _ _ Hl).
        apply Nat.eqb_eq, nil_length_inv in Hlen. by rewrite Hlen.
      * by rewrite lookup_insert_ne.
    + rewrite subs_of_set_subs, lookup_insert. case_decide as Ht.
      * subst t. by rewrite (subs_of_Some _ _ _ Hl).
      * done.
  - case_decide as Ht; [|done]. subst t.
    by rewrite (subs_of_None _ _ Hl).
Qed.

Lemma subscribe_nonempty t h now c e :
  nonempty_ok e → nonempty_ok (subscribe t h now c e).2.
Proof.
  intros He t' l. unfold subscribe; cbn. rewrite lookup_insert.
  case_decide; [|by apply He].
  intros [= <-]. by destruct (subs_of e t).
Qed.

Lemma unsubscribe_nonempty sub e :
  nonempty_ok e → nonempty_ok (unsubscribe sub e).
Proof.
  intros He t l. unfold unsubscribe.
  destruct (subs e !! Topic sub) as [l0|] eqn:Hl; [|by apply He].
  cbv zeta. destruct (length (delete_by_id (ID sub) l0) =? 0)%nat eqn:Hlen; cbn.
  - rewrite lookup_delete. case_decide; [done|].
    rewrite lookup_insert_ne by done. apply He.
  - rewrite lookup_insert. case_decide; [|by apply He].
    intros [= <-] Hnil. by rewrite Hnil in Hlen.
Qed.

Lemma topics_ok_subs_of e :
  topics_ok e ↔ ∀ t s, s ∈ subs_of e t → Topic s = t.
Proof.
  split.
  - intros He t s. unfold subs_of.
    destruct (subs e !! t) as [l|] eqn:Hl; cbn; [by eapply He|].
    by intros ?%not_elem_of_nil.
  - intros He t l s Hl. rewrite <- (subs_of_Some _ _ _ Hl). apply He.
Qed.

Lemma subscribe_topics t h now c e :
  topics_ok e → topics_ok (subscribe t h now c e).2.
Proof.
  rewrite !topics_ok_subs_of. intros He t' s.
  rewrite subscribe_subs_of. case_decide; [|by apply He].
  subst t'. rewrite elem_of_app, list_elem_of_singleton.
  intros [?| ->]; [by apply He | done].
Qed.

Lemma unsubscribe_topics sub e :
  topics_ok e → topics_ok (unsubscribe sub e).
Proof.
  rewrite !topics_ok_subs_of. intros He t s.
  rewrite unsubscribe_subs_of. case_decide; [|by apply He].
  rewrite elem_of_delete_by_id. intros [? _]. by apply He.
Qed.

(** ** The invariant is kept by every step *)

Lemma stop_ok_ext p p' :
  stopOnce (stream p') = stopOnce (stream p) →
  stopping p' = stopping p →
  drains p' = drains p →
  eventch_closed (stream p') = eventch_closed (stream p) →
  closed (stream p') = closed (stream p) →
  stop_ok p → stop_ok p'.
Proof.
  unfold stop_ok. intros -> -> -> Hc Hd.
  destruct (stopOnce (stream p)); rewrite ?Hc, ?Hd; [done| |done].
  intros [? (pc & n & ? & Hb)]. split; [done|]. exists pc, n. split; [done|].
  destruct pc; cbn in *; rewrite ?Hc, ?Hd; done.
Qed.

Lemma unsubscribe_set_subs sub e :
  ∃ m, unsubscribe sub e = set_subs m e.
Proof.
  unfold unsubscribe. destruct (subs e !! Topic sub) as [l|].
  - cbv zeta. destruct (_ =? _)%nat; eauto.
  - exists (subs e). by destruct e.
Qed.

Lemma subID_add1_range c : 0 ≤ subID_add1 c < uint64_mod.
Proof. apply Z.mod_pos_bound. reflexivity. Qed.

Lemma Inv_init : Inv init_proc.
Proof.
  split; cbn; try done.
  all: unfold eventch_cap, uint64_mod; lia.
Qed.

(** [Done] changes the counter and, at zero, the place of the waiters. *)
Lemma wg_done_stream p :
  stream (wg_done p) = set_wg (wg (stream p) - 1) (stream p).
Proof. unfold wg_done. cbv zeta. by destruct (_ || _). Qed.

Lemma wg_done_rest p :
  subIDCounter (wg_done p) = subIDCounter p ∧ slog (wg_done p) = slog p ∧
  loop (wg_done p) = loop p ∧ running (wg_done p) = running p ∧
  emitting (wg_done p) = emitting p ∧ crashed (wg_done p) = crashed p ∧
  drains (wg_done p) = drains p.
Proof. unfold wg_done. cbv zeta. by destruct (_ || _). Qed.

Lemma wg_done_stopping p :
  stopping (wg_done p) = stopping p ∨
  stopping (wg_done p) = map wake (stopping p).
Proof. unfold wg_done. cbv zeta. destruct (_ || _); [by left | by right]. Qed.

Lemma map_wake_waiting n : map wake (replicate n SOnceWait) = replicate n SOnceWait.
Proof. induction n as [|n IH]; cbn; [done|]. by rewrite IH. Qed.

Lemma body_ok_wake pc e : body_ok pc e → body_ok (wake pc) e.
Proof. by destruct pc. Qed.

Lemma stop_ok_wake p p' :
  stopOnce (stream p') = stopOnce (stream p) →
  stopping p' = map wake (stopping p) →
  drains p' = drains p →
  eventch_closed (stream p') = eventch_closed (stream p) →
  closed (stream p') = closed (stream p) →
  stop_ok p → stop_ok p'.
Proof.
  unfold stop_ok. intros -> -> -> Hc Hd.
  destruct (stopOnce (stream p)); rewrite ?Hc, ?Hd.
  - intros (-> & ? & ?). done.
  - intros [? (pc & n & -> & Hb)]. split; [done|].
    exists (wake pc), n. cbn. rewrite map_wake_waiting. split; [done|].
    apply body_ok_wake.
    destruct pc; cbn in *; rewrite ?Hc, ?Hd; done.
  - intros (? & ? & Hall). split; [done|]. split; [done|].
    apply Forall_fmap. eapply Forall_impl; [exact Hall|].
    by intros pc [-> | ->]; [left | right].
Qed.

Lemma stop_ok_wg_done p : stop_ok p → stop_ok (wg_done p).
Proof.
  intros Hstop. destruct (wg_done_rest p) as (_ & _ & _ & _ & _ & _ & Hd).
  destruct (wg_done_stopping p) as [Hs | Hs].
  - eapply stop_ok_ext; [..|exact Hstop]; by rewrite ?wg_done_stream.
  - eapply stop_ok_wake; [..|exact Hstop]; by rewrite ?wg_done_stream.
Qed.

Lemma Inv_wg_done p i inv :
  Inv p → running p !! i = Some inv →
  Inv (set_running (delete i (running p)) (wg_done p)).
Proof.
  intros [Hne Htp Hwg Hcap Hstop Hctr] Hi.
  destruct (wg_done_rest p) as (Hc & _ & _ & _ & _ & _ & Hd).
  split; cbn; rewrite ?wg_done_stream; cbn; try done.
  - rewrite length_delete by eauto. apply lookup_lt_Some in Hi. lia.
  - pose proof (stop_ok_wg_done p Hstop) as Hs.
    eapply stop_ok_ext; [..|exact Hs]; done.
  - by rewrite Hc.
Qed.

Local Ltac inv_split Hstop :=
  split; cbn; try done;
  try (eapply stop_ok_ext; [..|exact Hstop]; done).

Lemma Inv_exec a p p' : Inv p → exec a p = Some p' → Inv p'.
Proof.
  intros Hinv. pose proof Hinv as [Hne Htp Hwg Hcap Hstop Hctr]. unfold exec.
  destruct (crashed p) eqn:Hcr; [done|].
  destruct a; cbn.
  - intros [= <-]. inv_split Hstop.
    + exact (subscribe_nonempty t h now (subIDCounter p) _ Hne).
    + exact (subscribe_topics t h now (subIDCounter p) _ Htp).
    + apply subID_add1_range.
  - intros [= <-].
    destruct (unsubscribe_set_subs sub (stream p)) as [m Hm].
    split; cbn; try done.
    + exact (unsubscribe_nonempty _ _ Hne).
    + exact (unsubscribe_topics _ _ Htp).
    + by rewrite Hm.
    + by rewrite Hm.
    + eapply stop_ok_ext; [..|exact Hstop]; cbn; by rewrite ?Hm.
  - intros [= <-]. unfold emit_check.
    destruct (closed (stream p)); inv_split Hstop.
  - unfold emit_send. destruct (emitting p !! i) as [evt|]; [|done]. cbn.
    intros [= <-]. unfold try_send.
    destruct (eventch_closed (stream p)) eqn:Hcl; [inv_split Hstop|].
    destruct (length (eventch (stream p)) <? eventch_cap)%nat eqn:Hlt;
      [|inv_split Hstop].
    apply Nat.ltb_lt in Hlt. inv_split Hstop.
    rewrite length_app. cbn. lia.
  - unfold start_cancelled. destruct (loop p); try done.
    destruct (ctx_done (stream p)); [|done]. intros [= <-]. inv_split Hstop.
  - unfold start_recv. destruct (loop p); try done.
    destruct (eventch (stream p)) as [|evt q] eqn:Hq.
    + destruct (eventch_closed (stream p)) eqn:Hcl; [|done]. intros [= <-].
      inv_split Hstop. rewrite Hq. cbn. lia.
    + intros [= <-]. inv_split Hstop. cbn in Hcap. lia.
  - unfold start_snapshot. destruct (loop p); try done.
    destruct (snapshot _ _); intros [= <-]; inv_split Hstop.
  - unfold start_spawn. destruct (loop p) as [| |[|sub rest] msg|]; try done.
    intros [= <-]. inv_split Hstop.
    rewrite length_app. cbn. lia.
  - unfold handler_done. destruct (running p !! i) as [inv|] eqn:Hi; [|done]. cbn.
    intros [= <-]. exact (Inv_wg_done p i inv Hinv Hi).
  - unfold handler_done. destruct (running p !! i) as [inv|] eqn:Hi; [|done]. cbn.
    intros [= <-].
    destruct (Inv_wg_done p i inv Hinv Hi) as [? ? ? ? Hs ?].
    split; done.
  - intros [= <-]. unfold stop_call. unfold stop_ok in Hstop.
    destruct (stopOnce (stream p)) eqn:Ho; split; cbn; try done;
      unfold stop_ok; cbn; rewrite ?Ho.
    + destruct Hstop as (-> & -> & Hc). split; [done|]. by exists SStore, 0%nat.
    + destruct Hstop as (? & pc & n & -> & Hb). split; [done|].
      exists pc, (S n). split; [|done].
      by rewrite replicate_S_end.
    + destruct Hstop as (? & ? & HF). repeat split; try done.
      apply Forall_app. split; [done|]. repeat constructor.
  - unfold stop_step. destruct (stopping p !! i) as [pc|] eqn:Hi; [|done]. cbn.
    unfold stop_ok in Hstop.
    destruct (stopOnce (stream p)) eqn:Ho.
    + destruct Hstop as (Hs & _). by rewrite Hs in Hi.
    + destruct Hstop as (Hd & pc0 & n & Hs & Hb).
      rewrite Hs in Hi |- *. destruct i as [|j]; cbn in Hi.
      * injection Hi as <-.
        destruct pc0; cbn in Hb; try done.
        -- intros [= <-]. split; cbn; try done.
           unfold stop_ok; cbn. rewrite Ho. split; [done|].
           by exists SCancel, n.
        -- destruct Hb as [Hc1 Hc2]. intros [= <-]. split; cbn; try done.
           unfold stop_ok; cbn. rewrite Ho. split; [done|].
           by exists SClose, n.
        -- destruct Hb as [Hc1 Hc2]. rewrite Hc1. intros [= <-].
           split; cbn; try done.
           unfold stop_ok; cbn. rewrite Ho. split; [done|].
           by exists SWait, n.
        -- destruct (wg (stream p) =? 0); intros [= <-];
             (split; cbn; try done;
              unfold stop_ok; cbn; rewrite Ho; split; [done|]).
           ++ by exists SClear, n.
           ++ by exists SWaitSema, n.
        -- destruct (_ && _); intros [= <-].
           ++ split; cbn; try done.
              unfold stop_ok; cbn. rewrite Ho. split; [done|].
              by exists SClear, n.
           ++ split; cbn; try done.
              unfold stop_ok; cbn. rewrite Ho, Hs. split; [done|].
              by exists SWaitWoken, n.
        -- intros [= <-]. split; cbn; try done.
           unfold stop_ok; cbn. repeat split; try done.
           constructor; [by left|].
           apply Forall_replicate. by right.
      * apply lookup_replicate in Hi as [-> _]. done.
    + destruct Hstop as (Hd & Hc & HF).
      assert (pc = SReturned ∨ pc = SOnceWait) as [-> | ->]
        by (eapply Forall_lookup_1 in HF; eauto); [done|].
      intros [= <-]. split; cbn; try done.
      unfold stop_ok; cbn. rewrite Ho. repeat split; try done.
      apply Forall_insert; [done | by left].
Qed.

Lemma Inv_run tr p p' : Inv p → run tr p = Some p' → Inv p'.
Proof.
  revert p. induction tr as [|a tr IH]; intros p Hp; cbn.
  - by intros [= <-].
  - destruct (exec a p) as [p1|] eqn:Ha; [|done]. cbn.
    apply IH. by eapply Inv_exec.
Qed.

Lemma reachable_Inv p : reachable p → Inv p.
Proof. intros [tr Htr]. eapply Inv_run; [apply Inv_init | done]. Qed.

Lemma run_app tr1 tr2 p :
  run (tr1 ++ tr2) p = p' ← run tr1 p; run tr2 p'.
Proof.
  revert p. induction tr1 as [|a tr1 IH]; intros p; cbn; [done|].
  destruct (exec a p); cbn; [apply IH | done].
Qed.


Lemma closed_of_eventch_closed p :
  Inv p → eventch_closed (stream p) = true → closed (stream p) = true.
Proof.
  intros [_ _ _ _ Hstop _]. unfold stop_ok in Hstop.
  destruct (stopOnce (stream p)).
  - destruct Hstop as (_ & _ & ->). done.
  - destruct Hstop as (_ & pc & n & _ & Hb).
    intros Hc. destruct pc; cbn in Hb; try done; try (destruct Hb; congruence).
    congruence.
  - by destruct Hstop as (_ & ? & _).
Qed.

(** ** What a step can do to the registry and to the counter *)

Lemma exec_subscribe (t : string) (h : HandlerFunc) (now : Z) p :
  crashed p = false →
  exec (ASubscribe t h now) p
  = Some (set_stream (subscribe t h now (subIDCounter p) (stream p)).2
            (set_subIDCounter (subID_add1 (subIDCounter p)) p)).
Proof. intros Hcr. unfold exec. by rewrite Hcr. Qed.

Lemma exec_unsubscribe sub p :
  crashed p = false →
  exec (AUnsubscribe sub) p = Some (set_stream (unsubscribe sub (stream p)) p).
Proof. intros Hcr. unfold exec. by rewrite Hcr. Qed.


Lemma exec_registry_cases a p p' :
  exec a p = Some p' →
  match a with
  | ASubscribe t h now =>
      stream p' = (subscribe t h now (subIDCounter p) (stream p)).2 ∧
      subIDCounter p' = subID_add1 (subIDCounter p)
  | AUnsubscribe sub =>
      stream p' = unsubscribe sub (stream p) ∧
      subIDCounter p' = subIDCounter p
  | _ =>
      (subs (stream p') = subs (stream p) ∨ subs (stream p') = ∅) ∧
      subIDCounter p' = subIDCounter p
  end.
Proof.
  unfold exec. destruct (crashed p); [done|].
  destruct a; cbn;
    unfold emit_check, emit_send, start_cancelled, start_recv, start_snapshot,
      start_spawn, handler_done, wg_done, stop_call, stop_step, try_send;
    intros H; repeat (simplify_option_eq || case_match); cbn; eauto.
Qed.

(** ** The registry holds a key exactly for the topics with handlers *)

(** C7: after any schedule, the map [e.subs] has a key for a topic exactly
    when the topic's handler list is non-empty; [subscribe] on a topic
    without a key creates it, holding the new subscription alone, and an
    [unsubscribe] that leaves the topic's list empty deletes the key. *)
Theorem registry_key_iff_nonempty tr p (t : string) :
  run tr init_proc = Some p →
  (is_Some (subs (stream p) !! t) ↔ subs_of (stream p) t ≠ []) ∧
  (∀ h now, crashed p = false → subs (stream p) !! t = None →
     ∃ p', exec (ASubscribe t h now) p = Some p' ∧
           subs (stream p') !! t
           = Some [mk_sub (subID_add1 (subIDCounter p)) t now h]) ∧
  (∀ sub, crashed p = false → Topic sub = t →
     delete_by_id (ID sub) (subs_of (stream p) t) = [] →
     ∃ p', exec (AUnsubscribe sub) p = Some p' ∧
           subs (stream p') !! t = None).
Proof.
  intros Hrun.
  assert (Inv p) as Hinv by (eapply reachable_Inv; by exists tr).
  pose proof (inv_nonempty _ Hinv) as Hne. split; [|split].
  - split.
    + intros [l Hl]. rewrite (subs_of_Some _ _ _ Hl). by eapply Hne.
    + unfold subs_of. destruct (subs (stream p) !! t); [eauto|done].
  - intros h now Hcr Hnone. unfold exec. rewrite Hcr. cbn.
    eexists; split; [done|]. cbn.
    by rewrite lookup_insert_eq, (subs_of_None _ _ Hnone).
  - intros sub Hcr <- Hdel. unfold exec. rewrite Hcr.
    eexists; split; [done|]. cbn.
    pose proof (unsubscribe_nonempty sub _ Hne) as Hne'.
    pose proof (unsubscribe_subs_of sub (stream p) (Topic sub)) as Hs.
    rewrite decide_True in Hs by done. rewrite Hdel in Hs.
    destruct (subs (unsubscribe sub (stream p)) !! Topic sub) as [l|] eqn:Hl;
      [|done].
    rewrite (subs_of_Some _ _ _ Hl) in Hs. subst l. by apply Hne' in Hl.
Qed.

(** ** The queue *)

Lemma delete_snoc {A} (l : list A) (x : A) : delete (length l) (l ++ [x]) = l.
Proof. by rewrite delete_middle, app_nil_r. Qed.

Lemma emit_seq_emit t v p :
  Inv p → crashed p = false →
  ∃ e' l, emit t v (stream p) = Some (e', l) ∧
          emit_seq t v p
          = Some (set_stream e' (foldl (λ q x, add_slog x q) p l)).
Proof.
  intros Hinv Hcr. unfold emit, emit_seq, exec, emit_check. rewrite Hcr. cbn.
  destruct (closed (stream p)) eqn:Hcl.
  - eexists _, _. split; [done|]. cbn. by destruct p.
  - cbn. rewrite Hcr. unfold emit_send. cbn.
    rewrite list_lookup_middle by done. cbn. rewrite delete_snoc.
    unfold try_send.
    destruct (eventch_closed (stream p)) eqn:Hch.
    { apply (closed_of_eventch_closed _ Hinv) in Hch. congruence. }
    destruct (_ <? _)%nat.
    + eexists _, _. split; [done|]. cbn. done.
    + eexists _, _. split; [done|]. cbn. by destruct p.
Qed.

(** C4: the channel has 128 slots and never holds more; a call of [emit]
    always runs to its end without waiting and without a panic, handing
    nothing back; any caller standing at the [select] can take its step;
    with 128 events pending the step leaves the stream as it is, so the
    new event is never in the queue, and the only trace is a log line. *)
Theorem emit_never_blocks tr p (t : string) (v : any) :
  run tr init_proc = Some p → crashed p = false →
  eventch_cap = 128%nat ∧
  (length (eventch (stream p)) ≤ 128)%nat ∧
  (∃ p', emit_seq t v p = Some p' ∧ crashed p' = false ∧
         subs (stream p') = subs (stream p) ∧
         (length (eventch (stream p)) = 128%nat →
            stream p' = stream p ∧
            (closed (stream p) = false →
               slog p' = slog p ++
                 [LogWarn "event channel full; dropping event" t]))) ∧
  (∀ i evt, emitting p !! i = Some evt →
     ∃ p', exec (AEmitSend i) p = Some p' ∧
           (length (eventch (stream p)) = 128%nat → stream p' = stream p)).
Proof.
  intros Hrun Hcr.
  assert (Inv p) as Hinv by (eapply reachable_Inv; by exists tr).
  split; [done|]. split; [apply (inv_cap _ Hinv)|]. split.
  - destruct (emit_seq_emit t v p Hinv Hcr) as (e' & l & He & ->).
    eexists; split; [done|]. unfold emit in He.
    destruct (closed (stream p)) eqn:Hcl.
    + injection He as <- <-. cbn. split; [done|]. split; [done|].
      intros _. split; [by destruct (stream p) | done].
    + unfold try_send in He.
      destruct (eventch_closed (stream p)); [done|].
      destruct (_ <? _)%nat eqn:Hlt; injection He as <- <-; cbn.
      * split; [done|]. split; [done|].
        intros Hfull. rewrite Hfull in Hlt. done.
      * split; [done|]. split; [done|].
        intros _. split; [by destruct (stream p) | done].
  - intros i evt Hi. unfold exec, emit_send. rewrite Hcr, Hi. cbn.
    eexists; split; [done|]. intros Hfull. unfold try_send.
    destruct (eventch_closed (stream p)); [done|].
    rewrite Hfull. done.
Qed.

(** ** [Emit] on a nil stream *)

(** C9: with the global [stream] nil, [Emit] returns normally (no panic);
    it appends one warning to the log and leaves [stream] nil and the
    counter as they were. *)
Theorem Emit_nil_stream (t : string) (v : any) (c : Z) (lg : list LogEntry) :
  Emit t v (mk_globals (HandlerFunc:=HandlerFunc) None c lg)
  = Some (mk_globals None c
            (lg ++ [LogWarn "event stream not initialized; dropping event" t])).
Proof. reflexivity. Qed.

(** ** Handler faults *)

(** C1, as the code has it: a panic inside a handler is not caught.  The
    deferred [e.wg.Done()] still runs, so the invocation leaves the join
    count, but nothing is logged and the panic ends the program: no
    goroutine (the dispatch loop, another handler, a producer) takes a
    step afterwards. *)
Theorem handler_fault_ends_program p (i : nat)
    (inv : @Subscription HandlerFunc * any) :
  crashed p = false → running p !! i = Some inv →
  ∃ p', exec (AHandlerPanic i) p = Some p' ∧
        wg (stream p') = wg (stream p) - 1 ∧
        running p' = delete i (running p) ∧
        slog p' = slog p ∧
        crashed p' = true ∧
        ∀ a, exec a p' = None.
Proof.
  intros Hcr Hi. unfold exec, handler_done. rewrite Hcr, Hi. cbn.
  eexists; split; [done|]. cbn. rewrite wg_done_stream.
  destruct (wg_done_rest p) as (_ & Hlog & _). repeat split; try done.
Qed.

(** ** [subscribe] after [stop] *)

(** Once the loop has returned, it stays so and no handler is started. *)
Lemma exec_loop_exited a p p' :
  loop p = LExited → exec a p = Some p' →
  loop p' = LExited ∧ (length (running p') ≤ length (running p))%nat.
Proof.
  intros Hl. unfold exec. destruct (crashed p); [done|].
  destruct a; cbn;
    unfold emit_check, emit_send, start_cancelled, start_recv, start_snapshot,
      start_spawn, handler_done, wg_done, stop_call, stop_step, try_send;
    rewrite ?Hl;
    intros H; repeat (simplify_option_eq || case_match); cbn;
    rewrite ?length_delete by eauto; split; (done || lia).
Qed.

Lemma run_loop_exited tr p p' :
  loop p = LExited → run tr p = Some p' →
  loop p' = LExited ∧ (length (running p') ≤ length (running p))%nat.
Proof.
  revert p. induction tr as [|a tr IH]; intros p Hl; cbn.
  { intros [= <-]. done. }
  destruct (exec a p) as [p1|] eqn:Ha; [|done]. cbn. intros Hrun.
  destruct (exec_loop_exited a p p1 Hl Ha) as [Hl1 Hlen1].
  destruct (IH p1 Hl1 Hrun) as [Hl' Hlen']. split; [done | lia].
Qed.

Lemma subID_add1_neq c : subID_add1 c ≠ c.
Proof.
  unfold subID_add1, uint64_mod. intros H.
  assert (0 ≤ c < 2 ^ 64) as Hc by (rewrite <- H; by apply Z.mod_pos_bound).
  destruct (decide (c + 1 < 2 ^ 64)).
  - rewrite Z.mod_small in H by lia. lia.
  - replace (c + 1) with (2 ^ 64) in H by lia. rewrite Z.mod_same in H by done.
    lia.
Qed.

(** What [stop] leaves behind: the step that replaces the registry ends
    the call, with the map empty and the [stopOnce] done. *)
Lemma stop_clear_step p (i : nat) :
  crashed p = false → stopping p !! i = Some SClear →
  ∃ p', exec (AStopStep i) p = Some p' ∧
        stopping p' !! i = Some SReturned ∧
        subs (stream p') = ∅ ∧
        stopOnce (stream p') = OnceDone.
Proof.
  intros Hcr Hi. unfold exec, stop_step. rewrite Hcr, Hi. cbn.
  eexists; split; [done|]. cbn. split; [|done].
  apply list_lookup_insert_eq. by eapply lookup_lt_Some.
Qed.

(** ** Dispatch *)

Lemma same_but_registry_refl p : same_but_registry p p.
Proof.
  repeat split. exists (subs (stream p)). by destruct (stream p).
Qed.

Lemma same_but_registry_trans p1 p2 p3 :
  same_but_registry p1 p2 → same_but_registry p2 p3 → same_but_registry p1 p3.
Proof.
  intros (Ha&Hb&Hc&Hd&He&m1&Hm1) (Ha'&Hb'&Hc'&Hd'&He'&m2&Hm2).
  repeat split; try congruence. exists m2. rewrite Hm2, Hm1. done.
Qed.

Lemma exec_registry_op a p :
  is_registry_op a = true → crashed p = false →
  ∃ p', exec a p = Some p' ∧ same_but_registry p p'.
Proof.
  intros Ha Hcr. unfold exec. rewrite Hcr. destruct a; try done; cbn.
  - eexists; split; [done|]. repeat split. cbn. eauto.
  - eexists; split; [done|]. repeat split. cbn. apply unsubscribe_set_subs.
Qed.

Lemma run_registry_ops tr p :
  forallb is_registry_op tr = true → crashed p = false →
  ∃ p', run tr p = Some p' ∧ same_but_registry p p'.
Proof.
  revert p. induction tr as [|a tr IH]; intros p Hall Hcr; cbn.
  - eexists; split; [done|]. apply same_but_registry_refl.
  - cbn in Hall. apply andb_true_iff in Hall as [Ha Hall].
    destruct (exec_registry_op a p Ha Hcr) as (p1 & -> & H1). cbn.
    destruct (IH p1 Hall) as (p2 & -> & H2).
    { destruct H1 as (_&_&_&->&_). done. }
    eexists; split; [done|]. by eapply same_but_registry_trans.
Qed.

(** The [for range] over a snapshot starts one invocation per handler,
    each with the event's message. *)
Lemma run_spawn handlers (msg : any) p :
  crashed p = false → loop p = LSpawn handlers msg → handlers ≠ [] →
  run (replicate (length handlers) ALoopSpawn) p
  = Some (set_loop LSelect
            (set_running (running p ++ map (λ s, (s, msg)) handlers)
               (set_stream
                  (set_wg (wg (stream p) + Z.of_nat (length handlers)) (stream p))
                  p))).
Proof.
  revert p. induction handlers as [|s rest IH]; intros p Hcr Hl Hne; [done|].
  cbn [length replicate run]. unfold exec at 1. rewrite Hcr.
  unfold start_spawn. rewrite Hl. destruct rest as [|s' rest'].
  - cbn. do 2 f_equal.
  - cbn [mbind option_bind]. rewrite IH; [|done|done|done].
    cbn. f_equal. unfold set_loop, set_running, set_stream, set_wg. cbn.
    rewrite <- !app_assoc. cbn. f_equal. f_equal. lia.
Qed.





(** ** Snapshots *)

Lemma unsubscribe_absent sub e : topics_ok e → absent sub (unsubscribe sub e).
Proof.
  rewrite topics_ok_subs_of. intros Htp t s. rewrite unsubscribe_subs_of.
  case_decide as Ht.
  - rewrite elem_of_delete_by_id. intros [_ Hid] [? _]. done.
  - intros Hs%Htp [_ ?]. congruence.
Qed.

Lemma absent_set_subs_same sub e e' :
  subs e' = subs e → absent sub e → absent sub e'.
Proof. intros Hs Ha t s. unfold subs_of. rewrite Hs. apply Ha. Qed.

Lemma subscribe_count_cons a tr :
  subscribe_count (a :: tr)
  = (if is_subscribe a then 1 else 0) + subscribe_count tr.
Proof.
  unfold subscribe_count. cbn. destruct (is_subscribe a); cbn [length]; lia.
Qed.

Lemma subscribe_count_nonneg tr : 0 ≤ subscribe_count tr.
Proof. unfold subscribe_count. lia. Qed.

(** A subscription handed out earlier and removed stays out of the
    registry as long as the counter does not wrap. *)
Lemma absent_run sub tr p p' :
  Inv p → absent sub (stream p) → ID sub ≤ subIDCounter p →
  subIDCounter p + subscribe_count tr < uint64_mod →
  run tr p = Some p' → absent sub (stream p').
Proof.
  revert p. induction tr as [|a tr IH]; intros p Hinv Habs Hid Hcnt; cbn.
  { by intros [= <-]. }
  destruct (exec a p) as [p1|] eqn:Ha; [|done]. cbn.
  rewrite subscribe_count_cons in Hcnt.
  pose proof (subscribe_count_nonneg tr) as Hnn.
  pose proof (inv_counter _ Hinv) as Hc.
  assert (Inv p1) as Hinv1 by (by eapply Inv_exec).
  assert (absent sub (stream p1) ∧ ID sub ≤ subIDCounter p1 ∧
          subIDCounter p1 + subscribe_count tr < uint64_mod) as (H1 & H2 & H3);
    [|by apply IH].
  apply exec_registry_cases in Ha.
  destruct a; cbn in Hcnt;
    try (destruct Ha as [[Hs | Hs] ->];
         [ split; [by eapply absent_set_subs_same | lia]
         | split; [|lia]; intros t0 s0; unfold subs_of;
           rewrite Hs, lookup_empty; by intros ?%not_elem_of_nil ]).
  - destruct Ha as [-> ->].
    assert (subID_add1 (subIDCounter p) = subIDCounter p + 1) as Hadd.
    { unfold subID_add1. apply Z.mod_small. lia. }
    split; [|lia]. intros t' s. rewrite subscribe_subs_of. case_decide.
    + subst t'. rewrite elem_of_app, list_elem_of_singleton.
      intros [Hs | ->]; [by apply (Habs t)|]. cbn. lia.
    + apply Habs.
  - destruct Ha as [-> ->]. split; [|lia].
    intros t s. rewrite unsubscribe_subs_of. case_decide.
    + rewrite elem_of_delete_by_id. intros [Hs _]. by apply (Habs t).
    + apply Habs.
Qed.

(** ** Subscription ids *)

Lemma returned_ids_app tr1 tr2 p :
  returned_ids (tr1 ++ tr2) p
  = returned_ids tr1 p ++
    match run tr1 p with Some p' => returned_ids tr2 p' | None => [] end.
Proof.
  revert p. induction tr1 as [|a tr1 IH]; intros p; cbn; [done|].
  destruct (exec a p) as [p1|]; cbn; [|done].
  by rewrite IH, app_assoc.
Qed.

Lemma subscribe_count_app tr1 tr2 :
  subscribe_count (tr1 ++ tr2) = subscribe_count tr1 + subscribe_count tr2.
Proof.
  unfold subscribe_count. rewrite List.filter_app, length_app. lia.
Qed.

(** While the counter does not wrap, it counts the calls of [subscribe],
    and the ids handed out grow strictly and lie between its values. *)
Lemma returned_ids_bounds tr p p' :
  0 ≤ subIDCounter p →
  subIDCounter p + subscribe_count tr < uint64_mod →
  run tr p = Some p' →
  subIDCounter p' = subIDCounter p + subscribe_count tr ∧
  StronglySorted Z.lt (returned_ids tr p) ∧
  Forall (λ id, subIDCounter p < id ≤ subIDCounter p') (returned_ids tr p).
Proof.
  revert p. induction tr as [|a tr IH]; intros p Hc Hcnt; cbn.
  { intros [= <-]. unfold subscribe_count. cbn. split; [lia|].
    split; constructor. }
  destruct (exec a p) as [p1|] eqn:Ha; [|done]. cbn. intros Hrun.
  rewrite subscribe_count_cons in Hcnt |- *.
  pose proof (subscribe_count_nonneg tr) as Hnn.
  apply exec_registry_cases in Ha.
  destruct a; cbn in Hcnt |- *;
    try (destruct Ha as [_ Ha];
         destruct (IH p1) as (? & ? & ?); [lia..|done|];
         split; [lia|]; split; [done|]; by rewrite <- Ha).
  destruct Ha as [_ Ha].
  assert (subID_add1 (subIDCounter p) = subIDCounter p + 1) as Hadd.
  { unfold subID_add1. apply Z.mod_small. lia. }
  rewrite Hadd in Ha |- *.
  destruct (IH p1) as (Hc' & Hsorted & Hall); [lia..|done|].
  rewrite Ha in Hc', Hall. split; [lia|]. split.
  - constructor; [done|]. eapply Forall_impl; [exact Hall|]. cbn. lia.
  - constructor; [lia|]. eapply Forall_impl; [exact Hall|]. cbn. lia.
Qed.

Lemma StronglySorted_lt_NoDup (l : list Z) : StronglySorted Z.lt l → NoDup l.
Proof.
  induction 1 as [|x l Hl IH Hx]; constructor; [|done].
  intros Hin. rewrite Forall_forall in Hx. specialize (Hx _ Hin). lia.
Qed.

(** C8, as the code has it: [subscribe] never fails, and as long as fewer
    than 2^64 - 1 calls of it were made before, the subscription it
    returns has an id strictly greater than every id returned before, in
    whatever topic; so the ids handed out up to then are pairwise
    different. *)
Theorem subscribe_ids_increase tr p (t : string) (h : HandlerFunc) (now : Z) :
  run tr init_proc = Some p → crashed p = false →
  subscribe_count tr + 1 < uint64_mod →
  let sub := mk_sub (subIDCounter p + 1) t now h in
  (∃ p', run (tr ++ [ASubscribe t h now]) init_proc = Some p' ∧
         crashed p' = false ∧
         (subscribe t h now (subIDCounter p) (stream p)).1.1 = sub ∧
         subs_of (stream p') t = subs_of (stream p) t ++ [sub]) ∧
  returned_ids (tr ++ [ASubscribe t h now]) init_proc
  = returned_ids tr init_proc ++ [ID sub] ∧
  Forall (λ id, id < ID sub) (returned_ids tr init_proc) ∧
  NoDup (returned_ids (tr ++ [ASubscribe t h now]) init_proc).
Proof.
  intros Hrun Hcr Hcnt sub.
  destruct (returned_ids_bounds tr init_proc p) as (Hc & Hsorted & Hall);
    [done| cbn; lia |done|]. cbn in Hc.
  assert (subID_add1 (subIDCounter p) = subIDCounter p + 1) as Hadd.
  { unfold subID_add1. apply Z.mod_small.
    pose proof (subscribe_count_nonneg tr). lia. }
  assert (exec (ASubscribe t h now) p
          = Some (set_stream (subscribe t h now (subIDCounter p) (stream p)).2
                    (set_subIDCounter (subID_add1 (subIDCounter p)) p))) as Hex.
  { unfold exec. by rewrite Hcr. }
  split; [|split; [|split]].
  - rewrite run_app, Hrun. cbn [mbind option_bind run]. rewrite Hex.
    eexists; split; [done|]. split; [done|]. split.
    + unfold subscribe. cbn. by rewrite Hadd.
    + cbn [stream set_stream]. rewrite subscribe_subs_of, decide_True by done.
      by rewrite Hadd.
  - rewrite returned_ids_app, Hrun. cbn [returned_ids]. rewrite Hex.
    cbn. by rewrite Hadd.
  - eapply Forall_impl; [exact Hall|]. cbn. lia.
  - apply StronglySorted_lt_NoDup.
    destruct (returned_ids_bounds (tr ++ [ASubscribe t h now]) init_proc
                (set_stream (subscribe t h now (subIDCounter p) (stream p)).2
                   (set_subIDCounter (subID_add1 (subIDCounter p)) p)))
      as (_ & Hs & _); [done| |..|done].
    + rewrite subscribe_count_app. unfold subscribe_count at 2. cbn. lia.
    + rewrite run_app, Hrun. cbn [mbind option_bind run]. by rewrite Hex.
Qed.

Lemma forallb_replicate {A} (f : A → bool) (n : nat) (x : A) :
  f x = true → forallb f (replicate n x) = true.
Proof. intros Hx. induction n as [|n IH]; cbn; [done|]. by rewrite Hx, IH. Qed.

End Properties.

(** * The claims on concrete schedules *)

(** C1: the claim fails.  With one handler running, its panic is not
    isolated: the program is terminated. *)
Lemma handler_fault_not_isolated :
  ∃ p : @Proc nat string, run dispatch_schedule init_proc = Some p ∧
       running p = [(mk_sub 1 "t" 100 1%nat, "x")] ∧
       ¬ fault_isolated p 0.
Proof.
  eexists. split; [vm_compute; reflexivity|]. split; [reflexivity|].
  intros (p' & Hex & Hcr & _). vm_compute in Hex. injection Hex as <-.
  discriminate Hcr.
Qed.

(** C1: the same handler, on the state [dispatch_schedule] leaves. *)
Lemma handler_fault_ends_program_witness :
  ∃ p : @Proc nat string, run dispatch_schedule init_proc = Some p ∧
       crashed p = false ∧
       running p !! 0%nat = Some (mk_sub 1 "t" 100 1%nat, "x") ∧
       ∃ p', exec (AHandlerPanic 0) p = Some p' ∧
             wg (stream p') = wg (stream p) - 1 ∧
             running p' = delete 0%nat (running p) ∧
             slog p' = slog p ∧
             crashed p' = true ∧
             ∀ a, exec a p' = None.
Proof.
  eexists. split; [vm_compute; reflexivity|].
  split; [reflexivity|]. split; [reflexivity|].
  apply (handler_fault_ends_program _ 0%nat (mk_sub 1 "t" 100 1%nat, "x"));
    reflexivity.
Defined.

(** C2: [stop] returns while the loop is still in its [for range]; the
    handler is started afterwards, on a stream whose [stop] has returned. *)
Theorem stop_returns_before_handler_starts :
  ∃ p0 p,
    run (snapshot_schedule ++ stop_schedule) init_proc = Some p0 ∧
    stopping p0 = [SReturned] ∧
    loop p0 = LSpawn [mk_sub 1 "t" 100 1%nat] "x" ∧
    run racy_stop_schedule init_proc = Some p ∧
    crashed p = false ∧
    stopping p = [SReturned] ∧
    running p = [(mk_sub 1 "t" 100 1%nat, "x")] ∧
    wg (stream p) = 1 ∧
    loop p = LSelect ∧
    ¬ drained p.
Proof.
  eexists _, _. split; [vm_compute; reflexivity|].
  split; [reflexivity|]. split; [reflexivity|].
  split; [vm_compute; reflexivity|].
  repeat (split; [reflexivity|]).
  intros [Hl _]. discriminate Hl.
Qed.


(** C4: on the state reached by [dispatch_schedule]. *)
Lemma emit_never_blocks_witness :
  ∃ p : @Proc nat string, run dispatch_schedule init_proc = Some p ∧
       crashed p = false ∧
       eventch_cap = 128%nat ∧
       (length (eventch (stream p)) ≤ 128)%nat ∧
       ∃ p', emit_seq "t" "y" p = Some p' ∧ crashed p' = false.
Proof.
  eexists. split; [vm_compute; reflexivity|]. split; [reflexivity|].
  destruct (emit_never_blocks dispatch_schedule _ "t" "y"
              ltac:(vm_compute; reflexivity) ltac:(reflexivity))
    as (Hcap & Hlen & (p' & Hp' & Hcr' & _) & _).
  split; [exact Hcap|]. split; [exact Hlen|]. exists p'. by split.
Defined.

(** C6: a call of [stop] can panic.  On [waiting_stop_schedule] the
    function of [stopOnce] was entered once, by the first caller, which
    has marked the stream closed, cancelled the context, closed the channel
    and sleeps in [e.wg.Wait()] with one handler running; the second caller
    did not enter the function.  The handler returns and releases the
    sleeper; the loop, still in its [for range], adds the second handler to
    the WaitGroup; the released caller finds the state word not zero and
    panics in [Wait].  No call of [stop] has returned, the registry was not
    cleared, and the program is terminated. *)
Theorem stop_panics_in_wait :
  ∃ p0 p1 p : @Proc nat string,
    run waiting_stop_schedule init_proc = Some p0 ∧
    crashed p0 = false ∧ drains p0 = 1%nat ∧
    stopping p0 = [SWaitSema; SOnceWait] ∧
    closed (stream p0) = true ∧ ctx_done (stream p0) = true ∧
    eventch_closed (stream p0) = true ∧
    running p0 = [(mk_sub 1 "t" 100 1%nat, "x")] ∧
    loop p0 = LSpawn [mk_sub 2 "t" 200 2%nat] "x" ∧
    run wait_reuse_schedule init_proc = Some p1 ∧
    crashed p1 = false ∧
    stopping p1 = [SWaitWoken; SOnceWait] ∧
    running p1 = [(mk_sub 2 "t" 200 2%nat, "x")] ∧
    wg (stream p1) = 1 ∧
    exec (AStopStep 0) p1 = Some p ∧
    crashed p = true ∧ drains p = 1%nat ∧
    (SReturned ∉ stopping p) ∧
    subs (stream p) = subs (stream p1) ∧ subs (stream p) ≠ ∅ ∧
    ∀ a, exec a p = None.
Proof.
  eexists _, _, _. split; [vm_compute; reflexivity|].
  do 8 (split; [reflexivity|]).
  split; [vm_compute; reflexivity|].
  do 4 (split; [reflexivity|]).
  split; [vm_compute; reflexivity|].
  split; [reflexivity|]. split; [reflexivity|].
  split.
  { cbn. intros Hin.
    apply elem_of_cons in Hin as [Hin|Hin]; [done|].
    apply elem_of_cons in Hin as [Hin|Hin]; [done|].
    by apply elem_of_nil in Hin. }
  split; [reflexivity|]. split; [|done].
  cbn. intros Hempty.
  apply (f_equal (λ m : gmap string (list (@Subscription nat)), m !! "t"))
    in Hempty.
  vm_compute in Hempty. discriminate Hempty.
Qed.

(** C7: after a subscribe and the matching unsubscribe the key is gone. *)
Lemma registry_key_iff_nonempty_witness :
  ∃ p : @Proc nat string, run [ASubscribe "t" 1%nat 100; AUnsubscribe (mk_sub 1 "t" 100 1%nat)]
           init_proc = Some p ∧
       subs (stream p) !! "t" = None ∧
       (is_Some (subs (stream p) !! "t") ↔ subs_of (stream p) "t" ≠ []).
Proof.
  eexists. split; [vm_compute; reflexivity|]. split; [reflexivity|].
  apply (registry_key_iff_nonempty
           [ASubscribe "t" 1%nat 100; AUnsubscribe (mk_sub 1 "t" 100 1%nat)]).
  vm_compute; reflexivity.
Defined.

(** C8: the fourth call of [subscribe] from the start. *)
Lemma subscribe_ids_increase_witness :
  ∃ p : @Proc nat string,
    run (dispatch_schedule ++ [ASubscribe "u" 2%nat 0; ASubscribe "t" 3%nat 0])
        init_proc = Some p ∧
    crashed p = false ∧
    subscribe_count
      (dispatch_schedule ++ [ASubscribe "u" 2%nat 0; ASubscribe "t" 3%nat 0])
    + 1 < uint64_mod ∧
    Forall (λ id, id < subIDCounter p + 1)
      (returned_ids
         (dispatch_schedule ++ [ASubscribe "u" 2%nat 0; ASubscribe "t" 3%nat 0])
         init_proc).
Proof.
  eexists. split; [vm_compute; reflexivity|]. split; [reflexivity|].
  split; [reflexivity|].
  destruct (subscribe_ids_increase
              (dispatch_schedule ++
                 [ASubscribe "u" 2%nat 0; ASubscribe "t" 3%nat 0])
              _ "v" 4%nat 0
              ltac:(vm_compute; reflexivity) ltac:(reflexivity)
              ltac:(reflexivity))
    as (_ & _ & Hall & _).
  exact Hall.
Defined.

(** The counter through [n] rounds of churn: [n] more calls, modulo 2^64. *)
Lemma churn_run (n : nat) : ∀ (c : Z) (p : @Proc nat string),
  crashed p = false → subIDCounter p = c → 0 ≤ c < uint64_mod →
  ∃ p', run (churn n c) p = Some p' ∧ crashed p' = false ∧
        subIDCounter p' = (c + Z.of_nat n) mod uint64_mod.
Proof.
  induction n as [|n IH]; intros c p Hcr Hc Hrange.
  - exists p. cbn [churn run]. split; [done|]. split; [done|].
    rewrite Z.add_0_r, Z.mod_small; done.
  - cbn [churn run]. rewrite exec_subscribe by done.
    cbn [mbind option_bind]. rewrite exec_unsubscribe by done.
    cbn [mbind option_bind].
    edestruct (IH (subID_add1 c)) as (p' & -> & Hcr' & Hc');
      [| |apply subID_add1_range|].
    + cbn. exact Hcr.
    + cbn. by rewrite Hc.
    + exists p'. split; [done|]. split; [done|]. rewrite Hc'.
      unfold subID_add1. rewrite Zplus_mod_idemp_l. f_equal. lia.
Qed.

(** C8: the claim fails when the counter wraps.  In [wrap_schedule] the
    first call of [subscribe] returns id 1 and the last one, the 2^64-th,
    returns id 0: the ids handed out are not increasing. *)
Lemma subscribe_id_wraps :
  (∃ mid, returned_ids wrap_schedule init_proc = 1 :: mid ++ [0]) ∧
  ¬ StronglySorted Z.lt (returned_ids wrap_schedule init_proc).
Proof.
  assert (∃ mid, returned_ids wrap_schedule init_proc = 1 :: mid ++ [0])
    as [mid Hmid].
  { unfold wrap_schedule.
    assert (∃ n, Z.of_nat n = uint64_mod - 2 ∧ Z.to_nat (uint64_mod - 2) = n)
      as (n & Hn & ->).
    { exists (Z.to_nat (uint64_mod - 2)). split; [|done].
      apply Z2Nat.id. unfold uint64_mod. lia. }
    cbn [returned_ids]. rewrite exec_subscribe by done.
    set (p1 := set_stream _ _).
    change ([ID (subscribe "t" 1%nat 0 (subIDCounter init_proc)
                   (stream (@init_proc nat string))).1.1] ++ ?l) with (1 :: l).
    destruct (churn_run n 1 p1) as (p2 & Hrun & Hcr2 & Hc2);
      [done|done|unfold uint64_mod; lia|].
    rewrite returned_ids_app, Hrun.
    exists (returned_ids (churn n 1) p1). do 2 f_equal.
    cbn [returned_ids]. rewrite exec_subscribe by done. cbn. f_equal.
    rewrite Hc2. unfold subID_add1. rewrite Zplus_mod_idemp_l.
    replace (1 + Z.of_nat n + 1) with uint64_mod by lia.
    apply Z.mod_same. unfold uint64_mod. lia. }
  split; [by exists mid|]. rewrite Hmid. intros Hs.
  apply StronglySorted_inv in Hs as [_ Hall].
  rewrite Forall_app in Hall. destruct Hall as [_ Hlast].
  apply Forall_inv in Hlast. lia.
Qed.

(** * More about the event stream *)

Section StreamProperties.

Context {HandlerFunc any : Type}.

Implicit Types (e : @eventStream HandlerFunc any) (p : @Proc HandlerFunc any).
Implicit Types (sub s : @Subscription HandlerFunc) (evt : @event any).
Implicit Types (tr : list (@Action HandlerFunc any)).
Implicit Types (q : list (@event any)).

Local Abbreviation init_proc := (@init_proc HandlerFunc any).

(** ** Ids in the registry *)

Lemma delete_by_id_sublist id (l : list (@Subscription HandlerFunc)) :
  sublist (delete_by_id id l) l.
Proof.
  induction l as [|s l IH]; cbn; [done|].
  destruct (negb (ID s =? id)); by constructor.
Qed.

Lemma delete_by_id_none id (l : list (@Subscription HandlerFunc)) :
  (∀ s, s ∈ l → ID s ≠ id) → delete_by_id id l = l.
Proof.
  induction l as [|s l IH]; intros Hall; cbn; [done|].
  assert (ID s ≠ id) as Hs by (apply Hall; by left).
  apply Z.eqb_neq in Hs. rewrite Hs. cbn. f_equal.
  apply IH. intros s' Hs'. apply Hall. by right.
Qed.

Lemma delete_by_id_middle (l1 l2 : list (@Subscription HandlerFunc)) sub :
  NoDup (map ID (l1 ++ sub :: l2)) →
  delete_by_id (ID sub) (l1 ++ sub :: l2) = l1 ++ l2.
Proof.
  intros Hnd. unfold delete_by_id. rewrite List.filter_app. cbn.
  rewrite Z.eqb_refl. cbn.
  rewrite map_app in Hnd. cbn in Hnd.
  apply NoDup_app in Hnd as (_ & Hdisj & Hnd2).
  apply NoDup_cons in Hnd2 as [Hnotin _].
  fold (delete_by_id (ID sub) l1). fold (delete_by_id (ID sub) l2).
  rewrite !delete_by_id_none; [done| |].
  - intros s Hs Heq. apply Hnotin. rewrite <- Heq.
    by apply list_elem_of_fmap_2.
  - intros s Hs Heq. apply (Hdisj (ID s)); [by apply list_elem_of_fmap_2|].
    rewrite Heq. by left.
Qed.

Lemma ids_ok_mono c c' e : c ≤ c' → ids_ok c e → ids_ok c' e.
Proof.
  intros Hle (Hb & Hnd & Hx). split; [|done]. intros t s Hs.
  specialize (Hb t s Hs). lia.
Qed.

Lemma ids_ok_set_subs_same c e e' : subs e' = subs e → ids_ok c e → ids_ok c e'.
Proof. intros Hs. unfold ids_ok, subs_of. by rewrite Hs. Qed.

Lemma ids_ok_empty c e : subs e = ∅ → ids_ok c e.
Proof.
  intros Hs. unfold ids_ok, subs_of. rewrite Hs. split; [|split].
  - intros t s. rewrite lookup_empty. cbn. by intros ?%not_elem_of_nil.
  - intros t. rewrite lookup_empty. cbn. constructor.
  - intros t1 t2 s1 s2. rewrite lookup_empty. cbn. by intros ?%not_elem_of_nil.
Qed.

Lemma ids_ok_subscribe t h now c e :
  0 ≤ c → c + 1 < uint64_mod → ids_ok c e →
  ids_ok (c + 1) (subscribe t h now c e).2.
Proof.
  intros Hc Hlt (Hb & Hnd & Hx).
  assert (subID_add1 c = c + 1) as Hadd.
  { unfold subID_add1. apply Z.mod_small. lia. }
  split; [|split].
  - intros t' s. rewrite subscribe_subs_of. case_decide.
    + subst t'. rewrite elem_of_app, list_elem_of_singleton.
      intros [Hs | ->]; [specialize (Hb t s Hs); lia|]. cbn. lia.
    + intros Hs. specialize (Hb t' s Hs). lia.
  - intros t'. rewrite subscribe_subs_of. case_decide; [|done].
    rewrite map_app. cbn. apply NoDup_app. split; [done|]. split.
    + intros id Hid. rewrite list_elem_of_singleton. intros ->.
      apply list_elem_of_fmap in Hid as (s & Heq & Hs).
      specialize (Hb t s Hs). lia.
    + apply NoDup_singleton.
  - intros t1 t2 s1 s2. rewrite !subscribe_subs_of.
    destruct (decide (t = t1)) as [E1|E1], (decide (t = t2)) as [E2|E2];
      rewrite ?elem_of_app, ?list_elem_of_singleton.
    + congruence.
    + intros [H1 | ->] H2 Heq; [rewrite <- E1; by apply (Hx t t2 s1 s2)|].
      cbn in Heq. specialize (Hb t2 s2 H2). lia.
    + intros H1 [H2 | ->] Heq; [rewrite <- E2; by apply (Hx t1 t s1 s2)|].
      cbn in Heq. specialize (Hb t1 s1 H1). lia.
    + apply Hx.
Qed.

Lemma ids_ok_unsubscribe sub c e : ids_ok c e → ids_ok c (unsubscribe sub e).
Proof.
  intros (Hb & Hnd & Hx). split; [|split].
  - intros t s. rewrite unsubscribe_subs_of. case_decide; [|apply Hb].
    rewrite elem_of_delete_by_id. intros [Hs _]. by apply (Hb t).
  - intros t. rewrite unsubscribe_subs_of. case_decide; [|done].
    apply (sublist_NoDup _ (map ID (subs_of e t))); [apply Hnd|].
    apply (fmap_sublist ID), delete_by_id_sublist.
  - intros t1 t2 s1 s2. rewrite !unsubscribe_subs_of.
    repeat case_decide; rewrite ?elem_of_delete_by_id;
      intros H1 H2; apply (Hx t1 t2 s1 s2); tauto.
Qed.

(** While the counter has not wrapped, the registry's ids are in order. *)
Lemma ids_ok_run tr p p' :
  0 ≤ subIDCounter p →
  subIDCounter p + subscribe_count tr < uint64_mod →
  ids_ok (subIDCounter p) (stream p) →
  run tr p = Some p' →
  ids_ok (subIDCounter p') (stream p').
Proof.
  revert p. induction tr as [|a tr IH]; intros p Hc Hcnt Hok; cbn.
  { by intros [= <-]. }
  destruct (exec a p) as [p1|] eqn:Ha; [|done]. cbn.
  rewrite subscribe_count_cons in Hcnt.
  pose proof (subscribe_count_nonneg tr) as Hnn.
  apply exec_registry_cases in Ha.
  destruct a; cbn in Hcnt;
    try (destruct Ha as [[Hs | Hs] Hc1]; apply IH; rewrite ?Hc1; try lia;
         [by eapply ids_ok_set_subs_same | by apply ids_ok_empty]).
  - destruct Ha as [Hs Hc1].
    assert (subID_add1 (subIDCounter p) = subIDCounter p + 1) as Hadd.
    { unfold subID_add1. apply Z.mod_small. lia. }
    apply IH; rewrite Hc1, Hadd; [lia | lia |].
    rewrite Hs. apply ids_ok_subscribe; [done | lia | done].
  - destruct Ha as [Hs Hc1]. apply IH; rewrite Hc1; [lia | lia |].
    rewrite Hs. by apply ids_ok_unsubscribe.
Qed.

Lemma ids_ok_reachable tr p :
  run tr init_proc = Some p → subscribe_count tr < uint64_mod →
  ids_ok (subIDCounter p) (stream p).
Proof.
  intros Hrun Hcnt. eapply (ids_ok_run tr init_proc); [done| cbn; lia | |done].
  by apply ids_ok_empty.
Qed.

(** X1: as long as the counter has not wrapped, every registered
    subscription has a positive id not above the counter, is filed under
    its own topic, and no id is registered twice: not inside a topic's
    list and not under two topics. *)
Theorem registered_ids_unique tr p :
  run tr init_proc = Some p → subscribe_count tr < uint64_mod →
  (∀ t s, s ∈ subs_of (stream p) t →
          0 < ID s ≤ subIDCounter p ∧ Topic s = t) ∧
  (∀ t, NoDup (map ID (subs_of (stream p) t))) ∧
  (∀ t1 t2 s1 s2, s1 ∈ subs_of (stream p) t1 → s2 ∈ subs_of (stream p) t2 →
                  ID s1 = ID s2 → t1 = t2).
Proof.
  intros Hrun Hcnt.
  destruct (ids_ok_reachable tr p Hrun Hcnt) as (Hb & Hnd & Hx).
  split; [|done]. intros t s Hs. split; [by apply (Hb t)|].
  revert t s Hs. apply topics_ok_subs_of, inv_topics, reachable_Inv.
  by exists tr.
Qed.

(** ** [unsubscribe] *)

Lemma set_subs_same e : set_subs (subs e) e = e.
Proof. by destruct e. Qed.

(** An [unsubscribe] that finds nothing to remove changes nothing. *)
Lemma unsubscribe_nothing sub e :
  nonempty_ok e →
  (∀ s, s ∈ subs_of e (Topic sub) → ID s ≠ ID sub) →
  unsubscribe sub e = e.
Proof.
  intros Hne Hall. unfold unsubscribe.
  destruct (subs e !! Topic sub) as [l|] eqn:Hl; [|done].
  rewrite (subs_of_Some _ _ _ Hl) in Hall.
  cbv zeta. rewrite delete_by_id_none by done.
  destruct (length l =? 0)%nat eqn:Hlen.
  - apply Nat.eqb_eq, nil_length_inv in Hlen. subst l. by apply Hne in Hl.
  - rewrite insert_id by done. apply set_subs_same.
Qed.

(** X2: [unsubscribe] removes the given subscription and nothing else.
    While the counter has not wrapped, unsubscribing a registered
    subscription takes exactly that entry out of its topic's list, the
    others staying in their order, and leaves every other topic's list as
    it is. *)
Theorem unsubscribe_removes_only_sub tr p sub
    (l1 l2 : list (@Subscription HandlerFunc)) :
  run tr init_proc = Some p → subscribe_count tr < uint64_mod →
  subs_of (stream p) (Topic sub) = l1 ++ sub :: l2 →
  subs_of (unsubscribe sub (stream p)) (Topic sub) = l1 ++ l2 ∧
  ∀ t, t ≠ Topic sub →
       subs_of (unsubscribe sub (stream p)) t = subs_of (stream p) t.
Proof.
  intros Hrun Hcnt Hl.
  destruct (ids_ok_reachable tr p Hrun Hcnt) as (_ & Hnd & _).
  split.
  - rewrite unsubscribe_subs_of, decide_True by done. rewrite Hl.
    apply delete_by_id_middle. rewrite <- Hl. apply Hnd.
  - intros t Ht. by rewrite unsubscribe_subs_of, decide_False.
Qed.

(** X3: [unsubscribe] is not an error for what is not there.  In a
    reachable state, when no subscription with the id is in the list of
    the subscription's topic (the topic is unknown, or the subscription
    was removed before), the stream is left exactly as it was; so a
    second [unsubscribe] of the same subscription does nothing. *)
Theorem unsubscribe_absent_is_noop tr p sub :
  run tr init_proc = Some p →
  ((∀ s, s ∈ subs_of (stream p) (Topic sub) → ID s ≠ ID sub) →
   unsubscribe sub (stream p) = stream p) ∧
  unsubscribe sub (unsubscribe sub (stream p)) = unsubscribe sub (stream p).
Proof.
  intros Hrun.
  assert (Inv p) as Hinv by (eapply reachable_Inv; by exists tr).
  pose proof (inv_nonempty _ Hinv) as Hne. split.
  - by apply unsubscribe_nothing.
  - apply unsubscribe_nothing; [by apply unsubscribe_nonempty|].
    intros s. rewrite unsubscribe_subs_of, decide_True by done.
    rewrite elem_of_delete_by_id. by intros [_ ?].
Qed.

(** X4: subscribe and unsubscribe undo each other.  While the counter has
    not wrapped, a [subscribe] followed by the [unsubscribe] of the
    subscription it returned gives back the stream as it was, the key of a
    topic that had no handler included; only the counter has moved on. *)
Theorem subscribe_unsubscribe_roundtrip tr p (t : string) (h : HandlerFunc)
    (now : Z) :
  run tr init_proc = Some p → crashed p = false →
  subscribe_count tr + 1 < uint64_mod →
  let sub := (subscribe t h now (subIDCounter p) (stream p)).1.1 in
  ∃ p', run [ASubscribe t h now; AUnsubscribe sub] p = Some p' ∧
        stream p' = stream p ∧
        subIDCounter p' = subIDCounter p + 1 ∧
        crashed p' = false.
Proof.
  intros Hrun Hcr Hcnt sub.
  assert (Inv p) as Hinv by (eapply reachable_Inv; by exists tr).
  pose proof (inv_nonempty _ Hinv) as Hne.
  destruct (ids_ok_reachable tr p Hrun) as (Hb & _ & _); [lia|].
  destruct (returned_ids_bounds tr init_proc p) as (Hc & _ & _);
    [done | cbn; lia | done |]. cbn in Hc.
  pose proof (subscribe_count_nonneg tr) as Hnn.
  assert (subID_add1 (subIDCounter p) = subIDCounter p + 1) as Hadd.
  { unfold subID_add1. apply Z.mod_small. lia. }
  cbn [run]. rewrite exec_subscribe by done. cbn [mbind option_bind].
  rewrite exec_unsubscribe by done. cbn [mbind option_bind].
  eexists; split; [done|]. cbn. split; [|split; [done|done]].
  unfold unsubscribe. cbn. rewrite lookup_insert_eq. cbv zeta.
  assert (delete_by_id (ID sub) (subs_of (stream p) t ++ [sub])
          = subs_of (stream p) t) as Hdel.
  { unfold delete_by_id. rewrite List.filter_app. cbn.
    rewrite Z.eqb_refl. cbn. rewrite app_nil_r.
    apply delete_by_id_none. intros s Hs. specialize (Hb t s Hs).
    cbn. lia. }
  change (mk_sub (subID_add1 (subIDCounter p)) t now h) with sub.
  change (subID_add1 (subIDCounter p)) with (ID sub).
  rewrite Hdel.
  destruct (subs (stream p) !! t) as [l|] eqn:Hl.
  - rewrite (subs_of_Some _ _ _ Hl).
    assert (l ≠ []) as Hnil by (by eapply Hne).
    destruct l as [|s l]; [done|]. cbn [length Nat.eqb].
    rewrite insert_insert_eq, insert_id by done. by destruct (stream p).
  - rewrite (subs_of_None _ _ Hl). cbn [length Nat.eqb].
    rewrite delete_insert_eq, delete_insert_eq, delete_id by done.
    by destruct (stream p).
Qed.

(** ** Dispatch of the queue *)



(** ** The join count *)


(** ** Shutdown *)

Local Ltac shutdown_mono k :=
  cbn; split; [done|]; split; [done|];
  split; [intros ?; split; [done | exists k; cbn; first [reflexivity | congruence]] | done].

Lemma exec_shutdown_mono a p p' :
  exec a p = Some p' →
  (closed (stream p) = true → closed (stream p') = true) ∧
  (ctx_done (stream p) = true → ctx_done (stream p') = true) ∧
  (eventch_closed (stream p) = true →
     eventch_closed (stream p') = true ∧
     ∃ k, eventch (stream p') = drop k (eventch (stream p))) ∧
  (stopOnce (stream p) = OnceDone → stopOnce (stream p') = OnceDone).
Proof.
  unfold exec. destruct (crashed p); [done|].
  destruct a; cbn.
  - intros [= <-]. shutdown_mono 0%nat.
  - intros [= <-].
    destruct (unsubscribe_set_subs sub (stream p)) as [m Hm].
    cbn. rewrite Hm. shutdown_mono 0%nat.
  - intros [= <-]. unfold emit_check.
    destruct (closed (stream p)) eqn:Hcl; shutdown_mono 0%nat.
  - unfold emit_send. destruct (emitting p !! i); [|done]. cbn.
    intros [= <-]. unfold try_send.
    destruct (eventch_closed (stream p)) eqn:Hc; [shutdown_mono 0%nat|].
    destruct (_ <? _)%nat; cbn; (split; [done|]; split; [done|]; split; done).
  - unfold start_cancelled. destruct (loop p); try done.
    destruct (ctx_done (stream p)) eqn:Hcd; [|done]. intros [= <-].
    shutdown_mono 0%nat.
  - unfold start_recv. destruct (loop p); try done.
    destruct (eventch (stream p)) as [|evt q] eqn:Hq.
    + destruct (eventch_closed (stream p)) eqn:Hec; [|done]. intros [= <-].
      shutdown_mono 0%nat.
    + intros [= <-]. shutdown_mono 1%nat.
  - unfold start_snapshot. destruct (loop p); try done.
    destruct (snapshot _ _); intros [= <-]; shutdown_mono 0%nat.
  - unfold start_spawn. destruct (loop p) as [| |[|? ?] ?|]; try done.
    intros [= <-]. shutdown_mono 0%nat.
  - unfold handler_done. destruct (running p !! i); [|done]. cbn.
    intros [= <-]. cbn. rewrite wg_done_stream. shutdown_mono 0%nat.
  - unfold handler_done. destruct (running p !! i); [|done]. cbn.
    intros [= <-]. cbn. rewrite wg_done_stream. shutdown_mono 0%nat.
  - intros [= <-]. unfold stop_call.
    destruct (stopOnce (stream p)) eqn:Ho; shutdown_mono 0%nat.
  - unfold stop_step. destruct (stopping p !! i) as [pc|]; [|done]. cbn.
    destruct pc; try done.
    + destruct (stopOnce (stream p)) eqn:Ho; try done. intros [= <-].
      shutdown_mono 0%nat.
    + intros [= <-]. shutdown_mono 0%nat.
    + intros [= <-]. shutdown_mono 0%nat.
    + destruct (eventch_closed (stream p)) eqn:Hec; intros [= <-];
        shutdown_mono 0%nat.
    + destruct (wg (stream p) =? 0); intros [= <-]; shutdown_mono 0%nat.
    + destruct (_ && _); intros [= <-]; shutdown_mono 0%nat.
    + intros [= <-]. shutdown_mono 0%nat.
Qed.

(** X7: the shutdown is never undone and a closed channel takes no new
    event.  Along any schedule the mark [closed], the cancellation and a
    finished [stopOnce] stay as they are once set; and once the channel is
    closed it stays closed and its content only loses events from the
    front: no [emit] enqueues any more. *)
Theorem shutdown_is_final tr p p' :
  run tr p = Some p' →
  (closed (stream p) = true → closed (stream p') = true) ∧
  (ctx_done (stream p) = true → ctx_done (stream p') = true) ∧
  (stopOnce (stream p) = OnceDone → stopOnce (stream p') = OnceDone) ∧
  (eventch_closed (stream p) = true →
     eventch_closed (stream p') = true ∧
     ∃ k, eventch (stream p') = drop k (eventch (stream p))).
Proof.
  revert p. induction tr as [|a tr IH]; intros p; cbn.
  { intros [= <-]. split; [done|]. split; [done|]. split; [done|].
    intros ?. split; [done|]. exists 0%nat. reflexivity. }
  destruct (exec a p) as [p1|] eqn:Ha; [|done]. cbn. intros Hrun.
  destruct (exec_shutdown_mono a p p1 Ha) as (H1 & H2 & H3 & H4).
  destruct (IH p1 Hrun) as (I1 & I2 & I3 & I4).
  split; [auto|]. split; [auto|]. split; [auto|].
  intros Hc. destruct (H3 Hc) as (Hc1 & k1 & Hk1).
  destruct (I4 Hc1) as (Hc' & k2 & Hk2). split; [done|].
  exists (k1 + k2)%nat. by rewrite Hk2, Hk1, drop_drop.
Qed.

(** The steps other than those of [stop] leave the shutdown alone; the
    end of a handler may release the caller that waits in [Wait]. *)
Lemma exec_shutdown_frame a p p' :
  exec a p = Some p' →
  match a with
  | AStopCall | AStopStep _ => True
  | _ =>
      stopOnce (stream p') = stopOnce (stream p) ∧
      (stopping p' = stopping p ∨ stopping p' = map wake (stopping p)) ∧
      closed (stream p') = closed (stream p) ∧
      ctx_done (stream p') = ctx_done (stream p) ∧
      eventch_closed (stream p') = eventch_closed (stream p)
  end.
Proof.
  unfold exec. destruct (crashed p); [done|].
  destruct a; cbn; try done;
    try (intros [= <-]; destruct (unsubscribe_set_subs sub (stream p)) as [m Hm];
         cbn; rewrite Hm; split; [done|]; split; [by left | done]);
    try (unfold handler_done; destruct (running p !! i); [|done]; cbn;
         intros [= <-]; cbn; rewrite wg_done_stream;
         pose proof (wg_done_stopping p); done);
    unfold emit_check, emit_send, start_cancelled, start_recv, start_snapshot,
      start_spawn, try_send;
    intros H; repeat (simplify_option_eq || case_match); cbn;
    (split; [done|]; split; [by left | done]).
Qed.

Lemma shutdown_pc_ok_wake pc e : shutdown_pc_ok pc e → shutdown_pc_ok (wake pc) e.
Proof. by destruct pc. Qed.

Lemma shutdown_ok_ext p p' :
  stopOnce (stream p') = stopOnce (stream p) →
  stopping p' = stopping p ∨ stopping p' = map wake (stopping p) →
  closed (stream p') = closed (stream p) →
  ctx_done (stream p') = ctx_done (stream p) →
  eventch_closed (stream p') = eventch_closed (stream p) →
  shutdown_ok p → shutdown_ok p'.
Proof.
  unfold shutdown_ok. intros -> Hs Hc Hd He.
  destruct (stopOnce (stream p)); rewrite ?Hc, ?Hd, ?He; [done| |done].
  assert (∀ pc, shutdown_pc_ok pc (stream p) → shutdown_pc_ok pc (stream p'))
    as Hsame.
  { intros pc. destruct pc; cbn; rewrite ?Hc, ?Hd, ?He; done. }
  intros Hok pc l Hl. destruct Hs as [Hs | Hs]; rewrite Hs in Hl.
  - apply Hsame. by apply (Hok pc l).
  - destruct (stopping p) as [|pc0 l0]; [done|]. cbn in Hl.
    injection Hl as <- <-. apply Hsame, shutdown_pc_ok_wake.
    by apply (Hok pc0 l0).
Qed.

Lemma shutdown_ok_exec a p p' :
  Inv p → shutdown_ok p → exec a p = Some p' → shutdown_ok p'.
Proof.
  intros Hinv Hok Ha.
  pose proof (inv_stop _ Hinv) as Hstop.
  pose proof (exec_shutdown_frame a p p' Ha) as Hframe.
  destruct a;
    try (destruct Hframe as (Ho & Hs & Hc & Hd & He);
         by apply (shutdown_ok_ext p p')).
  - (* a call of stop *)
    unfold exec in Ha. destruct (crashed p); [done|]. injection Ha as <-.
    unfold stop_call, shutdown_ok, stop_ok in *.
    destruct (stopOnce (stream p)) eqn:Ho; cbn; rewrite ?Ho.
    + destruct Hstop as (Hs & _). rewrite Hs. cbn.
      intros pc l [= <- <-]. exact Hok.
    + destruct Hstop as (_ & pc0 & n & Hs & _). rewrite Hs. cbn.
      intros pc l [= <- <-]. by apply (Hok pc0 (replicate n SOnceWait)).
    + exact Hok.
  - (* a step of a caller of stop *)
    unfold exec in Ha. destruct (crashed p); [done|].
    unfold stop_step in Ha.
    destruct (stopping p !! i) as [pc|] eqn:Hi; [|done]. cbn in Ha.
    unfold shutdown_ok, stop_ok in *.
    destruct (stopOnce (stream p)) eqn:Ho.
    + destruct Hstop as (Hs & _). by rewrite Hs in Hi.
    + destruct Hstop as (_ & pc0 & n & Hs & Hb).
      specialize (Hok pc0 _ Hs). rewrite Hs in Hi, Ha.
      destruct i as [|j]; cbn in Hi.
      * injection Hi as <-.
        destruct pc0; cbn in Hb, Hok; try done.
        -- injection Ha as <-. cbn. rewrite Ho.
           intros pc l [= <- <-]. cbn. by destruct Hok.
        -- injection Ha as <-. cbn. rewrite Ho.
           intros pc l [= <- <-]. done.
        -- destruct Hb as [Hc1 Hc2]. rewrite Hc1 in Ha. injection Ha as <-.
           cbn. rewrite Ho. intros pc l [= <- <-]. done.
        -- destruct (wg (stream p) =? 0); injection Ha as <-;
             cbn; rewrite Ho; intros pc l [= <- <-]; done.
        -- destruct (_ && _); injection Ha as <-;
             cbn; rewrite Ho, ?Hs; intros pc l [= <- <-]; done.
        -- injection Ha as <-. cbn. done.
      * apply lookup_replicate in Hi as [-> _]. done.
    + destruct Hstop as (_ & _ & Hall).
      assert (pc = SReturned ∨ pc = SOnceWait) as [-> | ->]
        by (eapply Forall_lookup_1 in Hall; eauto); [done|].
      injection Ha as <-. cbn. by rewrite Ho.
Qed.

Lemma shutdown_ok_run tr p p' :
  Inv p → shutdown_ok p → run tr p = Some p' → shutdown_ok p'.
Proof.
  revert p. induction tr as [|a tr IH]; intros p Hinv Hok; cbn.
  { by intros [= <-]. }
  destruct (exec a p) as [p1|] eqn:Ha; [|done]. cbn.
  apply IH; [by eapply Inv_exec | by eapply shutdown_ok_exec].
Qed.

Lemma shutdown_ok_reachable tr p : run tr init_proc = Some p → shutdown_ok p.
Proof. apply shutdown_ok_run; [apply Inv_init | done]. Qed.

(** X8: what [stop] does wait for.  In a reachable state, when a caller's
    [e.wg.Wait()] returns (at once, or after it has slept and was
    released), the stream is marked closed, the context is cancelled, the
    channel is closed, and at that instant no handler invocation is
    running; and whenever a call of [stop] has returned, the mark, the
    cancellation and the closing of the channel are in place. *)
Theorem stop_waits_for_running_handlers tr p (i : nat) :
  run tr init_proc = Some p →
  (stopping p !! i = Some SWait ∨ stopping p !! i = Some SWaitWoken →
   ∀ p', exec (AStopStep i) p = Some p' → stopping p' !! i = Some SClear →
     running p = [] ∧ running p' = [] ∧
     closed (stream p) = true ∧ ctx_done (stream p) = true ∧
     eventch_closed (stream p) = true) ∧
  (stopping p !! i = Some SReturned →
     closed (stream p) = true ∧ ctx_done (stream p) = true ∧
     eventch_closed (stream p) = true).
Proof.
  intros Hrun.
  assert (Inv p) as Hinv by (eapply reachable_Inv; by exists tr).
  pose proof (shutdown_ok_reachable tr p Hrun) as Hok.
  pose proof (inv_stop _ Hinv) as Hstop.
  pose proof (inv_wg _ Hinv) as Hwg.
  unfold shutdown_ok, stop_ok in *. split.
  - intros Hi p' Hex Hi'. unfold exec in Hex.
    destruct (crashed p) eqn:Hcr; [done|].
    unfold stop_step in Hex.
    assert (wg (stream p) = 0 ∧ running p' = running p) as [Hz Hr'].
    { destruct Hi as [Hi | Hi]; rewrite Hi in Hex; cbn in Hex.
      - destruct (wg (stream p) =? 0) eqn:Hz; injection Hex as <-.
        + by apply Z.eqb_eq in Hz.
        + cbn in Hi'. rewrite list_lookup_insert_eq in Hi'; [done|].
          by eapply lookup_lt_Some.
      - destruct (wg (stream p) =? 0) eqn:Hz; cbn in Hex;
          [destruct (wg_waiters p =? 0)%nat|]; injection Hex as <-.
        + by apply Z.eqb_eq in Hz.
        + cbn in Hi'. congruence.
        + cbn in Hi'. congruence. }
    rewrite Hz in Hwg.
    assert (running p = []) as Hr by (apply nil_length_inv; lia).
    split; [done|]. split; [congruence|].
    destruct (stopOnce (stream p)).
    + destruct Hstop as (Hs & _). rewrite Hs in Hi. by destruct Hi.
    + destruct Hstop as (_ & pc & n & Hs & Hb). specialize (Hok pc _ Hs).
      rewrite Hs in Hi. destruct i as [|j]; cbn in Hi.
      * destruct Hi as [Hi | Hi]; injection Hi as ->;
          cbn in Hb, Hok; by destruct Hok.
      * destruct Hi as [Hi | Hi]; by apply lookup_replicate in Hi as [? _].
    + destruct Hstop as (_ & _ & Hall).
      destruct Hi as [Hi | Hi];
        (eapply Forall_lookup_1 in Hall; [|exact Hi]); by destruct Hall.
  - intros Hi. destruct (stopOnce (stream p)).
    + destruct Hstop as (Hs & _). by rewrite Hs in Hi.
    + destruct Hstop as (_ & pc & n & Hs & Hb). rewrite Hs in Hi.
      destruct i as [|j]; cbn in Hi.
      * injection Hi as ->. done.
      * by apply lookup_replicate in Hi as [? _].
    + destruct Hstop as (_ & Hcl & _). by destruct Hok.
Qed.

(** X9: an [emit] that has read [closed] as false just before a [stop]
    panics.  From any reachable state in which [stop] was never called, a
    producer that passes the check of [closed], followed by a call of
    [stop] up to its [close(e.eventch)], ends in a send on a closed
    channel: the [select] of [emit] panics instead of dropping the event. *)
Theorem emit_racing_stop_panics tr p (t : string) (v : any) :
  run tr init_proc = Some p → crashed p = false →
  stopOnce (stream p) = OnceFresh →
  ∃ p1 p2,
    run (AEmitCheck t v :: AStopCall :: replicate 3 (AStopStep 0)) p = Some p1 ∧
    crashed p1 = false ∧
    emitting p1 !! length (emitting p) = Some (mk_event t v) ∧
    exec (AEmitSend (length (emitting p))) p1 = Some p2 ∧
    crashed p2 = true ∧
    eventch (stream p2) = eventch (stream p).
Proof.
  intros Hrun Hcr Ho.
  assert (Inv p) as Hinv by (eapply reachable_Inv; by exists tr).
  pose proof (shutdown_ok_reachable tr p Hrun) as Hok.
  pose proof (inv_stop _ Hinv) as Hstop.
  unfold shutdown_ok, stop_ok in *. rewrite Ho in Hok, Hstop.
  destruct Hok as [Hcl Hcd]. destruct Hstop as (Hs & _ & Hec).
  destruct p as [[m q chc ctx w once cl] c lg lp rn em st cr dr].
  cbn in *. subst.
  exists (mk_proc (mk_stream m q true true w OnceRunning true) c lg lp rn
            (em ++ [mk_event t v]) [SWait] false (S dr)).
  exists (mk_proc (mk_stream m q true true w OnceRunning true) c lg lp rn
            (delete (length em) (em ++ [mk_event t v])) [SWait] true (S dr)).
  split; [vm_compute; reflexivity|].
  split; [reflexivity|].
  split; [by apply list_lookup_middle|].
  unfold exec, emit_send. cbn [crashed emitting].
  rewrite list_lookup_middle by done. split; [reflexivity|].
  split; reflexivity.
Qed.

(** ** The waiters of the WaitGroup *)

Lemma wg_waiters_zero p : wg_waiters p = 0%nat ↔ SWaitSema ∉ stopping p.
Proof.
  unfold wg_waiters. induction (stopping p) as [|pc l IH]; cbn.
  - split; [intros _; apply not_elem_of_nil | done].
  - rewrite not_elem_of_cons.
    destruct pc; cbn; rewrite ?IH;
      try (split; [by intros ?; split | by intros [_ ?]]).
    split; [done|]. intros [Hn _]. by destruct Hn.
Qed.

Lemma not_waiter_wake (l : list StopPc) : SWaitSema ∉ map wake l.
Proof.
  induction l as [|pc l IH]; cbn; [apply not_elem_of_nil|].
  rewrite not_elem_of_cons. split; [by destruct pc | done].
Qed.

Lemma waiter_insert (l : list StopPc) (i : nat) pc :
  pc ≠ SWaitSema → SWaitSema ∈ <[i := pc]> l → SWaitSema ∈ l.
Proof.
  intros Hpc. revert i. induction l as [|pc0 l IH]; intros i; [done|].
  destruct i as [|i]; cbn; rewrite !elem_of_cons.
  - intros [? | ?]; [congruence | by right].
  - intros [? | ?]; [by left | right; by eapply IH].
Qed.

Lemma waiter_counted_exec a p p' :
  Inv p → (SWaitSema ∈ stopping p → 0 < wg (stream p)) →
  exec a p = Some p' →
  SWaitSema ∈ stopping p' → 0 < wg (stream p').
Proof.
  intros Hinv HJ. pose proof (inv_wg _ Hinv) as Hwg.
  unfold exec. destruct (crashed p); [done|].
  destruct a; cbn.
  - intros [= <-]. exact HJ.
  - intros [= <-]. destruct (unsubscribe_set_subs sub (stream p)) as [m ->].
    exact HJ.
  - intros [= <-]. unfold emit_check.
    destruct (closed (stream p)); cbn; exact HJ.
  - unfold emit_send. destruct (emitting p !! i); [|done]. cbn.
    intros [= <-]. unfold try_send.
    destruct (eventch_closed (stream p)); [exact HJ|].
    destruct (_ <? _)%nat; cbn; exact HJ.
  - unfold start_cancelled. destruct (loop p); try done.
    destruct (ctx_done (stream p)); [|done]. intros [= <-]. exact HJ.
  - unfold start_recv. destruct (loop p); try done.
    destruct (eventch (stream p)).
    + destruct (eventch_closed (stream p)); [|done]. intros [= <-]. exact HJ.
    + intros [= <-]. exact HJ.
  - unfold start_snapshot. destruct (loop p); try done.
    destruct (snapshot _ _); intros [= <-]; exact HJ.
  - unfold start_spawn. destruct (loop p) as [| |[|s rest] msg|]; try done.
    intros [= <-]. cbn. lia.
  - unfold handler_done. destruct (running p !! i); [|done]. cbn.
    intros [= <-]. cbn. rewrite wg_done_stream. cbn.
    unfold wg_done. cbv zeta.
    destruct (0 <? wg (stream p) - 1) eqn:Hpos; cbn.
    { intros _. by apply Z.ltb_lt in Hpos. }
    destruct (wg_waiters p =? 0)%nat eqn:Hw; cbn.
    + apply Nat.eqb_eq, wg_waiters_zero in Hw. done.
    + intros Hin. by apply not_waiter_wake in Hin.
  - unfold handler_done. destruct (running p !! i); [|done]. cbn.
    intros [= <-]. cbn. rewrite wg_done_stream. cbn.
    unfold wg_done. cbv zeta.
    destruct (0 <? wg (stream p) - 1) eqn:Hpos; cbn.
    { intros _. by apply Z.ltb_lt in Hpos. }
    destruct (wg_waiters p =? 0)%nat eqn:Hw; cbn.
    + apply Nat.eqb_eq, wg_waiters_zero in Hw. done.
    + intros Hin. by apply not_waiter_wake in Hin.
  - intros [= <-]. unfold stop_call.
    destruct (stopOnce (stream p)); cbn; rewrite elem_of_app;
      (intros [Hin | Hin]; [by apply HJ|]);
      by apply list_elem_of_singleton in Hin.
  - unfold stop_step. destruct (stopping p !! i) as [pc|]; [|done]. cbn.
    destruct pc; try done.
    + destruct (stopOnce (stream p)); try done. intros [= <-]. cbn.
      intros Hin. by apply HJ, (waiter_insert _ i SReturned).
    + intros [= <-]. cbn. intros Hin. by apply HJ, (waiter_insert _ i SCancel).
    + intros [= <-]. cbn. intros Hin. by apply HJ, (waiter_insert _ i SClose).
    + destruct (eventch_closed (stream p)); intros [= <-]; cbn; [done|].
      intros Hin. by apply HJ, (waiter_insert _ i SWait).
    + destruct (wg (stream p) =? 0) eqn:Hz; intros [= <-]; cbn.
      * intros Hin. by apply HJ, (waiter_insert _ i SClear).
      * intros _. apply Z.eqb_neq in Hz. lia.
    + destruct (_ && _); intros [= <-]; cbn; [|done].
      intros Hin. by apply HJ, (waiter_insert _ i SClear).
    + intros [= <-]. cbn. intros Hin.
      by apply HJ, (waiter_insert _ i SReturned).
Qed.

(** A caller sleeps in [Wait] only with the counter above zero: [Done]
    releases the waiters in the step that brings it to zero.  So the
    [e.wg.Add(1)] of the loop never finds a waiter with the counter at
    zero, which is what [Add] itself would panic on. *)
Lemma waiter_counted tr p :
  run tr init_proc = Some p → SWaitSema ∈ stopping p → 0 < wg (stream p).
Proof.
  assert (∀ tr p0 p, Inv p0 →
            (SWaitSema ∈ stopping p0 → 0 < wg (stream p0)) →
            run tr p0 = Some p →
            SWaitSema ∈ stopping p → 0 < wg (stream p)) as Hgen.
  { clear. intros tr. induction tr as [|a tr IH]; intros p0 p Hinv H0; cbn.
    - by intros [= <-].
    - destruct (exec a p0) as [p1|] eqn:Ha; [|done]. cbn.
      apply IH; [by eapply Inv_exec | by eapply waiter_counted_exec]. }
  apply Hgen; [apply Inv_init|]. cbn. by intros ?%elem_of_nil.
Qed.

(** ** The loop after cancellation *)

Lemma loop_ok_exec a p p' : loop_ok p → exec a p = Some p' → loop_ok p'.
Proof.
  unfold loop_ok, exec. destruct (crashed p); [done|]. intros Hl.
  destruct a; cbn.
  - by intros [= <-].
  - by intros [= <-].
  - intros [= <-]. unfold emit_check. by destruct (closed (stream p)).
  - unfold emit_send. destruct (emitting p !! i); [|done]. cbn.
    intros [= <-]. by destruct (try_send _ _).
  - unfold start_cancelled. destruct (loop p); try done.
    destruct (ctx_done (stream p)); [|done]. by intros [= <-].
  - unfold start_recv. destruct (loop p); try done.
    destruct (eventch (stream p)).
    + destruct (eventch_closed (stream p)); [|done]. by intros [= <-].
    + by intros [= <-].
  - unfold start_snapshot. destruct (loop p); try done.
    destruct (snapshot _ _); by intros [= <-].
  - unfold start_spawn. destruct (loop p) as [| |[|s [|s' rest]] msg|]; try done;
      by intros [= <-].
  - unfold handler_done. destruct (running p !! i); [|done]. cbn.
    intros [= <-]. cbn. by destruct (wg_done_rest p) as (_ & _ & -> & _).
  - unfold handler_done. destruct (running p !! i); [|done]. cbn.
    intros [= <-]. cbn. by destruct (wg_done_rest p) as (_ & _ & -> & _).
  - intros [= <-]. unfold stop_call. by destruct (stopOnce (stream p)).
  - unfold stop_step. destruct (stopping p !! i) as [pc|]; [|done]. cbn.
    destruct pc; try done; try (by intros [= <-]).
    + destruct (stopOnce (stream p)); try done. by intros [= <-].
    + destruct (eventch_closed (stream p)); by intros [= <-].
    + destruct (wg (stream p) =? 0); by intros [= <-].
    + destruct (_ && _); by intros [= <-].
Qed.

Lemma loop_ok_reachable tr p : run tr init_proc = Some p → loop_ok p.
Proof.
  assert (∀ tr p0 p, loop_ok p0 → run tr p0 = Some p → loop_ok p) as Hgen.
  { clear. intros tr. induction tr as [|a tr IH]; intros p0 p H0; cbn.
    - by intros [= <-].
    - destruct (exec a p0) as [p1|] eqn:Ha; [|done]. cbn.
      apply IH. by eapply loop_ok_exec. }
  apply Hgen. done.
Qed.

(** X10: after the cancellation the loop can return, and then stays so.
    In a reachable state with the context cancelled, the loop goroutine
    needs only steps of its own to return: it ends the turn it is in
    (starting the handlers of a snapshot already taken) and takes the
    [Done] case of its [select], without receiving another event; once it
    has returned no step of any goroutine brings it back. *)
Theorem loop_returns_after_cancel tr p :
  run tr init_proc = Some p → crashed p = false →
  ctx_done (stream p) = true →
  ∃ tr' p',
    forallb is_loop_step tr' = true ∧
    run tr' p = Some p' ∧ crashed p' = false ∧
    loop p' = LExited ∧
    eventch (stream p') = eventch (stream p) ∧
    ∀ tr'' p'', run tr'' p' = Some p'' → loop p'' = LExited.
Proof.
  intros Hrun Hcr Hcd.
  pose proof (loop_ok_reachable tr p Hrun) as Hlok. unfold loop_ok in Hlok.
  assert (∀ p0, crashed p0 = false → ctx_done (stream p0) = true →
                loop p0 = LSelect →
                exec ALoopCancelled p0 = Some (set_loop LExited p0)) as Hexit.
  { intros p0 H0 H1 H2. unfold exec, start_cancelled. by rewrite H0, H2, H1. }
  assert (∀ p', loop p' = LExited →
            ∀ tr'' p'', run tr'' p' = Some p'' → loop p'' = LExited) as Hstay.
  { intros p' Hl tr'' p'' Hr. by apply (run_loop_exited tr'' p' p'') in Hr as [? _]. }
  destruct (loop p) as [|evt|handlers msg|] eqn:Hl.
  - exists [ALoopCancelled]. eexists. split; [done|]. cbn [run].
    rewrite Hexit by done. split; [done|]. repeat split; try done.
    by apply Hstay.
  - assert (∃ p1, ∃ tr1, forallb is_loop_step tr1 = true ∧
              run tr1 p = Some p1 ∧ crashed p1 = false ∧ loop p1 = LSelect ∧
              ctx_done (stream p1) = true ∧
              eventch (stream p1) = eventch (stream p))
      as (p1 & tr1 & Hs1 & Hr1 & Hc1 & Hl1 & Hd1 & Hq1).
    { destruct (subs_of (stream p) (topic evt)) as [|s rest] eqn:Hh.
      - exists (set_loop LSelect p), [ALoopSnapshot]. split; [done|].
        cbn [run]. unfold exec, start_snapshot. rewrite Hcr, Hl.
        unfold snapshot. cbn [app]. rewrite Hh. done.
      - eexists _, (ALoopSnapshot :: replicate (length (s :: rest)) ALoopSpawn).
        split; [cbn [forallb is_loop_step]; by rewrite forallb_replicate|].
        cbn [run]. unfold exec at 1. unfold start_snapshot. rewrite Hcr, Hl.
        unfold snapshot. cbn [app]. rewrite Hh. cbn [mbind option_bind].
        rewrite (run_spawn (s :: rest) (message evt)); done. }
    exists (tr1 ++ [ALoopCancelled]). eexists.
    split; [by rewrite forallb_app, Hs1|].
    rewrite run_app, Hr1. cbn [mbind option_bind run]. rewrite Hexit by done.
    split; [done|]. repeat split; try done. by apply Hstay.
  - destruct handlers as [|s rest]; [done|].
    exists (replicate (length (s :: rest)) ALoopSpawn ++ [ALoopCancelled]).
    eexists. split; [by rewrite forallb_app, forallb_replicate|].
    rewrite run_app, (run_spawn (s :: rest) msg) by done.
    cbn [mbind option_bind run]. rewrite Hexit by done.
    split; [done|]. repeat split; try done. by apply Hstay.
  - exists [], p. repeat split; try done. by apply Hstay.
Qed.

(** ** The package-level functions on a nil stream *)

(** X11: of the package-level functions only [Emit] and [Stop] guard
    against a nil [stream]: [Stop] returns and changes nothing, while
    [Subscribe] and [Unsubscribe] call the method on the nil pointer and
    panic.  On a stream that is there, [Stop] before any other call of it
    and with no handler running marks it closed, cancels, closes the
    channel and empties the registry, and a second [Stop] changes
    nothing. *)
Theorem package_api_nil_guards (t : string) (h : HandlerFunc) (now c : Z)
    sub (lg : list LogEntry) e :
  let nil_stream := @mk_globals HandlerFunc any None c lg in
  Stop nil_stream = Returns nil_stream ∧
  Subscribe t h now nil_stream = Panics ∧
  Unsubscribe sub nil_stream = Panics ∧
  (stopOnce e = OnceFresh → eventch_closed e = false → wg e = 0 →
   ∃ e', Stop (mk_globals (Some e) c lg) = Returns (mk_globals (Some e') c lg) ∧
         closed e' = true ∧ ctx_done e' = true ∧ eventch_closed e' = true ∧
         subs e' = ∅ ∧ eventch e' = eventch e ∧
         Stop (mk_globals (Some e') c lg) = Returns (mk_globals (Some e') c lg)).
Proof.
  intros nil_stream. split; [done|]. split; [done|]. split; [done|].
  intros Ho Hc Hw. unfold Stop, stop. cbn [g_stream g_subIDCounter g_slog].
  rewrite Ho, Hc, Hw. cbn [Z.eqb].
  eexists. split; [reflexivity|]. cbn.
  repeat (split; [reflexivity|]). reflexivity.
Qed.

(** The method [stop] called alone agrees with the goroutine machine. *)
Lemma stop_alone_agrees p :
  crashed p = false → stopOnce (stream p) = OnceFresh →
  stopping p = [] → eventch_closed (stream p) = false → wg (stream p) = 0 →
  ∃ p', run (AStopCall :: replicate 5 (AStopStep 0)) p = Some p' ∧
        stop (stream p) = Returns (stream p') ∧
        stopping p' = [SReturned].
Proof.
  intros Hcr Ho Hs Hc Hw.
  destruct p as [[m q chc ctx w once cl] c lg lp rn em st cr dr].
  cbn in *. subst.
  exists (mk_proc (mk_stream ∅ q true true 0 OnceDone true) c lg lp rn em
            [SReturned] false (S dr)).
  split; [vm_compute; reflexivity|]. split; reflexivity.
Qed.

End StreamProperties.

Section AfterStop.
Context {HandlerFunc any : Type}.
Implicit Types (e : @eventStream HandlerFunc any) (p : @Proc HandlerFunc any).
Implicit Types (sub s : @Subscription HandlerFunc) (evt : @event any).
Implicit Types (tr : list (@Action HandlerFunc any)).
Local Abbreviation init_proc := (@init_proc HandlerFunc any).

(** ** [subscribe] after [stop] *)

(** [subscribe] reads neither [closed] nor anything else of the shutdown:
    with the mark set either way it returns the same subscription and
    files it the same way. *)
Lemma subscribe_ignores_closed (t : string) (h : HandlerFunc) (now c : Z) e
    (b : bool) :
  subscribe t h now c (set_closed b e)
  = ((subscribe t h now c e).1.1, (subscribe t h now c e).1.2,
     set_closed b (subscribe t h now c e).2).
Proof. reflexivity. Qed.

(** Once the channel is closed nothing is enqueued any more, and the mark
    [closed] stays. *)
Lemma run_after_close tr p p' :
  closed (stream p) = true → eventch_closed (stream p) = true →
  run tr p = Some p' →
  closed (stream p') = true ∧ eventch_closed (stream p') = true ∧
  ∃ k, eventch (stream p') = drop k (eventch (stream p)).
Proof.
  revert p. induction tr as [|a tr IH]; intros p Hcl Hch; cbn.
  { intros [= <-]. split; [done|]. split; [done|]. by exists 0%nat. }
  destruct (exec a p) as [p1|] eqn:Ha; [|done]. cbn. intros Hrun.
  destruct (exec_shutdown_mono a p p1 Ha) as (H1 & _ & H3 & _).
  destruct (H3 Hch) as (Hch1 & k1 & Hk1).
  destruct (IH p1 (H1 Hcl) Hch1 Hrun) as (Hcl' & Hch' & k2 & Hk2).
  split; [done|]. split; [done|].
  exists (k1 + k2)%nat. by rewrite Hk2, Hk1, drop_drop.
Qed.

(** C10, as the code has it: after a call of [stop] has returned, the
    stream is marked closed, and [subscribe], which does not look at the
    mark, still succeeds.  As long as fewer than 2^64 - 1 calls of
    [subscribe] were made before, the subscription it returns has an id
    above every id returned before and above every id in the registry.  It
    is filed under its topic; right after the clearing of the registry the
    map holds that one entry only.  From then on no [emit] enqueues an
    event: each is dropped at the closed mark, and the queue only loses
    events; and once the loop has returned no handler is started. *)
Theorem subscribe_after_stop tr p (t : string) (h : HandlerFunc) (now : Z) :
  run tr init_proc = Some p → crashed p = false →
  SReturned ∈ stopping p →
  subscribe_count tr + 1 < uint64_mod →
  let sub := mk_sub (subIDCounter p + 1) t now h in
  stopOnce (stream p) = OnceDone ∧ closed (stream p) = true ∧
  (∀ b, subscribe t h now (subIDCounter p) (set_closed b (stream p))
        = (sub, ID sub,
           set_closed b
             (set_subs (<[t := subs_of (stream p) t ++ [sub]]> (subs (stream p)))
                       (stream p)))) ∧
  Forall (λ id, id < ID sub) (returned_ids tr init_proc) ∧
  (∀ t' s, s ∈ subs_of (stream p) t' → ID s < ID sub) ∧
  (∃ p', exec (ASubscribe t h now) p = Some p' ∧ crashed p' = false ∧
         subs (stream p') !! t = Some (subs_of (stream p) t ++ [sub]) ∧
         (subs (stream p) = ∅ → subs (stream p') = {[ t := [sub] ]}) ∧
         (∀ tr' p'', run tr' p' = Some p'' →
            (∀ t' v, emit t' v (stream p'')
                     = Some (stream p'',
                             [LogDebug "dropping event because stream is closed" t'])) ∧
            (∃ k, eventch (stream p'') = drop k (eventch (stream p))) ∧
            (loop p = LExited →
               loop p'' = LExited ∧
               (length (running p'') ≤ length (running p))%nat))).
Proof.
  intros Hrun Hcr Hret Hcnt sub.
  assert (Inv p) as Hinv by (eapply reachable_Inv; by exists tr).
  pose proof (shutdown_ok_reachable tr p Hrun) as Hok.
  pose proof (subscribe_count_nonneg tr) as Hnn.
  assert (stopOnce (stream p) = OnceDone) as Hdone.
  { pose proof (inv_stop _ Hinv) as Hs. unfold stop_ok in Hs.
    destruct (stopOnce (stream p)); [| |done].
    - destruct Hs as (Hs & _). rewrite Hs in Hret. by apply elem_of_nil in Hret.
    - destruct Hs as (_ & pc & n & Hs & Hb). rewrite Hs in Hret.
      apply elem_of_cons in Hret as [<- | Hret]; [done|].
      by apply elem_of_replicate in Hret as [? _]. }
  assert (closed (stream p) = true) as Hcl.
  { pose proof (inv_stop _ Hinv) as Hs. unfold stop_ok in Hs.
    rewrite Hdone in Hs. by destruct Hs as (_ & ? & _). }
  assert (eventch_closed (stream p) = true) as Hch.
  { unfold shutdown_ok in Hok. rewrite Hdone in Hok. by destruct Hok. }
  destruct (returned_ids_bounds tr init_proc p) as (Hc & _ & Hall);
    [done| cbn; lia |done|]. cbn in Hc, Hall.
  assert (subID_add1 (subIDCounter p) = subIDCounter p + 1) as Hadd.
  { unfold subID_add1. apply Z.mod_small. lia. }
  split; [done|]. split; [done|]. split.
  { intros b. unfold subscribe. cbn. by rewrite Hadd. }
  split.
  { eapply Forall_impl; [exact Hall|]. cbn. lia. }
  split.
  { intros t' s Hs.
    destruct (ids_ok_reachable tr p Hrun) as (Hb & _); [lia|].
    specialize (Hb t' s Hs). cbn. lia. }
  rewrite exec_subscribe by done. eexists. split; [done|]. cbn.
  split; [done|]. rewrite Hadd.
  split; [by rewrite lookup_insert_eq|]. split.
  { intros Hempty. unfold subs_of. rewrite Hempty, lookup_empty. cbn.
    by rewrite insert_empty. }
  intros tr' p'' Hrun'.
  pose proof (λ H1 H2, run_after_close tr' _ p'' H1 H2 Hrun') as Hac.
  destruct (Hac Hcl Hch) as (Hcl' & _ & Hk).
  split; [|split].
  - intros t' v. unfold emit. by rewrite Hcl'.
  - exact Hk.
  - intros Hl. by apply (run_loop_exited tr' _ p'') in Hrun'.
Qed.

End AfterStop.

(** * The registry in memory: proofs *)

Section SliceProperties.

Context {HandlerFunc : Type}.
Context (growslice : nat → nat → nat) (clear_tail : bool).

Implicit Types (h : gmap positive (list (@cell HandlerFunc))).
Implicit Types (s : slice) (m : @registry HandlerFunc).
Implicit Types (x sub : @Subscription HandlerFunc).

Local Abbreviation append1 := (append_one growslice).
Local Abbreviation copy1 := (@copy_slice HandlerFunc growslice).
Local Abbreviation delete1 := (@DeleteFunc HandlerFunc clear_tail).

Lemma take_snoc_pad {A} (l : list A) (x : A) (pad : list A) (n : nat) :
  length l = n → take (S n) (l ++ x :: pad) = l ++ [x].
Proof.
  intros <-. rewrite (cons_middle x), app_assoc.
  replace (S (length l)) with (length (l ++ [x]))
    by (rewrite length_app; cbn; lia).
  apply take_app_length.
Qed.

Lemma fresh_unallocated h : h !! fresh (dom h) = None.
Proof. apply not_elem_of_dom, is_fresh. Qed.

Lemma slice_ok_elems h s a arr :
  ptr s = Some a → h !! a = Some arr →
  array_of h s = arr ∧ elems h s = take (slen s) arr.
Proof. intros Hp Ha. unfold elems, array_of. by rewrite Hp, Ha. Qed.

Lemma abs_list_nil h : abs_list h nil_slice = [].
Proof. reflexivity. Qed.

Lemma omap_id_Some (l : list (@cell HandlerFunc)) :
  Forall (λ c, is_Some c) l → map Some (omap id l) = l.
Proof.
  induction 1 as [|c l [x ->] _ IH]; [done|]. cbn. by rewrite IH.
Qed.

Lemma omap_id_map_Some (l : list (@Subscription HandlerFunc)) :
  omap id (map Some l) = l.
Proof. induction l as [|x l IH]; [done|]. cbn. by rewrite IH. Qed.

Lemma Forall_is_Some_map (l : list (@Subscription HandlerFunc)) :
  Forall (λ c : @cell HandlerFunc, is_Some c) (map Some l).
Proof. induction l; constructor; eauto. Qed.

(** [append] adds the element at the end, in the array of the slice or in
    a new one, and writes to no other array. *)
Lemma append_one_spec h s x :
  s = nil_slice ∨ slice_ok h s →
  slice_ok (append1 h s x).1 (append1 h s x).2 ∧
  abs_list (append1 h s x).1 (append1 h s x).2 = abs_list h s ++ [x] ∧
  (∀ a, ptr s ≠ Some a → is_Some (h !! a) →
        (append1 h s x).1 !! a = h !! a) ∧
  (ptr (append1 h s x).2 = ptr s ∨
   ∃ a', ptr (append1 h s x).2 = Some a' ∧ h !! a' = None).
Proof.
  intros [-> | (a & arr & Hp & Ha & [Hpos Hlen] & Hall)].
  - cbn. split; [|split; [|split]].
    + exists (fresh (dom h)), (Some x :: replicate (growslice 0 1 - 1) None).
      cbn. rewrite lookup_insert_eq. split; [done|]. split; [done|].
      split; [lia|]. rewrite take_0. repeat constructor. eauto.
    + unfold abs_list, elems, array_of. cbn. by rewrite lookup_insert_eq.
    + intros a _ [arr Ha]. rewrite lookup_insert_ne; [done|].
      intros <-. by rewrite fresh_unallocated in Ha.
    + right. exists (fresh (dom h)). split; [done|]. apply fresh_unallocated.
  - destruct (slice_ok_elems h s a arr Hp Ha) as [Harr Hel].
    unfold append_one, cap. rewrite Hp, Harr.
    destruct (slen s <? length arr)%nat eqn:Hlt; cbn [fst snd].
    + apply Nat.ltb_lt in Hlt. split; [|split; [|split]].
      * exists a, (<[slen s := Some x]> arr). cbn.
        rewrite lookup_insert_eq, length_insert. split; [done|].
        split; [done|]. split; [lia|].
        rewrite (take_S_r _ _ (Some x))
          by (by apply list_lookup_insert_eq).
        rewrite take_insert_ge by lia. apply Forall_app. split; [done|].
        repeat constructor. eauto.
      * unfold abs_list, elems, array_of. cbn. rewrite lookup_insert_eq. cbn.
        rewrite Hp, Ha. cbn.
        rewrite (take_S_r _ _ (Some x))
          by (by apply list_lookup_insert_eq).
        rewrite take_insert_ge by lia. by rewrite omap_app.
      * intros b Hb _. rewrite lookup_insert_ne; [done|]. congruence.
      * by left.
    + apply Nat.ltb_ge in Hlt.
      assert (length (elems h s) = slen s) as Hel_len.
      { rewrite Hel, length_take. lia. }
      split; [|split; [|split]].
      * eexists (fresh (dom h)), _. cbn. rewrite lookup_insert_eq.
        split; [done|]. split; [done|]. split.
        { rewrite length_app. cbn. lia. }
        rewrite take_snoc_pad by done.
        apply Forall_app. split; [by rewrite Hel|]. repeat constructor. eauto.
      * unfold abs_list at 1. unfold elems at 1, array_of. cbn.
        rewrite lookup_insert_eq. cbn.
        rewrite take_snoc_pad by done. by rewrite omap_app.
      * intros b _ [arr' Hb]. rewrite lookup_insert_ne; [done|].
        intros <-. by rewrite fresh_unallocated in Hb.
      * right. exists (fresh (dom h)). split; [done|]. apply fresh_unallocated.
Qed.

Lemma filter_length_eq {A} (f : A → bool) (l : list A) :
  length (List.filter f l) = length l → List.filter f l = l.
Proof.
  induction l as [|x l IH]; [done|]. cbn.
  pose proof (List.filter_length_le f l) as Hle.
  destruct (f x); cbn; intros Hlen; [f_equal; apply IH; lia | lia].
Qed.

Lemma Forall_List_filter {A} (P : A → Prop) (f : A → bool) (l : list A) :
  Forall P l → Forall P (List.filter f l).
Proof.
  induction 1 as [|x l Hx _ IH]; [constructor|]. cbn.
  destruct (f x); [by constructor | done].
Qed.

Lemma omap_filter_cells sid (l : list (@cell HandlerFunc)) :
  Forall (λ c, is_Some c) l →
  omap id (List.filter (λ c, negb (cell_ID c =? sid)) l)
  = delete_by_id sid (omap id l).
Proof.
  unfold delete_by_id.
  induction 1 as [|c l [x ->] _ IH]; [done|]. cbn.
  destruct (negb (ID x =? sid)); cbn; by rewrite IH.
Qed.

Lemma length_omap_cells (l : list (@cell HandlerFunc)) :
  Forall (λ c, is_Some c) l → length (omap id l) = length l.
Proof. induction 1 as [|c l [x ->] _ IH]; [done|]. cbn. by rewrite IH. Qed.

(** [slices.DeleteFunc] keeps the array, leaves in the slice the elements
    with another sid, in their order, and writes to no other array. *)
Lemma DeleteFunc_spec h s sid :
  slice_ok h s →
  ptr (delete1 h s sid).2 = ptr s ∧
  abs_list (delete1 h s sid).1 (delete1 h s sid).2
  = delete_by_id sid (abs_list h s) ∧
  slen (delete1 h s sid).2 = length (delete_by_id sid (abs_list h s)) ∧
  (slen (delete1 h s sid).2 ≠ 0%nat →
     slice_ok (delete1 h s sid).1 (delete1 h s sid).2) ∧
  (∀ b, ptr s ≠ Some b → (delete1 h s sid).1 !! b = h !! b).
Proof.
  intros (a & arr & Hp & Ha & [Hpos Hlen] & Hall).
  destruct (slice_ok_elems h s a arr Hp Ha) as [Harr Hel].
  assert (length (elems h s) = slen s) as Hel_len.
  { rewrite Hel, length_take. lia. }
  rewrite <- Hel in Hall.
  pose proof (omap_filter_cells sid (elems h s) Hall) as Hkept.
  pose proof (Forall_List_filter _ (λ c, negb (cell_ID c =? sid)) _ Hall)
    as Hkall.
  unfold DeleteFunc. rewrite Hp. cbv zeta.
  set (kept := List.filter (λ c, negb (cell_ID c =? sid)) (elems h s)) in *.
  destruct (length kept =? length (elems h s))%nat eqn:Hsame; cbn [fst snd].
  - apply Nat.eqb_eq in Hsame.
    assert (kept = elems h s) as Hk by (by apply filter_length_eq).
    assert (delete_by_id sid (abs_list h s) = abs_list h s) as Hd.
    { unfold abs_list. by rewrite <- Hkept, Hk. }
    split; [done|]. split; [done|]. split.
    { rewrite Hd. unfold abs_list. rewrite length_omap_cells by done. done. }
    split; [|done]. intros _. exists a, arr. rewrite <- Hel. done.
  - split; [done|]. split.
    { unfold abs_list at 1. unfold elems at 1, array_of. cbn.
      rewrite lookup_insert_eq. cbn. rewrite take_app_length.
      exact Hkept. }
    split.
    { cbn. unfold abs_list. rewrite <- Hkept.
      by rewrite length_omap_cells. }
    split.
    + cbn [slen ptr]. intros Hne. eexists a, _. rewrite lookup_insert_eq.
      split; [done|]. split; [done|]. split.
      * rewrite length_app. cbn [slen]. lia.
      * cbn [slen]. by rewrite take_app_length.
    + intros b Hb. rewrite lookup_insert_ne; [done|]. congruence.
Qed.

(** The copy has the elements of the slice in an array of its own, which
    was not allocated before, and no array is written to. *)
Lemma copy_slice_spec h s :
  s = nil_slice ∨ slice_ok h s →
  elems (copy1 h s).1 (copy1 h s).2 = elems h s ∧
  (∀ b, is_Some (h !! b) → (copy1 h s).1 !! b = h !! b) ∧
  (ptr (copy1 h s).2 = None ∧ slen s = 0%nat ∨
   ∃ a', ptr (copy1 h s).2 = Some a' ∧ h !! a' = None ∧
         is_Some ((copy1 h s).1 !! a')).
Proof.
  intros [-> | (a & arr & Hp & Ha & [Hpos Hlen] & Hall)].
  - cbn. split; [done|]. split; [done|]. by left.
  - destruct (slice_ok_elems h s a arr Hp Ha) as [Harr Hel].
    assert (length (elems h s) = slen s) as Hel_len.
    { rewrite Hel, length_take. lia. }
    unfold copy_slice.
    destruct (slen s =? 0)%nat eqn:Hz; [apply Nat.eqb_eq in Hz; lia|].
    cbn [fst snd]. split; [|split].
    + unfold elems at 1, array_of. cbn. rewrite lookup_insert_eq. cbn.
      rewrite <- Hel_len at 1. apply take_app_length.
    + intros b [arr' Hb]. rewrite lookup_insert_ne; [done|].
      intros <-. by rewrite fresh_unallocated in Hb.
    + right. exists (fresh (dom h)). split; [done|].
      split; [apply fresh_unallocated|]. by rewrite lookup_insert_eq.
Qed.

End SliceProperties.

Section RegistryProperties.

Context {HandlerFunc any : Type}.
Context (growslice : nat → nat → nat) (clear_tail : bool).

Implicit Types (h : gmap positive (list (@cell HandlerFunc))).
Implicit Types (s : slice) (m : @registry HandlerFunc).
Implicit Types (x sub : @Subscription HandlerFunc).
Implicit Types (e : @eventStream HandlerFunc any) (p : @Proc HandlerFunc any).

Local Abbreviation append1 := (append_one growslice).
Local Abbreviation copy1 := (@copy_slice HandlerFunc growslice).
Local Abbreviation delete1 := (@DeleteFunc HandlerFunc clear_tail).
Local Abbreviation subscribe1 := (subscribe_mem growslice).
Local Abbreviation unsubscribe1 := (unsubscribe_mem clear_tail).
Local Abbreviation snapshot1 := (@snapshot_mem HandlerFunc growslice).
Local Abbreviation run1 := (@run_mem HandlerFunc any growslice clear_tail).

(** ** What is written where *)

Lemma append_one_frame h s x a :
  is_Some (h !! a) → ptr s ≠ Some a →
  (append1 h s x).1 !! a = h !! a ∧ ptr (append1 h s x).2 ≠ Some a.
Proof.
  intros [arr Ha] Hp. unfold append_one.
  assert (fresh (dom h) ≠ a) as Hfresh.
  { intros <-. by rewrite fresh_unallocated in Ha. }
  destruct (ptr s) as [b|] eqn:Hb; [destruct (_ <? _)%nat|]; cbn [fst snd ptr];
    (split; [rewrite lookup_insert_ne; [done|congruence] | congruence]).
Qed.

Lemma DeleteFunc_frame h s sid a :
  ptr s ≠ Some a →
  (delete1 h s sid).1 !! a = h !! a ∧ ptr (delete1 h s sid).2 = ptr s.
Proof.
  intros Hp. unfold DeleteFunc. cbv zeta.
  destruct (ptr s) as [b|] eqn:Hb; [destruct (_ =? _)%nat|]; cbn [fst snd ptr];
    try done.
  split; [|done]. rewrite lookup_insert_ne; [done|congruence].
Qed.

Lemma elems_same_array h h' s :
  (∀ a, ptr s = Some a → h' !! a = h !! a) → elems h' s = elems h s.
Proof.
  intros Hsame. unfold elems, array_of. destruct (ptr s) as [a|]; [|done].
  by rewrite Hsame.
Qed.

Lemma slice_ok_same_array h h' s :
  (∀ a, ptr s = Some a → h' !! a = h !! a) → slice_ok h s → slice_ok h' s.
Proof.
  intros Hsame (a & arr & Hp & Ha & Hrest). exists a, arr.
  split; [done|]. split; [|done]. by rewrite Hsame.
Qed.

(** A private array is not written to by [subscribe] and [unsubscribe],
    and stays private. *)
Lemma private_subscribe (t : string) (hf : HandlerFunc) (now c : Z) m a :
  private a m →
  arrays (subscribe1 t hf now c m).2 !! a = arrays m !! a ∧
  private a (subscribe1 t hf now c m).2.
Proof.
  intros [Hal Hpr]. unfold subscribe_mem. cbn [snd arrays headers].
  set (s := default nil_slice (headers m !! t)).
  assert (ptr s ≠ Some a) as Hs.
  { unfold s. destruct (headers m !! t) as [s0|] eqn:Ht; cbn; [|done].
    by apply (Hpr t). }
  destruct (append_one_frame (arrays m) s
              (mk_sub (subID_add1 c) t now hf) a Hal Hs) as [Hfr Hp'].
  split; [done|]. unfold private. cbn [arrays headers].
  split; [by rewrite Hfr|].
  intros t' s'. destruct (decide (t = t')) as [<- | Hne].
  - rewrite lookup_insert_eq. by intros [= <-].
  - rewrite lookup_insert_ne by done. apply Hpr.
Qed.

Lemma private_unsubscribe sub m a :
  private a m →
  arrays (unsubscribe1 sub m) !! a = arrays m !! a ∧
  private a (unsubscribe1 sub m).
Proof.
  intros [Hal Hpr]. unfold unsubscribe_mem.
  destruct (headers m !! Topic sub) as [s|] eqn:Ht; [|done].
  destruct (DeleteFunc_frame (arrays m) s (ID sub) a (Hpr _ _ Ht))
    as [Hfr Hp'].
  cbv zeta. destruct (_ =? _)%nat; unfold private; cbn [arrays headers].
  - split; [done|]. split; [by rewrite Hfr|].
    intros t' s' Hs'. apply lookup_delete_Some in Hs' as [_ Hs'].
    by apply (Hpr t').
  - split; [done|]. split; [by rewrite Hfr|].
    intros t' s'. destruct (decide (Topic sub = t')) as [<- | Hne].
    + rewrite lookup_insert_eq. intros [= <-]. rewrite Hp'. by apply (Hpr _ _ Ht).
    + rewrite lookup_insert_ne by done. apply Hpr.
Qed.

Lemma private_run_mem (muts : list (@Action HandlerFunc any)) : ∀ (c : Z) m a,
  private a m →
  arrays (run1 muts c m).2 !! a = arrays m !! a ∧
  private a (run1 muts c m).2.
Proof.
  induction muts as [|act muts IH]; intros c m a Hpr; [done|].
  destruct act; cbn [run_mem]; try by apply IH.
  - destruct (private_subscribe t h now c m a Hpr) as [Hfr Hpr'].
    destruct (IH (subscribe1 t h now c m).1.2 _ a Hpr') as [Hfr' Hpr''].
    split; [by rewrite Hfr', Hfr | done].
  - destruct (private_unsubscribe sub m a Hpr) as [Hfr Hpr'].
    destruct (IH c _ a Hpr') as [Hfr' Hpr''].
    split; [by rewrite Hfr', Hfr | done].
Qed.

(** ** The registry in memory and the map of lists *)

Lemma abs_subs_lookup m (t : string) :
  abs_subs m !! t = abs_list (arrays m) <$> headers m !! t.
Proof. unfold abs_subs. by rewrite lookup_fmap. Qed.

Lemma represents_empty e : subs e = ∅ → represents empty_registry e.
Proof.
  intros He. split; [split|].
  - intros t s. cbn. by rewrite lookup_empty.
  - intros t1 t2 s1 s2. cbn. by rewrite lookup_empty.
  - unfold abs_subs. cbn. by rewrite fmap_empty, He.
Qed.

Lemma represents_subs_of m e (t : string) :
  represents m e →
  subs_of e t = abs_list (arrays m) (default nil_slice (headers m !! t)) ∧
  (default nil_slice (headers m !! t) = nil_slice ∨
   slice_ok (arrays m) (default nil_slice (headers m !! t))).
Proof.
  intros [[Hok _] Hab]. unfold subs_of. rewrite <- Hab, abs_subs_lookup.
  destruct (headers m !! t) as [s|] eqn:Ht; cbn; [|by split; [|left]].
  split; [done|]. right. by apply (Hok t).
Qed.

(** [subscribe] in memory does what [subscribe] on the map of lists
    does. *)
Lemma subscribe_mem_refines (t : string) (hf : HandlerFunc) (now c : Z) m e :
  represents m e →
  (subscribe1 t hf now c m).1 = (subscribe t hf now c e).1 ∧
  represents (subscribe1 t hf now c m).2 (subscribe t hf now c e).2.
Proof.
  intros Hrep. split; [done|].
  destruct (represents_subs_of m e t Hrep) as [Hl Hs].
  destruct Hrep as [[Hok Hdis] Hab].
  unfold subscribe_mem, subscribe. cbn [snd].
  set (s := default nil_slice (headers m !! t)) in *.
  set (sub := mk_sub (subID_add1 c) t now hf).
  destruct (append_one_spec growslice (arrays m) s sub Hs)
    as (Hok' & Habs' & Hfr & Hptr).
  assert (∀ t0 s0, headers m !! t0 = Some s0 → ptr s0 = ptr s → t0 = t)
    as Hown.
  { intros t0 s0 Ht0. unfold s.
    destruct (headers m !! t) as [st|] eqn:Ht; cbn.
    - intros Hpp. by apply (Hdis t0 t s0 st).
    - destruct (Hok t0 s0 Ht0) as (a0 & arr0 & Hp0 & _). congruence. }
  assert (∀ t0 s0, t0 ≠ t → headers m !! t0 = Some s0 →
            ∀ a, ptr s0 = Some a →
                 (append1 (arrays m) s sub).1 !! a = arrays m !! a) as Hother.
  { intros t0 s0 Hne Ht0 a Ha.
    destruct (Hok t0 s0 Ht0) as (a0 & arr0 & Hp0 & Harr0 & _).
    apply Hfr; [|rewrite Hp0 in Ha; injection Ha as <-; by eauto].
    intros Hst. apply Hne, (Hown t0 s0 Ht0). congruence. }
  assert (∀ t0 s0, t0 ≠ t → headers m !! t0 = Some s0 →
            ptr (append1 (arrays m) s sub).2 ≠ ptr s0) as Hnew.
  { intros t0 s0 Hne Ht0 Hpp.
    destruct (Hok t0 s0 Ht0) as (a0 & arr0 & Hp0 & Harr0 & _).
    destruct Hptr as [Hptr | (a' & Hptr & Hfresh)].
    - apply Hne, (Hown t0 s0 Ht0). congruence.
    - rewrite Hptr, Hp0 in Hpp. injection Hpp as ->. congruence. }
  split; [split|].
  - cbn [arrays headers]. intros t0 s0.
    destruct (decide (t = t0)) as [<- | Hne].
    + rewrite lookup_insert_eq. by intros [= <-].
    + rewrite lookup_insert_ne by done. intros Ht0.
      apply (slice_ok_same_array (arrays m)); [|by apply (Hok t0)].
      by apply (Hother t0 s0).
  - cbn [arrays headers]. intros t1 t2 s1 s2.
    destruct (decide (t = t1)) as [<- | Hne1];
      destruct (decide (t = t2)) as [<- | Hne2];
      rewrite ?lookup_insert_eq, ?lookup_insert_ne by done; try done.
    + intros [= <-] Ht2 Hpp. exfalso. by apply (Hnew t2 s2).
    + intros Ht1 [= <-] Hpp. exfalso. by apply (Hnew t1 s1).
    + apply Hdis.
  - unfold abs_subs. cbn [arrays headers subs set_subs].
    rewrite fmap_insert, Habs', <- Hl. fold sub.
    apply map_eq. intros t0. destruct (decide (t = t0)) as [<- | Hne].
    + by rewrite !lookup_insert_eq.
    + rewrite !lookup_insert_ne by done. rewrite <- Hab, abs_subs_lookup.
      rewrite lookup_fmap. destruct (headers m !! t0) as [s0|] eqn:Ht0; [|done].
      cbn. f_equal. unfold abs_list. f_equal. apply elems_same_array.
      by apply (Hother t0 s0).
Qed.

(** [unsubscribe] in memory does what [unsubscribe] on the map of lists
    does. *)
Lemma unsubscribe_mem_refines sub m e :
  represents m e → represents (unsubscribe1 sub m) (unsubscribe sub e).
Proof.
  intros [[Hok Hdis] Hab]. unfold unsubscribe_mem, unsubscribe.
  rewrite <- Hab, abs_subs_lookup.
  destruct (headers m !! Topic sub) as [s|] eqn:Ht; cbn [fmap option_fmap option_map];
    [|by split].
  destruct (DeleteFunc_spec clear_tail (arrays m) s (ID sub) (Hok _ _ Ht))
    as (Hptr & Habs' & Hlen & Hok' & Hfr).
  cbv zeta.
  assert (∀ t0 s0, t0 ≠ Topic sub → headers m !! t0 = Some s0 →
            ∀ a, ptr s0 = Some a →
                 (delete1 (arrays m) s (ID sub)).1 !! a = arrays m !! a)
    as Hother.
  { intros t0 s0 Hne Ht0 a Ha. apply Hfr. intros Hs. apply Hne.
    apply (Hdis t0 (Topic sub) s0 s); congruence. }
  rewrite Hlen.
  destruct (length (delete_by_id (ID sub) (abs_list (arrays m) s)) =? 0)%nat
    eqn:Hz.
  - split; [split|].
    + cbn [arrays headers]. intros t0 s0 Hs0.
      apply lookup_delete_Some in Hs0 as [Hne Hs0].
      apply (slice_ok_same_array (arrays m)); [|by apply (Hok t0)].
      by apply (Hother t0 s0).
    + cbn [arrays headers]. intros t1 t2 s1 s2 H1 H2.
      apply lookup_delete_Some in H1 as [_ H1].
      apply lookup_delete_Some in H2 as [_ H2]. by apply Hdis.
    + unfold abs_subs. cbn [arrays headers subs set_subs].
      rewrite delete_insert_eq. apply map_eq. intros t0.
      rewrite lookup_fmap. destruct (decide (Topic sub = t0)) as [<- | Hne].
      * by rewrite !lookup_delete_eq.
      * rewrite !lookup_delete_ne by done. rewrite ?lookup_fmap.
        destruct (headers m !! t0) as [s0|] eqn:Ht0; [|done].
        cbn. f_equal. unfold abs_list. f_equal. apply elems_same_array.
        by apply (Hother t0 s0).
  - apply Nat.eqb_neq in Hz. rewrite <- Hlen in Hz. split; [split|].
    + cbn [arrays headers]. intros t0 s0.
      destruct (decide (Topic sub = t0)) as [<- | Hne].
      * rewrite lookup_insert_eq. intros [= <-]. by apply Hok'.
      * rewrite lookup_insert_ne by done. intros Ht0.
        apply (slice_ok_same_array (arrays m)); [|by apply (Hok t0)].
        by apply (Hother t0 s0).
    + cbn [arrays headers]. intros t1 t2 s1 s2.
      destruct (decide (Topic sub = t1)) as [<- | Hne1];
        destruct (decide (Topic sub = t2)) as [<- | Hne2];
        rewrite ?lookup_insert_eq, ?lookup_insert_ne by done; try done.
      * intros [= <-] Ht2 Hpp. rewrite Hptr in Hpp.
        by apply (Hdis _ _ s s2).
      * intros Ht1 [= <-] Hpp. rewrite Hptr in Hpp.
        by apply (Hdis _ _ s1 s).
      * apply Hdis.
    + unfold abs_subs. cbn [arrays headers subs set_subs].
      rewrite fmap_insert, Habs'.
      apply map_eq. intros t0. destruct (decide (Topic sub = t0)) as [<- | Hne].
      * by rewrite !lookup_insert_eq.
      * rewrite !lookup_insert_ne by done. rewrite !lookup_fmap.
        destruct (headers m !! t0) as [s0|] eqn:Ht0; [|done].
        cbn. f_equal. unfold abs_list. f_equal. apply elems_same_array.
        by apply (Hother t0 s0).
Qed.

(** The copy made by [start]: the registry is as before, the slice holds
    the Subscriptions of the topic, and its array is private. *)
Lemma snapshot_mem_spec m e (t : string) :
  represents m e →
  represents (snapshot1 m t).1 e ∧
  elems (arrays (snapshot1 m t).1) (snapshot1 m t).2
  = map Some (snapshot e t) ∧
  slen (snapshot1 m t).2 = length (snapshot e t) ∧
  match ptr (snapshot1 m t).2 with
  | Some a => private a (snapshot1 m t).1
  | None => snapshot e t = []
  end.
Proof.
  intros Hrep.
  destruct (represents_subs_of m e t Hrep) as [Hl Hs].
  destruct Hrep as [[Hok Hdis] Hab].
  unfold snapshot_mem. cbn [fst snd arrays headers].
  set (s := default nil_slice (headers m !! t)) in *.
  destruct (copy_slice_spec growslice (arrays m) s Hs) as (Hel & Hfr & Hptr).
  assert (∀ t0 s0, headers m !! t0 = Some s0 →
            ∀ a, ptr s0 = Some a → (copy1 (arrays m) s).1 !! a = arrays m !! a)
    as Hsame.
  { intros t0 s0 Ht0 a Ha.
    destruct (Hok t0 s0 Ht0) as (a0 & arr0 & Hp0 & Harr0 & _).
    apply Hfr. rewrite Hp0 in Ha. injection Ha as <-. by eauto. }
  assert (elems (arrays m) s = map Some (snapshot e t)) as Hcontent.
  { unfold snapshot. cbn [app]. rewrite Hl. unfold abs_list.
    symmetry. apply omap_id_Some.
    destruct Hs as [Hs | (a & arr & Hp & Ha & _ & Hall)].
    - rewrite Hs. constructor.
    - unfold elems, array_of. by rewrite Hp, Ha. }
  split; [split; [split|]|split; [|split]].
  - cbn [arrays headers]. intros t0 s0 Ht0.
    apply (slice_ok_same_array (arrays m)); [|by apply (Hok t0)].
    by apply (Hsame t0 s0).
  - exact Hdis.
  - rewrite <- Hab. unfold abs_subs. cbn [arrays headers].
    apply map_eq. intros t0. rewrite !lookup_fmap.
    destruct (headers m !! t0) as [s0|] eqn:Ht0; [|done].
    cbn. f_equal. unfold abs_list. f_equal. apply elems_same_array.
    by apply (Hsame t0 s0).
  - by rewrite Hel.
  - assert (slen (copy1 (arrays m) s).2 = slen s) as Hslen.
    { unfold copy_slice. destruct (slen s =? 0)%nat eqn:Hz; cbn; [|done].
      by apply Nat.eqb_eq in Hz. }
    assert (length (elems (arrays m) s) = slen s) as Hel_len.
    { destruct Hs as [-> | (a & arr & Hp & Ha & [_ Hle] & _)]; [done|].
      unfold elems, array_of. rewrite Hp, Ha. cbn. rewrite length_take. lia. }
    by rewrite Hslen, <- Hel_len, Hcontent, length_map.
  - destruct Hptr as [[-> Hz] | (a' & -> & Hnew & Hal)].
    + apply (f_equal length) in Hcontent.
      rewrite length_map in Hcontent. unfold elems in Hcontent.
      rewrite Hz, take_0 in Hcontent. by apply nil_length_inv.
    + split; [done|]. cbn [headers]. intros t0 s0 Ht0 Hp0.
      destruct (Hok t0 s0 Ht0) as (a0 & arr0 & Hq & Harr0 & _). congruence.
Qed.

(** The calls of a schedule of registry calls keep the two in step. *)
Lemma run_mem_refines (muts : list (@Action HandlerFunc any)) : ∀ p p2 m,
  represents m (stream p) →
  forallb is_registry_op muts = true →
  run muts p = Some p2 →
  (run1 muts (subIDCounter p) m).1 = subIDCounter p2 ∧
  represents (run1 muts (subIDCounter p) m).2 (stream p2).
Proof.
  induction muts as [|act muts IH]; intros p p2 m Hrep Hops; cbn [run].
  { by intros [= <-]. }
  cbn in Hops. apply andb_true_iff in Hops as [Hop Hops].
  destruct (exec act p) as [p1|] eqn:Hex; [|done]. cbn [mbind option_bind].
  intros Hrun. apply exec_registry_cases in Hex.
  destruct act; try done; cbn [run_mem]; destruct Hex as [Hst Hc].
  - destruct (subscribe_mem_refines t h now (subIDCounter p) m _ Hrep)
      as [Hsame Hrep'].
    rewrite <- Hst in Hrep'.
    assert ((subscribe1 t h now (subIDCounter p) m).1.2 = subIDCounter p1)
      as -> by (by rewrite Hsame, Hc).
    by apply IH.
  - pose proof (unsubscribe_mem_refines sub m _ Hrep) as Hrep'.
    rewrite <- Hst in Hrep'. rewrite <- Hc. by apply IH.
Qed.

(** Every state of the program has its registry in memory. *)
Lemma reachable_represented (tr : list (@Action HandlerFunc any)) : ∀ p p' m,
  represents m (stream p) → run tr p = Some p' →
  ∃ m', represents m' (stream p').
Proof.
  induction tr as [|act tr IH]; intros p p' m Hrep; cbn [run].
  { intros [= <-]. by exists m. }
  destruct (exec act p) as [p1|] eqn:Hex; [|done]. cbn [mbind option_bind].
  apply exec_registry_cases in Hex.
  assert (∃ m1, represents m1 (stream p1)) as [m1 Hrep1]; [|by apply (IH p1 p' m1)].
  destruct act;
    try (destruct Hex as [[Hs | Hs] _];
         [ exists m; destruct Hrep as [? Hab]; split; [done | by rewrite Hs]
         | exists empty_registry; by apply represents_empty ]).
  - destruct Hex as [-> _]. eexists.
    by apply (subscribe_mem_refines t h now (subIDCounter p) m).
  - destruct Hex as [-> _]. eexists. by apply unsubscribe_mem_refines.
Qed.

End RegistryProperties.

Section SnapshotProperties.

Context {HandlerFunc any : Type}.
Context (growslice : nat → nat → nat) (clear_tail : bool).

Implicit Types (m : @registry HandlerFunc).
Implicit Types (e : @eventStream HandlerFunc any) (p : @Proc HandlerFunc any).
Implicit Types (sub s : @Subscription HandlerFunc) (evt : @event any).
Implicit Types (tr : list (@Action HandlerFunc any)).

Local Abbreviation init_proc := (@init_proc HandlerFunc any).
Local Abbreviation snapshot1 := (@snapshot_mem HandlerFunc growslice).
Local Abbreviation run1 := (@run_mem HandlerFunc any growslice clear_tail).

(** A subscription in the registry that has the id and topic of a handle
    that was absent is one that a later call of [subscribe] returned. *)
Lemma registered_since sub tr : ∀ p p' (acc : list (@Subscription HandlerFunc)),
  (∀ t s, s ∈ subs_of (stream p) t →
          ID s = ID sub → Topic s = Topic sub → s ∈ acc) →
  run tr p = Some p' →
  ∀ t s, s ∈ subs_of (stream p') t →
         ID s = ID sub → Topic s = Topic sub →
         s ∈ acc ++ returned_subs tr p.
Proof.
  induction tr as [|a tr IH]; intros p p' acc Hacc; cbn [run returned_subs].
  { intros [= <-] t s Hs Hid Ht. rewrite app_nil_r. by apply (Hacc t). }
  destruct (exec a p) as [p1|] eqn:Ha; [|done]. cbn [mbind option_bind].
  intros Hrun. apply exec_registry_cases in Ha.
  destruct a;
    try (cbn [app]; destruct Ha as [[Hs | Hs] _];
         (apply (IH p1 p' acc); [|done]);
         intros t0 s0; unfold subs_of; rewrite Hs;
         [ apply Hacc | rewrite lookup_empty; by intros ?%not_elem_of_nil ]).
  - destruct Ha as [Hst _]. rewrite app_assoc.
    apply (IH p1 p' (acc ++ [(subscribe t h now (subIDCounter p) (stream p)).1.1]));
      [|done].
    intros t0 s0. rewrite Hst, subscribe_subs_of. case_decide.
    + subst t0. intros Hs Hid Ht. apply elem_of_app.
      apply elem_of_app in Hs as [Hs | Hs]; [left; by apply (Hacc t)|].
      right. exact Hs.
    + intros Hs Hid Ht. apply elem_of_app. left. by apply (Hacc t0).
  - destruct Ha as [Hst _]. cbn [app]. apply (IH p1 p' acc); [|done].
    intros t0 s0. rewrite Hst, unsubscribe_subs_of. case_decide.
    + rewrite elem_of_delete_by_id. intros [Hs _]. by apply (Hacc t0).
    + apply Hacc.
Qed.

(** A round of the [for range] leaves the registry and the counter. *)
Lemma exec_spawn_registry p p' :
  exec ALoopSpawn p = Some p' →
  subs (stream p') = subs (stream p) ∧ subIDCounter p' = subIDCounter p.
Proof.
  unfold exec. destruct (crashed p); [done|]. cbn. unfold start_spawn.
  destruct (loop p) as [| |[|s rest] msg|]; try done. by intros [= <-].
Qed.

Lemma spawn_count_registry_ops tr :
  forallb is_registry_or_spawn tr = true → spawn_count tr = 0%nat →
  forallb is_registry_op tr = true.
Proof.
  unfold spawn_count. induction tr as [|a tr IH]; [done|]. cbn.
  intros [Ha Hall]%andb_true_iff. unfold is_registry_or_spawn in Ha.
  destruct (is_loop_spawn a); [done|]. rewrite orb_false_r in Ha.
  intros Hc. rewrite Ha. cbn. by apply IH.
Qed.

(** The calls of [subscribe] and [unsubscribe] that come between the
    rounds of the [for range] do not change which invocations it starts:
    after [k] rounds, one for each of the first [k] handlers of the
    snapshot. *)
Lemma run_spawn_interleaved (msg : any) tr : ∀ p handlers,
  crashed p = false →
  match handlers with [] => True | _ => loop p = LSpawn handlers msg end →
  forallb is_registry_or_spawn tr = true →
  (spawn_count tr ≤ length handlers)%nat →
  ∃ p', run tr p = Some p' ∧ crashed p' = false ∧
        running p' = running p
                     ++ map (λ s, (s, msg)) (take (spawn_count tr) handlers).
Proof.
  induction tr as [|a tr IH]; intros p handlers Hcr Hl Hall Hc.
  { exists p. split; [done|]. split; [done|]. cbn. by rewrite app_nil_r. }
  cbn in Hall. apply andb_true_iff in Hall as [Ha Hall].
  unfold is_registry_or_spawn in Ha. apply orb_true_iff in Ha as [Ha | Ha].
  - destruct (exec_registry_op a p Ha Hcr) as (p1 & Hex & Hl1 & Hr1 & _ & Hcr1 & _).
    assert (spawn_count (a :: tr) = spawn_count tr) as Heq.
    { unfold spawn_count. cbn. by destruct a. }
    rewrite Heq in *. cbn [run]. rewrite Hex. cbn [mbind option_bind].
    destruct (IH p1 handlers) as (p' & Hrun & Hcr' & Hr'); try done.
    + congruence.
    + destruct handlers; [done|]. congruence.
    + exists p'. split; [done|]. split; [done|]. by rewrite Hr', Hr1.
  - destruct a; try done.
    assert (spawn_count (ALoopSpawn :: tr) = S (spawn_count tr)) as Heq by done.
    rewrite Heq in *. destruct handlers as [|s rest]; [cbn in Hc; lia|].
    cbn [run]. unfold exec at 1. rewrite Hcr. unfold start_spawn. rewrite Hl.
    cbn [mbind option_bind].
    match goal with |- ∃ p', run tr ?q = Some p' ∧ _ =>
      destruct (IH q rest) as (p' & Hrun & Hcr' & Hr')
    end.
    + done.
    + by destruct rest.
    + done.
    + cbn in Hc. lia.
    + exists p'. split; [exact Hrun|]. split; [done|].
      rewrite Hr'. cbn. by rewrite <- app_assoc.
Qed.

(** The registry in memory follows such a schedule. *)
Lemma run_mem_refines_spawn tr : ∀ p p2 m,
  represents m (stream p) →
  forallb is_registry_or_spawn tr = true →
  run tr p = Some p2 →
  represents (run1 tr (subIDCounter p) m).2 (stream p2).
Proof.
  induction tr as [|a tr IH]; intros p p2 m Hrep Hall; cbn [run].
  { by intros [= <-]. }
  cbn in Hall. apply andb_true_iff in Hall as [Ha Hall].
  destruct (exec a p) as [p1|] eqn:Hex; [|done]. cbn [mbind option_bind].
  intros Hrun.
  unfold is_registry_or_spawn in Ha. apply orb_true_iff in Ha as [Ha | Ha].
  - destruct (run_mem_refines growslice clear_tail [a] p p1 m Hrep) as [Hc Hrep1].
    { cbn. by rewrite Ha. }
    { cbn. by rewrite Hex. }
    specialize (IH p1 p2 _ Hrep1 Hall Hrun). rewrite <- Hc in IH.
    destruct a; try done.
  - destruct a; try done. cbn [run_mem].
    destruct (exec_spawn_registry p p1 Hex) as [Hs Hc].
    rewrite <- Hc. apply IH; [|done|done].
    destruct Hrep as [Hok Hab]. split; [done|]. by rewrite Hs.
Qed.

(** C5: when the loop has received an event, the handlers it will invoke
    are those registered for the topic at its snapshot.  The registry has a
    representation in memory, and in every one the slice that [start]
    makes holds the topic's Subscriptions, as many as its length says, in
    an array that no header of the registry points to.  Whatever calls of
    [subscribe] and [unsubscribe] come after the snapshot, before and
    between the rounds of the [for range], that array is not written to,
    and the invocations started after [k] rounds are one for each of the
    first [k] Subscriptions in it, in its order, with the event's message.
    And after an [unsubscribe] earlier in the schedule, its handle is out
    of the registry, and a Subscription with that id and topic in the
    snapshot is one that a call of [subscribe] made after the
    [unsubscribe] has returned; there is none when the counter has not
    wrapped in between. *)
Theorem snapshot_is_point_in_time tr p evt :
  run tr init_proc = Some p → crashed p = false → loop p = LGot evt →
  let handlers := subs_of (stream p) (topic evt) in
  (∃ m, represents m (stream p)) ∧
  (∀ m, represents m (stream p) →
     let m1 := (snapshot1 m (topic evt)).1 in
     let sl := (snapshot1 m (topic evt)).2 in
     ∃ p1, exec ALoopSnapshot p = Some p1 ∧
       represents m1 (stream p1) ∧
       elems (arrays m1) sl = map Some handlers ∧
       slen sl = length handlers ∧
       match ptr sl with Some a => private a m1 | None => handlers = [] end ∧
       ∀ tr', forallb is_registry_or_spawn tr' = true →
         (spawn_count tr' ≤ slen sl)%nat →
         let m2 := (run1 tr' (subIDCounter p1) m1).2 in
         ∃ p2,
           run tr' p1 = Some p2 ∧ crashed p2 = false ∧
           represents m2 (stream p2) ∧
           elems (arrays m2) sl = map Some handlers ∧
           running p2
           = running p
             ++ map (λ s, (s, message evt)) (take (spawn_count tr') handlers)) ∧
  (∀ tr1 tr2 pa pb sub,
     tr = tr1 ++ AUnsubscribe sub :: tr2 →
     run tr1 init_proc = Some pa →
     exec (AUnsubscribe sub) pa = Some pb →
     absent sub (stream pb) ∧
     (∀ s, s ∈ handlers → ID s = ID sub → Topic s = Topic sub →
           s ∈ returned_subs tr2 pb) ∧
     (ID sub ≤ subIDCounter pa →
      subIDCounter pa + subscribe_count tr2 < uint64_mod →
      ∀ s, s ∈ handlers → ¬ (ID s = ID sub ∧ Topic s = Topic sub))).
Proof.
  intros Hrun Hcr Hl handlers. split; [|split].
  - apply (reachable_represented growslice clear_tail tr init_proc p
             empty_registry); [|done].
    by apply represents_empty.
  - intros m Hrep m1 sl.
    destruct (snapshot_mem_spec growslice m (stream p) (topic evt) Hrep)
      as (Hrep1 & Hcontent & Hslen & Hpriv).
    unfold snapshot in Hcontent, Hslen, Hpriv. cbn [app] in Hcontent, Hslen, Hpriv.
    fold handlers in Hcontent, Hslen, Hpriv. fold m1 sl in Hrep1, Hcontent, Hslen, Hpriv.
    assert (∃ p1, exec ALoopSnapshot p = Some p1 ∧ stream p1 = stream p ∧
              crashed p1 = false ∧ running p1 = running p ∧
              subIDCounter p1 = subIDCounter p ∧
              match handlers with
              | [] => True
              | _ => loop p1 = LSpawn handlers (message evt)
              end)
      as (p1 & Hex & Hst1 & Hcr1 & Hr1 & Hc1 & Hloop1).
    { unfold exec. rewrite Hcr. unfold start_snapshot. rewrite Hl.
      unfold snapshot. cbn [app]. fold handlers.
      destruct handlers as [|s0 rest] eqn:Hh.
      - eexists. split; [done|]. by repeat split.
      - eexists. split; [done|]. by repeat split. }
    exists p1. split; [done|]. split; [by rewrite Hst1|].
    split; [done|]. split; [done|]. split; [done|].
    intros tr' Hall Hcount m2. rewrite Hslen in Hcount.
    destruct (run_spawn_interleaved (message evt) tr' p1 handlers Hcr1 Hloop1
                Hall Hcount) as (p2 & Hrun2 & Hcr2 & Hr2).
    exists p2. split; [done|]. split; [done|]. split.
    { apply (run_mem_refines_spawn tr' p1 p2 m1); [by rewrite Hst1|done|done]. }
    split.
    { rewrite <- Hcontent. apply elems_same_array. intros a Ha.
      rewrite Ha in Hpriv.
      exact (proj1 (private_run_mem growslice clear_tail tr'
                      (subIDCounter p1) m1 a Hpriv)). }
    by rewrite Hr2, Hr1.
  - intros tr1 tr2 pa pb sub -> Hruna Hb.
    rewrite run_app, Hruna in Hrun. cbn in Hrun. rewrite Hb in Hrun.
    cbn in Hrun.
    assert (Inv pa) as Hinva by (eapply reachable_Inv; by exists tr1).
    assert (Inv pb) as Hinvb by (by eapply Inv_exec).
    pose proof Hb as Hb'.
    apply exec_registry_cases in Hb' as [Hsb Hcb].
    assert (absent sub (stream pb)) as Habs.
    { rewrite Hsb. apply unsubscribe_absent, (inv_topics _ Hinva). }
    split; [done|]. split.
    + intros s Hs Hid Ht.
      apply (registered_since sub tr2 pb p [] ) with (t := topic evt);
        try done.
      intros t0 s0 Hs0 Hid0 Ht0. exfalso. by apply (Habs t0 s0).
    + intros Hid Hcnt s Hs.
      eapply (absent_run sub tr2 pb p); [done|done| | |done|exact Hs]; lia.
Qed.

End SnapshotProperties.


(** ** The same on concrete schedules *)

Lemma registered_ids_unique_witness :
  ∃ p : @Proc nat string,
    run dispatch_schedule init_proc = Some p ∧
    subscribe_count dispatch_schedule < uint64_mod ∧
    NoDup (map ID (subs_of (stream p) "t")).
Proof.
  eexists. split; [vm_compute; reflexivity|]. split; [reflexivity|].
  apply (registered_ids_unique dispatch_schedule);
    [vm_compute; reflexivity | reflexivity].
Defined.

Lemma unsubscribe_removes_only_sub_witness :
  ∃ p : @Proc nat string,
    run two_topics_schedule init_proc = Some p ∧
    subscribe_count two_topics_schedule < uint64_mod ∧
    subs_of (stream p) "t" = [] ++ mk_sub 1 "t" 10 1%nat :: [mk_sub 2 "t" 20 2%nat] ∧
    subs_of (unsubscribe (mk_sub 1 "t" 10 1%nat) (stream p)) "t"
    = [] ++ [mk_sub 2 "t" 20 2%nat].
Proof.
  eexists. split; [vm_compute; reflexivity|]. split; [reflexivity|].
  split; [reflexivity|].
  apply (unsubscribe_removes_only_sub
           two_topics_schedule _ (mk_sub 1 "t" 10 1%nat) []
           [mk_sub 2 "t" 20 2%nat]);
    [vm_compute; reflexivity | reflexivity | reflexivity].
Defined.

Lemma unsubscribe_absent_is_noop_witness :
  ∃ p : @Proc nat string,
    run dispatch_schedule init_proc = Some p ∧
    unsubscribe (mk_sub 7 "nowhere" 0 0%nat)
      (unsubscribe (mk_sub 7 "nowhere" 0 0%nat) (stream p))
    = unsubscribe (mk_sub 7 "nowhere" 0 0%nat) (stream p).
Proof.
  eexists. split; [vm_compute; reflexivity|].
  apply (unsubscribe_absent_is_noop dispatch_schedule).
  vm_compute; reflexivity.
Defined.

Lemma subscribe_unsubscribe_roundtrip_witness :
  ∃ p : @Proc nat string,
    run dispatch_schedule init_proc = Some p ∧
    crashed p = false ∧
    subscribe_count dispatch_schedule + 1 < uint64_mod ∧
    ∃ p', run [ASubscribe "u" 2%nat 5; AUnsubscribe (mk_sub 2 "u" 5 2%nat)] p
          = Some p' ∧
          stream p' = stream p.
Proof.
  eexists. split; [vm_compute; reflexivity|]. split; [reflexivity|].
  split; [reflexivity|].
  destruct (subscribe_unsubscribe_roundtrip dispatch_schedule _
              "u" 2%nat 5 ltac:(vm_compute; reflexivity) ltac:(reflexivity)
              ltac:(reflexivity))
    as (p' & Hrun & Hs & _).
  exists p'. split; [exact Hrun | exact Hs].
Defined.



Lemma shutdown_is_final_witness :
  ∃ p : @Proc nat string,
    run stop_schedule init_proc = Some p ∧
    ∃ p', run after_stop_schedule p = Some p' ∧
          (closed (stream p) = true → closed (stream p') = true).
Proof.
  eexists. split; [vm_compute; reflexivity|].
  eexists. split; [vm_compute; reflexivity|].
  refine (proj1 (shutdown_is_final after_stop_schedule _ _ _)).
  vm_compute; reflexivity.
Defined.

Lemma stop_waits_for_running_handlers_witness :
  ∃ p0 p1 p : @Proc nat string,
    run (take 4 stop_schedule) init_proc = Some p0 ∧
    stopping p0 !! 0%nat = Some SWait ∧
    exec (AStopStep 0) p0 = Some p1 ∧
    stopping p1 !! 0%nat = Some SClear ∧
    (running p0 = [] ∧ running p1 = [] ∧
     closed (stream p0) = true ∧ ctx_done (stream p0) = true ∧
     eventch_closed (stream p0) = true) ∧
    run stop_schedule init_proc = Some p ∧
    stopping p !! 0%nat = Some SReturned ∧
    closed (stream p) = true ∧ ctx_done (stream p) = true ∧
    eventch_closed (stream p) = true.
Proof.
  eexists _, _, _. split; [vm_compute; reflexivity|]. split; [reflexivity|].
  split; [vm_compute; reflexivity|]. split; [reflexivity|].
  split.
  { eapply (proj1 (stop_waits_for_running_handlers (take 4 stop_schedule) _
                     0%nat ltac:(vm_compute; reflexivity)));
      [left; reflexivity | vm_compute; reflexivity | reflexivity]. }
  split; [vm_compute; reflexivity|]. split; [reflexivity|].
  apply (stop_waits_for_running_handlers stop_schedule _ 0%nat);
    [vm_compute; reflexivity | reflexivity].
Defined.

Lemma emit_racing_stop_panics_witness :
  ∃ p : @Proc nat string,
    run two_topics_schedule init_proc = Some p ∧
    crashed p = false ∧ stopOnce (stream p) = OnceFresh ∧
    ∃ p1 p2,
      run (AEmitCheck "t" "x" :: AStopCall :: replicate 3 (AStopStep 0)) p
      = Some p1 ∧
      exec (AEmitSend (length (emitting p))) p1 = Some p2 ∧
      crashed p2 = true.
Proof.
  eexists. split; [vm_compute; reflexivity|]. split; [reflexivity|].
  split; [reflexivity|].
  destruct (emit_racing_stop_panics two_topics_schedule _
              "t" "x" ltac:(vm_compute; reflexivity) ltac:(reflexivity)
              ltac:(reflexivity))
    as (p1 & p2 & Hrun & _ & _ & Hex & Hcr & _).
  exists p1, p2. split; [exact Hrun|]. split; [exact Hex | exact Hcr].
Defined.

Lemma loop_returns_after_cancel_witness :
  ∃ p : @Proc nat string,
    run cancelled_schedule init_proc = Some p ∧
    crashed p = false ∧ ctx_done (stream p) = true ∧
    ∃ tr' p', forallb is_loop_step tr' = true ∧
              run tr' p = Some p' ∧ loop p' = LExited.
Proof.
  eexists. split; [vm_compute; reflexivity|]. split; [reflexivity|].
  split; [reflexivity|].
  destruct (loop_returns_after_cancel cancelled_schedule _
              ltac:(vm_compute; reflexivity) ltac:(reflexivity)
              ltac:(reflexivity))
    as (tr' & p' & H1 & H2 & _ & H3 & _).
  exists tr', p'. split; [exact H1|]. split; [exact H2 | exact H3].
Defined.

(** The counter and the topic "t" through [n] rounds of churn. *)
Lemma churn_keeps (n : nat) : ∀ (c : Z) (p : @Proc nat string),
  crashed p = false → subIDCounter p = c → 0 ≤ c < uint64_mod →
  ∃ p', run (churn n c) p = Some p' ∧ crashed p' = false ∧
        subIDCounter p' = (c + Z.of_nat n) mod uint64_mod ∧
        subs_of (stream p') "t" = subs_of (stream p) "t".
Proof.
  induction n as [|n IH]; intros c p Hcr Hc Hrange.
  - exists p. cbn [churn run]. split; [done|]. split; [done|].
    rewrite Z.add_0_r, Z.mod_small; done.
  - cbn [churn run]. rewrite exec_subscribe by done.
    cbn [mbind option_bind]. rewrite exec_unsubscribe by done.
    cbn [mbind option_bind].
    edestruct (IH (subID_add1 c)) as (p' & -> & Hcr' & Hc' & Hs');
      [| |apply subID_add1_range|].
    + cbn. exact Hcr.
    + cbn. by rewrite Hc.
    + exists p'. split; [done|]. split; [done|]. split.
      * rewrite Hc'. unfold subID_add1. rewrite Zplus_mod_idemp_l.
        f_equal. lia.
      * rewrite Hs'. cbn [stream set_stream set_subIDCounter].
        rewrite unsubscribe_subs_of. cbn [Topic].
        rewrite decide_False by done.
        rewrite subscribe_subs_of. by rewrite decide_False.
Qed.

(** C10: the claim fails in two ways.  An event buffered when [stop]
    returned is still dispatched, and to a handler that subscribed after
    [stop] had returned.  And the id of a subscription made after [stop]
    is not always new: the 2^64-th call of [subscribe] after the one that
    returned id 1 returns id 1 again, while that subscription is still
    registered under the same topic. *)
Lemma subscribe_after_stop_dispatches :
  (∃ p0 p : @Proc nat string,
     run buffered_stop_schedule init_proc = Some p0 ∧
     stopping p0 = [SReturned] ∧ subs (stream p0) = ∅ ∧ running p0 = [] ∧
     run late_subscriber_schedule p0 = Some p ∧ crashed p = false ∧
     running p = [(mk_sub 1 "t" 100 1%nat, "x")]) ∧
  (∃ p0 p : @Proc nat string,
     run stop_schedule init_proc = Some p0 ∧ stopping p0 = [SReturned] ∧
     (subscribe "t" 1%nat 0 (subIDCounter p0) (stream p0)).1.1
     = mk_sub 1 "t" 0 1%nat ∧
     run wrap_after_stop_schedule p0 = Some p ∧ crashed p = false ∧
     mk_sub 1 "t" 0 1%nat ∈ subs_of (stream p) "t" ∧
     (subscribe "t" 2%nat 0 (subIDCounter p) (stream p)).1.1
     = mk_sub 1 "t" 0 2%nat).
Proof.
  split.
  - eexists _, _. split; [vm_compute; reflexivity|].
    do 3 (split; [reflexivity|]).
    split; [vm_compute; reflexivity|]. split; reflexivity.
  - eexists.
    assert (∃ n, Z.of_nat n = uint64_mod - 1 ∧ Z.to_nat (uint64_mod - 1) = n)
      as (n & Hn & Hn').
    { exists (Z.to_nat (uint64_mod - 1)). split; [|done].
      apply Z2Nat.id. unfold uint64_mod. lia. }
    unfold wrap_after_stop_schedule. rewrite Hn'.
    match goal with |- ∃ p, run ?tr ?i = Some ?p0 ∧ _ =>
      assert (run tr i = Some p0) as Hp0 by (vm_compute; reflexivity)
    end.
    match type of Hp0 with _ = Some ?q => set (p0 := q) in * end.
    set (p1 := set_stream (subscribe "t" 1%nat 0 (subIDCounter p0) (stream p0)).2
                 (set_subIDCounter (subID_add1 (subIDCounter p0)) p0)).
    destruct (churn_keeps n 1 p1) as (p2 & Hrun & Hcr2 & Hc2 & Hs2);
      [done|done|unfold uint64_mod; lia|].
    exists p2. split; [exact Hp0|]. split; [reflexivity|].
    split; [reflexivity|]. split.
    { cbn [run]. rewrite exec_subscribe by done. exact Hrun. }
    split; [done|]. split.
    { rewrite Hs2. apply list_elem_of_singleton. reflexivity. }
    unfold subscribe. cbn [fst]. f_equal. rewrite Hc2.
    unfold subID_add1. rewrite Zplus_mod_idemp_l.
    replace (1 + Z.of_nat n + 1) with (uint64_mod + 1) by lia.
    unfold uint64_mod. reflexivity.
Qed.

(** C10: [subscribe] on the state [stop_schedule] leaves. *)
Lemma subscribe_after_stop_witness :
  ∃ p : @Proc nat string, run stop_schedule init_proc = Some p ∧
       crashed p = false ∧
       (SReturned ∈ stopping p) ∧
       subscribe_count stop_schedule + 1 < uint64_mod ∧
       subs (stream p) = ∅ ∧
       closed (stream p) = true ∧
       ∃ p', exec (ASubscribe "t" 1%nat 100) p = Some p' ∧
             subs (stream p') = {[ "t" := [mk_sub 1 "t" 100 1%nat] ]}.
Proof.
  eexists. split; [vm_compute; reflexivity|].
  split; [reflexivity|]. split; [by left|]. split; [reflexivity|].
  split; [reflexivity|].
  destruct (subscribe_after_stop stop_schedule _ "t" 1%nat 100
              ltac:(vm_compute; reflexivity) ltac:(reflexivity)
              ltac:(by left) ltac:(reflexivity))
    as (_ & Hcl & _ & _ & _ & p' & Hex & _ & _ & Hsingle & _).
  split; [exact Hcl|]. exists p'. split; [exact Hex|].
  apply Hsingle. reflexivity.
Defined.

(** Without the copy the loop would see the registry change: with
    [handlers := e.subs[evt.topic]] an [unsubscribe] moves the second
    handler to the front of the array under the loop and clears what is
    behind, while the array of the copy stays as it was. *)
Lemma alias_sees_unsubscribe :
  let alias := alias_mem two_handlers_mem "t" in
  let copy := snapshot_mem grow_double two_handlers_mem "t" in
  let sub1 := mk_sub 1 "t" 100 1%nat in
  let sub2 := mk_sub 2 "t" 200 2%nat in
  elems (arrays two_handlers_mem) alias = [Some sub1; Some sub2] ∧
  elems (arrays (unsubscribe_mem true sub1 two_handlers_mem)) alias
  = [Some sub2; None] ∧
  elems (arrays (unsubscribe_mem false sub1 two_handlers_mem)) alias
  = [Some sub2; Some sub2] ∧
  elems (arrays copy.1) copy.2 = [Some sub1; Some sub2] ∧
  elems (arrays (unsubscribe_mem true sub1 copy.1)) copy.2
  = [Some sub1; Some sub2] ∧
  elems (arrays (unsubscribe_mem false sub1 copy.1)) copy.2
  = [Some sub1; Some sub2].
Proof. vm_compute. repeat split; reflexivity. Qed.

(** C5: on [unsubscribed_schedule] the snapshot holds the second and the
    third subscriber.  A subscriber added and the third one removed while
    the loop goes through the snapshot change nothing: the array of the
    snapshot stays as it was and both handlers are invoked; the first
    subscriber, who unsubscribed before, is not. *)
Lemma snapshot_is_point_in_time_witness :
  ∃ p : @Proc nat string,
    run unsubscribed_schedule init_proc = Some p ∧
    crashed p = false ∧
    loop p = LGot (mk_event "t" "x") ∧
    subs_of (stream p) "t" = [mk_sub 2 "t" 200 2%nat; mk_sub 3 "t" 300 3%nat] ∧
    (∀ s, s ∈ subs_of (stream p) "t" → ¬ (ID s = 1 ∧ Topic s = "t")) ∧
    ∃ (m : @registry nat) p1 p2,
      represents m (stream p) ∧
      exec ALoopSnapshot p = Some p1 ∧
      run late_registry_calls p1 = Some p2 ∧
      subs_of (stream p2) "t"
      = [mk_sub 2 "t" 200 2%nat; mk_sub 4 "t" 400 4%nat] ∧
      elems (arrays (run_mem grow_double true late_registry_calls
                       (subIDCounter p1)
                       (snapshot_mem grow_double m "t").1).2)
            (snapshot_mem grow_double m "t").2
      = [Some (mk_sub 2 "t" 200 2%nat); Some (mk_sub 3 "t" 300 3%nat)] ∧
      running p2 = [(mk_sub 2 "t" 200 2%nat, "x"); (mk_sub 3 "t" 300 3%nat, "x")].
Proof.
  eexists. split; [vm_compute; reflexivity|].
  split; [reflexivity|]. split; [reflexivity|]. split; [reflexivity|].
  destruct (snapshot_is_point_in_time grow_double true unsubscribed_schedule
              _ (mk_event "t" "x")
              ltac:(vm_compute; reflexivity) ltac:(reflexivity)
              ltac:(reflexivity))
    as ((m & Hm) & Hcopy & Hunsub).
  split.
  - edestruct (Hunsub [ASubscribe "t" 1%nat 100; ASubscribe "t" 2%nat 200;
                       ASubscribe "t" 3%nat 300]
                 [AEmitCheck "t" "x"; AEmitSend 0; ALoopRecv])
      as (_ & Hsince & _);
      [reflexivity | vm_compute; reflexivity | vm_compute; reflexivity |].
    intros s Hs [Hid Ht]. specialize (Hsince s Hs Hid Ht).
    vm_compute in Hsince. by apply elem_of_nil in Hsince.
  - destruct (Hcopy m Hm) as (p1 & Hex & _ & _ & Hlen & _ & Hmuts).
    destruct (Hmuts late_registry_calls ltac:(reflexivity))
      as (p2 & Hrun2 & _ & _ & Hel & Hr2).
    { rewrite Hlen. vm_compute. lia. }
    exists m, p1, p2. split; [exact Hm|]. split; [exact Hex|].
    split; [exact Hrun2|]. split.
    { vm_compute in Hex. injection Hex as <-.
      vm_compute in Hrun2. injection Hrun2 as <-. reflexivity. }
    split; [exact Hel|]. exact Hr2.
Defined.

(** * More of the source: the installer and package [ui] *)

(** ** [strings.Split] and [strings.Join] *)

Lemma Split_nonempty s sep : Split s sep ≠ [].
Proof.
  destruct s as [|c s]; cbn; [done|].
  case_bool_decide; [done|]. by destruct (Split s sep).
Qed.

Lemma Split_no_sep s sep : Forall (λ piece, sep ∉ piece) (Split s sep).
Proof.
  induction s as [|c s IH]; cbn.
  - repeat constructor. by intros ?%not_elem_of_nil.
  - case_bool_decide as Hc.
    + constructor; [|done]. by intros ?%not_elem_of_nil.
    + destruct (Split s sep) as [|piece pieces].
      * repeat constructor. rewrite list_elem_of_singleton. congruence.
      * apply Forall_cons in IH as [Hp Hps]. constructor; [|done].
        rewrite elem_of_cons. intros [?|?]; [congruence | done].
Qed.

(** Joining what was split gives the string back. *)
Lemma Join_Split s sep : Join (Split s sep) [sep] = s.
Proof.
  induction s as [|c s IH]; cbn; [done|].
  case_bool_decide as Hc.
  - subst c. pose proof (Split_nonempty s sep) as Hne.
    destruct (Split s sep) as [|piece pieces]; [done|].
    cbn [Join app]. cbn in IH. by rewrite IH.
  - pose proof (Split_nonempty s sep) as Hne.
    destruct (Split s sep) as [|piece pieces]; [done|].
    destruct pieces as [|piece' pieces']; cbn in *; by rewrite IH.
Qed.

Lemma Split_app_no_sep piece s sep :
  sep ∉ piece →
  Split (piece ++ s) sep
  = match Split s sep with
    | p :: ps => (piece ++ p) :: ps
    | [] => [piece]
    end.
Proof.
  intros Hp. induction piece as [|c piece IH]; cbn.
  - pose proof (Split_nonempty s sep). by destruct (Split s sep).
  - rewrite bool_decide_eq_false_2; [|intros ->; apply Hp; by left].
    rewrite IH; [|intros ?; apply Hp; by right].
    pose proof (Split_nonempty s sep). by destruct (Split s sep).
Qed.

Lemma Join_cons_cons x y rest sep :
  Join (x :: y :: rest) sep = x ++ sep ++ Join (y :: rest) sep.
Proof. reflexivity. Qed.

(** Splitting what was joined gives the pieces back, when no piece holds
    the separator. *)
Lemma Split_Join pieces sep :
  pieces ≠ [] → Forall (λ piece, sep ∉ piece) pieces →
  Split (Join pieces [sep]) sep = pieces.
Proof.
  induction pieces as [|piece pieces IH]; intros Hne Hall; [done|].
  apply Forall_cons in Hall as [Hp Hps].
  destruct pieces as [|piece' pieces'].
  - cbn. rewrite <- (app_nil_r piece) at 1.
    rewrite Split_app_no_sep by done. cbn. by rewrite app_nil_r.
  - rewrite Join_cons_cons, Split_app_no_sep by done.
    cbn [app Split]. rewrite bool_decide_eq_true_2 by done.
    rewrite IH by done. by rewrite app_nil_r.
Qed.

(** ** [strings.HasPrefix] and [strings.Contains] *)

Lemma HasPrefix_spec s p : HasPrefix s p = true ↔ ∃ post, s = p ++ post.
Proof.
  unfold HasPrefix. rewrite andb_true_iff, Nat.leb_le, bool_decide_eq_true.
  split.
  - intros [_ Ht]. exists (drop (length p) s).
    by rewrite <- Ht at 1; rewrite take_drop.
  - intros [post ->]. rewrite length_app, take_app_length. split; [lia|done].
Qed.

Lemma HasPrefix_app p post : HasPrefix (p ++ post) p = true.
Proof. apply HasPrefix_spec. by exists post. Qed.

Lemma Contains_spec s p :
  Contains s p = true ↔ ∃ pre post, s = pre ++ p ++ post.
Proof.
  induction s as [|c s IH]; cbn [Contains]; rewrite orb_true_iff, HasPrefix_spec.
  - split.
    + intros [[post E]|?]; [|done]. by exists [], post.
    + intros (pre & post & E). left. destruct pre; [by exists post|done].
  - rewrite IH. split.
    + intros [[post E]|(pre & post & E)].
      * by exists [], post.
      * exists (c :: pre), post. by rewrite E.
    + intros (pre & post & E). destruct pre as [|c' pre].
      * left. by exists post.
      * right. exists pre, post. by injection E.
Qed.

Lemma Contains_substring pre mid post p :
  Contains mid p = true → Contains (pre ++ mid ++ post) p = true.
Proof.
  rewrite !Contains_spec. intros (a & b & ->).
  exists (pre ++ a), (b ++ post). by rewrite <- !app_assoc.
Qed.

(** A string without the first byte of [p] does not contain [p]. *)
Lemma Contains_no_first c p s : c ∉ s → Contains s (c :: p) = false.
Proof.
  intros Hc. apply not_true_is_false. rewrite Contains_spec.
  intros (pre & post & ->). apply Hc.
  rewrite elem_of_app. right. by left.
Qed.

(** A string found in two parts with [sep] between them, and without
    [sep] itself, is found in one of the parts. *)
Lemma Contains_app_sep x sep r p :
  p ≠ [] → sep ∉ p →
  Contains (x ++ sep :: r) p = true →
  Contains x p = true ∨ Contains r p = true.
Proof.
  intros Hne Hsep. rewrite !Contains_spec. intros (pre & post & E).
  apply app_eq_inv in E as [(k & -> & E)|(k & -> & E)].
  - symmetry in E. apply app_eq_inv in E as [(k' & -> & E)|(k' & -> & E)].
    + left. by exists pre, k'.
    + destruct k' as [|c k'].
      * left. exists pre, []. by rewrite !app_nil_r.
      * cbn [app] in E. injection E as <- _. exfalso. apply Hsep.
        rewrite elem_of_app. right. by left.
  - destruct k as [|c k].
    + destruct p as [|c p]; [done|]. cbn [app] in E. injection E as <- _.
      exfalso. apply Hsep. by left.
    + cbn [app] in E. injection E as _ ->. right. by exists k, post.
Qed.

Lemma elem_of_Join_substring pieces sep ln :
  ln ∈ pieces → ∃ pre post, Join pieces sep = pre ++ ln ++ post.
Proof.
  induction pieces as [|x pieces IH]; intros Hin; [by apply elem_of_nil in Hin|].
  destruct pieces as [|y rest].
  - apply list_elem_of_singleton in Hin as ->. exists [], []. cbn.
    by rewrite app_nil_r.
  - rewrite Join_cons_cons. apply elem_of_cons in Hin as [->|Hin].
    + by exists [], (sep ++ Join (y :: rest) sep).
    + destruct (IH Hin) as (pre & post & ->).
      exists (x ++ sep ++ pre), post. by rewrite <- !app_assoc.
Qed.

(** A line of a string is a part of it. *)
Lemma Split_line_contains s ln p :
  ln ∈ Split s nl → Contains ln p = true → Contains s p = true.
Proof.
  intros Hin Hp. destruct (elem_of_Join_substring _ [nl] _ Hin) as (pre & post & E).
  rewrite Join_Split in E. rewrite E. by apply Contains_substring.
Qed.

Lemma Contains_Join pieces sep p :
  p ≠ [] → sep ∉ p →
  Contains (Join pieces [sep]) p = true →
  ∃ ln, ln ∈ pieces ∧ Contains ln p = true.
Proof.
  intros Hne Hsep. induction pieces as [|x pieces IH]; intros Hc.
  { cbn in Hc. rewrite orb_false_r in Hc. apply HasPrefix_spec in Hc as [post E].
    by destruct p. }
  destruct pieces as [|y rest].
  - exists x. split; [by left|done].
  - rewrite Join_cons_cons in Hc. cbn [app] in Hc.
    apply Contains_app_sep in Hc as [Hc|Hc]; [| |done|done].
    + exists x. split; [by left|done].
    + destruct (IH Hc) as (ln & Hin & Hln). exists ln. split; [by right|done].
Qed.

Lemma Split_app_sep a b sep :
  Split (a ++ sep :: b) sep = Split a sep ++ Split b sep.
Proof.
  induction a as [|c a IH]; cbn.
  - by rewrite bool_decide_eq_true_2.
  - rewrite IH. case_bool_decide; [done|].
    pose proof (Split_nonempty a sep). by destruct (Split a sep).
Qed.

Lemma Split_one piece sep : sep ∉ piece → Split piece sep = [piece].
Proof.
  intros Hp. rewrite <- (app_nil_r piece) at 1.
  rewrite Split_app_no_sep by done. cbn. by rewrite app_nil_r.
Qed.

Lemma Join_app l1 l2 sep :
  l1 ≠ [] → l2 ≠ [] →
  Join (l1 ++ l2) sep = Join l1 sep ++ sep ++ Join l2 sep.
Proof.
  intros H1 H2. induction l1 as [|x l1 IH]; [done|].
  destruct l1 as [|y l1].
  - destruct l2 as [|z l2]; [done|]. reflexivity.
  - cbn [app] in *. rewrite !Join_cons_cons, IH by done.
    by rewrite <- !app_assoc.
Qed.

(** [strings.ReplaceAll] of a string that does not contain [old]. *)
Lemma ReplaceAll_absent s old new :
  Contains s old = false → ReplaceAll s old new = s.
Proof.
  unfold ReplaceAll. induction s as [|c s IH]; intros Hc; [done|].
  cbn [Contains] in Hc. apply orb_false_iff in Hc as [Hp Hc].
  cbn [replace_from]. rewrite Hp. f_equal. by apply IH.
Qed.

Lemma IndexByte_spec b c : IndexByte b c = -1 ↔ c ∉ b.
Proof.
  induction b as [|x b IH]; cbn [IndexByte].
  - split; [intros _; apply not_elem_of_nil|done].
  - rewrite not_elem_of_cons. case_bool_decide as Hx.
    + subst x. split; [done|]. by intros [? _].
    + assert (0 <= IndexByte b c ∨ IndexByte b c = -1) as Hrange.
      { clear. induction b as [|x b IH]; cbn [IndexByte]; [by right|].
        case_bool_decide; [by left|].
        destruct (Z.eqb_spec (IndexByte b c) (-1)); [by right|left; lia]. }
      destruct (Z.eqb_spec (IndexByte b c) (-1)) as [E|E].
      * split; [|done]. intros _. split; [congruence|]. by apply IH.
      * split; [lia|]. intros [_ Hb]. by apply IH in Hb.
Qed.

(** ** The installer *)

Section Installer.

Implicit Types (fs : filesys) (f : file) (p q secret content : bytes).

Lemma placeholder_first : placeholder = "{"%char :: lit "{app_secret}}".
Proof. reflexivity. Qed.

Lemma nl_not_in_placeholder : nl ∉ placeholder.
Proof. compute_done. Qed.

Lemma nl_not_in_key : nl ∉ app_secret_key.
Proof. compute_done. Qed.

Lemma brace_not_in_key : "{"%char ∉ app_secret_key.
Proof. compute_done. Qed.

Lemma hextable_no_nl_brace c : c ∈ hextable → c ≠ nl ∧ c ≠ "{"%char.
Proof.
  revert c. apply Forall_forall. unfold hextable.
  repeat constructor; compute_done.
Qed.

Lemma hex_no_nl s : Forall (λ c, c ∈ hextable) s → nl ∉ s.
Proof.
  intros Hall Hin. rewrite Forall_forall in Hall.
  by destruct (hextable_no_nl_brace _ (Hall _ Hin)).
Qed.

Lemma hex_no_brace s : Forall (λ c, c ∈ hextable) s → "{"%char ∉ s.
Proof.
  intros Hall Hin. rewrite Forall_forall in Hall.
  by destruct (hextable_no_nl_brace _ (Hall _ Hin)).
Qed.

Lemma secret_line_other secret ln :
  HasPrefix ln app_secret_key = false → secret_line secret ln = ln.
Proof. unfold secret_line. by intros ->. Qed.

Lemma secret_line_key secret ln :
  HasPrefix ln app_secret_key = true →
  secret_line secret ln = app_secret_key ++ secret.
Proof. unfold secret_line. by intros ->. Qed.

Lemma secret_line_twice s1 s2 ln :
  secret_line s2 (secret_line s1 ln) = secret_line s2 ln.
Proof.
  destruct (HasPrefix ln app_secret_key) eqn:E.
  - rewrite (secret_line_key s1), (secret_line_key s2 ln) by done.
    by rewrite secret_line_key by apply HasPrefix_app.
  - by rewrite (secret_line_other s1) by done.
Qed.

Lemma secret_line_no_nl secret ln :
  nl ∉ secret → nl ∉ ln → nl ∉ secret_line secret ln.
Proof.
  intros Hs Hln. unfold secret_line.
  destruct (HasPrefix ln app_secret_key); [|done].
  rewrite elem_of_app. intros [Hin|Hin]; [by apply nl_not_in_key|done].
Qed.

Lemma map_secret_line_none secret lines :
  Forall (λ ln, HasPrefix ln app_secret_key = false) lines →
  map (secret_line secret) lines = lines.
Proof.
  induction 1 as [|ln lines Hln _ IH]; [done|].
  cbn [map]. by rewrite IH, secret_line_other.
Qed.

Lemma inject_lines content secret :
  Contains content placeholder = false →
  Contains content app_secret_key = true →
  inject content secret
  = Join (map (secret_line secret) (Split content nl)) [nl].
Proof. unfold inject. by intros -> ->. Qed.

Lemma inject_append content secret :
  Contains content placeholder = false →
  Contains content app_secret_key = false →
  inject content secret
  = (if HasSuffix content [nl] then content else content ++ [nl])
    ++ app_secret_key ++ secret ++ [nl].
Proof. unfold inject. by intros -> ->. Qed.

Lemma Split_inject_lines content secret :
  Contains content placeholder = false →
  Contains content app_secret_key = true →
  nl ∉ secret →
  Split (inject content secret) nl
  = map (secret_line secret) (Split content nl).
Proof.
  intros Hp Hk Hs. rewrite inject_lines by done. apply Split_Join.
  - pose proof (Split_nonempty content nl). by destruct (Split content nl).
  - apply Forall_forall. intros ln' Hin.
    apply list_elem_of_fmap in Hin as (ln & -> & Hin).
    apply secret_line_no_nl; [done|].
    pose proof (Split_no_sep content nl) as Hall.
    rewrite Forall_forall in Hall. by apply Hall.
Qed.

Lemma WriteFile_existing p d mode fs f :
  files fs !! p = Some f →
  WriteFile p d mode fs
  = mk_filesys (<[p := mk_file d (perm f)]> (files fs)) (umask fs).
Proof. unfold WriteFile. by intros ->. Qed.

Lemma WriteFile_same p mode fs f :
  files fs !! p = Some f → WriteFile p (data f) mode fs = fs.
Proof.
  intros Hf. rewrite (WriteFile_existing _ _ _ _ f) by done.
  destruct fs as [m u], f as [d pm]. cbn in *. f_equal. by apply insert_id.
Qed.

Lemma injectSecret_existing p secret fs f :
  files fs !! p = Some f →
  injectSecret p secret fs
  = Some (mk_filesys (<[p := mk_file (inject (data f) secret) (perm f)]> (files fs))
                     (umask fs)).
Proof.
  intros Hf. unfold injectSecret, ReadFile. rewrite Hf. cbn.
  by rewrite (WriteFile_existing _ _ _ _ f).
Qed.

(** The content with its last line closed: with a ['\n'] added unless
    there is one. *)
Lemma closed_content content :
  ∃ c0 t, (if HasSuffix content [nl] then content else content ++ [nl])
          = c0 ++ [nl] ∧ content = c0 ++ t.
Proof.
  destruct (HasSuffix content [nl]) eqn:E.
  - unfold HasSuffix in E. apply andb_true_iff in E as [_ E].
    apply bool_decide_eq_true in E.
    exists (take (length content - length [nl]) content), [nl].
    rewrite <- E at 2 4. by rewrite take_drop.
  - exists content, []. by rewrite app_nil_r.
Qed.

(** Injecting a second secret into what [inject] has made of a content
    without placeholder. *)
Lemma inject_twice content s1 s2 :
  Contains content placeholder = false →
  Forall (λ c, c ∈ hextable) s1 →
  inject (inject content s1) s2 = inject content s2.
Proof.
  intros Hp Hhex.
  pose proof (hex_no_nl _ Hhex) as Hnl.
  pose proof (hex_no_brace _ Hhex) as Hbr.
  assert (Contains (app_secret_key ++ s1) placeholder = false) as Hks.
  { rewrite placeholder_first. apply Contains_no_first.
    rewrite elem_of_app. intros [Hin|Hin]; [by apply brace_not_in_key|done]. }
  destruct (Contains content app_secret_key) eqn:Hk.
  - (* the lines that start with the key are rewritten *)
    destruct (decide (Forall (λ ln, HasPrefix ln app_secret_key = false)
                             (Split content nl))) as [Hall|Hex].
    { assert (∀ s, inject content s = content) as Hid.
      { intros s. rewrite inject_lines, map_secret_line_none by done.
        apply Join_Split. }
      by rewrite !Hid. }
    apply not_Forall_Exists in Hex; [|intros ln; apply _].
    apply Exists_exists in Hex as (ln & Hin & Hln).
    apply not_false_is_true in Hln.
    assert (Contains (inject content s1) placeholder = false) as Hp'.
    { apply not_true_is_false. intros Hc. rewrite inject_lines in Hc by done.
      apply Contains_Join in Hc as (ln' & Hin' & Hc');
        [|done|apply nl_not_in_placeholder].
      apply list_elem_of_fmap in Hin' as (ln0 & -> & Hin0).
      unfold secret_line in Hc'. destruct (HasPrefix ln0 app_secret_key).
      - congruence.
      - rewrite (Split_line_contains content ln0 placeholder) in Hp; done. }
    assert (Contains (inject content s1) app_secret_key = true) as Hk'.
    { rewrite inject_lines by done.
      destruct (elem_of_Join_substring
                  (map (secret_line s1) (Split content nl)) [nl]
                  (app_secret_key ++ s1)) as (pre & post & ->).
      - apply list_elem_of_fmap. exists ln. split; [|done].
        by rewrite secret_line_key.
      - apply Contains_spec. exists pre, (s1 ++ post).
        by rewrite <- !app_assoc. }
    rewrite (inject_lines (inject content s1)) by done.
    rewrite Split_inject_lines by done.
    rewrite (inject_lines content s2) by done. f_equal.
    rewrite map_map. apply map_ext. intros a. apply secret_line_twice.
  - (* the key is appended, then its line rewritten *)
    rewrite !(inject_append content) by done.
    destruct (closed_content content) as (c0 & t & -> & Hc0).
    assert (∀ pat, Contains content pat = false → Contains c0 pat = false)
      as Hsub.
    { intros pat Hpat. apply not_true_is_false. intros Hc.
      pose proof (Contains_substring [] c0 t pat Hc) as Hx.
      cbn [app] in Hx. rewrite <- Hc0 in Hx. congruence. }
    set (r := (c0 ++ [nl]) ++ app_secret_key ++ s1 ++ [nl]).
    assert (r = c0 ++ nl :: ((app_secret_key ++ s1) ++ nl :: [])) as Hr.
    { unfold r. by rewrite <- !app_assoc. }
    assert (Contains r placeholder = false) as Hp'.
    { apply not_true_is_false. intros Hc. rewrite Hr in Hc.
      apply Contains_app_sep in Hc as [Hc|Hc];
        [| |done|apply nl_not_in_placeholder].
      - by rewrite (Hsub _ Hp) in Hc.
      - rewrite placeholder_first, Contains_no_first in Hc; [done|].
        rewrite !elem_of_app, list_elem_of_singleton.
        intros [[Hin|Hin]|Hin]; [by apply brace_not_in_key|done|by vm_compute in Hin]. }
    assert (Contains r app_secret_key = true) as Hk'.
    { apply Contains_spec. by exists (c0 ++ [nl]), (s1 ++ [nl]). }
    rewrite (inject_lines r) by done.
    rewrite Hr, !Split_app_sep, (Split_one (app_secret_key ++ s1)).
    2:{ rewrite elem_of_app. intros [Hin|Hin]; [by apply nl_not_in_key|done]. }
    rewrite !map_app, map_secret_line_none.
    2:{ apply Forall_forall. intros ln Hin. apply not_true_is_false.
        intros Hpre. apply HasPrefix_spec in Hpre as [post ->].
        specialize (Hsub _ Hk).
        rewrite (Split_line_contains c0 _ app_secret_key Hin) in Hsub; [done|].
        apply Contains_spec. by exists [], post. }
    cbn [map Split]. rewrite secret_line_key by apply HasPrefix_app.
    rewrite secret_line_other by done.
    rewrite Join_app; [|apply Split_nonempty|done].
    rewrite Join_Split. cbn [Join app]. rewrite <- !app_assoc.
    reflexivity.
Qed.

(** The digits of a byte are in [hextable], and give the byte back. *)
Lemma hex_byte v :
  hex_digit (N.shiftr (N_of_ascii v) 4) ∈ hextable ∧
  hex_digit (N.land (N_of_ascii v) 15) ∈ hextable ∧
  byte_of_hex (hex_digit (N.shiftr (N_of_ascii v) 4))
              (hex_digit (N.land (N_of_ascii v) 15)) = v.
Proof.
  destruct v as [[] [] [] [] [] [] [] []].
  all: split; [|split]; try reflexivity; compute_done.
Qed.

Lemma EncodeToString_length b :
  length (EncodeToString b) = (2 * length b)%nat.
Proof.
  unfold EncodeToString. induction b as [|v b IH]; [done|].
  cbn [flat_map app length]. rewrite IH. lia.
Qed.

Lemma EncodeToString_hex b : Forall (λ c, c ∈ hextable) (EncodeToString b).
Proof.
  unfold EncodeToString. induction b as [|v b IH]; [constructor|].
  cbn [flat_map app]. destruct (hex_byte v) as (H1 & H2 & _).
  constructor; [exact H1|]. constructor; [exact H2|exact IH].
Qed.

Lemma EncodeToString_inj b1 b2 :
  EncodeToString b1 = EncodeToString b2 → b1 = b2.
Proof.
  unfold EncodeToString. revert b2.
  induction b1 as [|v1 b1 IH]; intros [|v2 b2] E; try done.
  cbn [flat_map app] in E. injection E as Eh El E.
  f_equal; [|by apply IH].
  destruct (hex_byte v1) as (_ & _ & <-), (hex_byte v2) as (_ & _ & <-).
  by rewrite Eh, El.
Qed.

(** X12: [generateSecret] encodes the 32 random bytes as 64 lower-case
    hexadecimal digits. *)
Theorem generateSecret_hex_digits (rand_Read : nat → option bytes) b :
  rand_Read secretByteLen = Some b →
  length b = secretByteLen →
  ∃ s, generateSecret rand_Read = Some s ∧
       length s = 64%nat ∧
       Forall (λ c, c ∈ hextable) s.
Proof.
  intros Hr Hlen. exists (EncodeToString b). unfold generateSecret.
  rewrite Hr. split; [done|]. split.
  - rewrite EncodeToString_length, Hlen. reflexivity.
  - apply EncodeToString_hex.
Qed.

(** X13: the encoding loses nothing: different random bytes give different
    secrets. *)
Theorem generateSecret_injective (rand1 rand2 : nat → option bytes) b1 b2 :
  rand1 secretByteLen = Some b1 →
  rand2 secretByteLen = Some b2 →
  b1 ≠ b2 →
  generateSecret rand1 ≠ generateSecret rand2.
Proof.
  intros H1 H2 Hne. unfold generateSecret. rewrite H1, H2. cbn.
  intros [= E]. by apply Hne, EncodeToString_inj.
Qed.

(** X14: a file without placeholder in which "APP_SECRET=" occurs, but
    at the start of no line, is left as it is: [injectSecret] returns no
    error and the secret is not written. *)
Theorem injectSecret_key_inside_line p secret fs f :
  files fs !! p = Some f →
  Contains (data f) placeholder = false →
  Contains (data f) app_secret_key = true →
  Forall (λ ln, HasPrefix ln app_secret_key = false) (Split (data f) nl) →
  injectSecret p secret fs = Some fs.
Proof.
  intros Hf Hp Hk Hall. rewrite (injectSecret_existing _ _ _ f) by done.
  rewrite inject_lines, map_secret_line_none, Join_Split by done.
  rewrite <- (WriteFile_existing p (data f) 0 fs f) by done.
  by rewrite WriteFile_same.
Qed.

(** X15: in a file without placeholder that contains "APP_SECRET=",
    [injectSecret] keeps the number and order of the lines, replaces each
    line that starts with the key by the key and the secret, and leaves
    every other line, the permissions of the file and all other files
    as they are. *)
Theorem injectSecret_rewrites_key_lines p secret fs f :
  files fs !! p = Some f →
  Contains (data f) placeholder = false →
  Contains (data f) app_secret_key = true →
  nl ∉ secret →
  ∃ fs' f',
    injectSecret p secret fs = Some fs' ∧
    umask fs' = umask fs ∧
    (∀ q, q ≠ p → files fs' !! q = files fs !! q) ∧
    files fs' !! p = Some f' ∧
    perm f' = perm f ∧
    Split (data f') nl = map (secret_line secret) (Split (data f) nl).
Proof.
  intros Hf Hp Hk Hs. eexists _, _.
  split; [by apply injectSecret_existing|]. cbn.
  split; [done|]. split; [by intros q Hq; rewrite lookup_insert_ne|].
  split; [by rewrite lookup_insert_eq|]. split; [done|].
  by apply Split_inject_lines.
Qed.

(** X16: [injectSecret] can be run again: on a file without placeholder,
    injecting a generated secret and then a second one leaves what
    injecting the second one alone leaves. *)
Theorem injectSecret_again p s1 s2 fs f :
  files fs !! p = Some f →
  Contains (data f) placeholder = false →
  Forall (λ c, c ∈ hextable) s1 →
  injectSecret p s1 fs ≫= injectSecret p s2 = injectSecret p s2 fs.
Proof.
  intros Hf Hp Hhex. rewrite !(injectSecret_existing _ _ _ f) by done.
  cbn [mbind option_bind].
  rewrite (injectSecret_existing _ _ _ (mk_file (inject (data f) s1) (perm f)))
    by apply lookup_insert_eq.
  cbn. by rewrite insert_insert_eq, inject_twice.
Qed.

(** X17: a project without [.env], [.env.local] and [.env.example]:
    after [ensureEnv] and [injectSecret] the file [.env] holds the one
    line "APP_SECRET=" with the secret, its permissions are 0600 less the
    umask, and nothing else has changed. *)
Theorem fresh_install_env l x d secret fs :
  files fs !! d = None →
  files fs !! l = None →
  files fs !! x = None →
  ensureEnv l x d fs ≫= injectSecret d secret
  = Some (mk_filesys
            (<[d := mk_file (app_secret_key ++ secret ++ [nl])
                            (Z.ldiff 384 (umask fs))]> (files fs))
            (umask fs)).
Proof.
  intros Hd Hl Hx. unfold ensureEnv, exists_file.
  rewrite !bool_decide_eq_false_2
    by (rewrite ?Hd, ?Hl, ?Hx; apply is_Some_None).
  cbn [mbind option_bind]. unfold WriteFile at 1. rewrite Hd.
  erewrite injectSecret_existing by apply lookup_insert_eq.
  cbn. by rewrite insert_insert_eq.
Qed.

(** X18: [ensureEnv] returns no error and [dest] exists afterwards. An
    existing [dest] leaves everything as it is; otherwise [.env.local] is
    moved to [dest], or else [dest] gets the content of [.env.example]
    with permissions 0600 less the umask; files other than [dest] and
    [.env.local] are never touched. *)
Theorem ensureEnv_postcondition l x d fs :
  ∃ fs', ensureEnv l x d fs = Some fs' ∧
    is_Some (files fs' !! d) ∧
    umask fs' = umask fs ∧
    (is_Some (files fs !! d) → fs' = fs) ∧
    (∀ q, q ≠ d → q ≠ l → files fs' !! q = files fs !! q) ∧
    (∀ f, files fs !! d = None → files fs !! l = Some f →
          files fs' !! d = Some f ∧ files fs' !! l = None) ∧
    (∀ f, files fs !! d = None → files fs !! l = None →
          files fs !! x = Some f →
          files fs' !! d = Some (mk_file (data f) (Z.ldiff 384 (umask fs))) ∧
          files fs' !! x = Some f).
Proof.
  unfold ensureEnv, exists_file.
  destruct (files fs !! d) as [fd|] eqn:Hd.
  { rewrite bool_decide_eq_true_2 by done. exists fs.
    rewrite Hd. repeat split; done. }
  rewrite bool_decide_eq_false_2 by apply is_Some_None.
  destruct (files fs !! l) as [fl|] eqn:Hl.
  { rewrite bool_decide_eq_true_2 by done. unfold Rename. rewrite Hl.
    eexists. split; [reflexivity|]. cbn.
    assert (l ≠ d) as Hld by congruence.
    split; [by rewrite lookup_insert_eq|]. split; [done|].
    split; [by intros []|].
    split; [by intros q ? ?; rewrite lookup_insert_ne, lookup_delete_ne|].
    split; [|done]. intros f _ [= <-].
    by rewrite lookup_insert_eq, lookup_insert_ne, lookup_delete_eq. }
  rewrite bool_decide_eq_false_2 by apply is_Some_None.
  destruct (files fs !! x) as [fx|] eqn:Hx.
  { rewrite bool_decide_eq_true_2 by done. unfold ReadFile, WriteFile.
    rewrite Hx, Hd. eexists. split; [reflexivity|]. cbn.
    assert (x ≠ d) as Hxd by congruence.
    split; [by rewrite lookup_insert_eq|]. split; [done|].
    split; [by intros []|].
    split; [by intros q ? ?; rewrite lookup_insert_ne|].
    split; [done|]. intros f _ _ [= <-].
    by rewrite lookup_insert_eq, lookup_insert_ne. }
  rewrite bool_decide_eq_false_2 by apply is_Some_None.
  unfold WriteFile. rewrite Hd. eexists. split; [reflexivity|]. cbn.
  split; [by rewrite lookup_insert_eq|]. split; [done|].
  split; [by intros []|].
  split; [by intros q ? ?; rewrite lookup_insert_ne|]. done.
Qed.

(** X19: what [replaceIdentifierInTree] does to one file: a file with a
    NUL byte is left alone, in any other file all occurrences of the
    identifier are replaced and the permissions kept; the test for an
    occurrence before the replacement changes no result. *)
Theorem replace_in_file_spec oldID newVal p fs f :
  oldID ≠ [] →
  files fs !! p = Some f →
  replace_in_file oldID newVal p fs
  = Some (if bool_decide (ascii_of_nat 0 ∈ data f) then fs
          else mk_filesys
                 (<[p := mk_file (ReplaceAll (data f) oldID newVal) (perm f)]>
                    (files fs))
                 (umask fs)).
Proof.
  intros _ Hf. unfold replace_in_file, ReadFile, isBinary. rewrite Hf. cbn.
  case_bool_decide as Hnul.
  - destruct (Z.eqb_spec (IndexByte (data f) (ascii_of_nat 0)) (-1)) as [E|E];
      [|done]. by apply IndexByte_spec in E.
  - apply IndexByte_spec in Hnul. rewrite Hnul. cbn.
    rewrite <- (WriteFile_existing p _ 0 fs f) by done.
    destruct (Contains (data f) oldID) eqn:Hc; cbn.
    + by rewrite !(WriteFile_existing _ _ _ _ f).
    + by rewrite ReplaceAll_absent, WriteFile_same.
Qed.

End Installer.

(** ** [strings.Fields] on ASCII and [strings.Join] *)

Lemma fields_ascii_cons_word c s :
  asciiSpace c = false →
  fields_ascii (c :: s)
  = match s with
    | [] => [[c]]
    | c' :: _ =>
        if asciiSpace c' then [c] :: fields_ascii s
        else match fields_ascii s with
             | w :: ws => (c :: w) :: ws
             | [] => [[c]]
             end
    end.
Proof. intros Hc. cbn [fields_ascii]. by rewrite Hc. Qed.

Lemma fields_ascii_head_nonspace c s :
  asciiSpace c = false → fields_ascii (c :: s) ≠ [].
Proof.
  intros Hc. rewrite fields_ascii_cons_word by done.
  destruct s as [|c' s]; [done|].
  destruct (asciiSpace c'); [done|]. by destruct (fields_ascii (c' :: s)).
Qed.

Lemma fields_ascii_words s :
  forallb is_ascii_byte s = true → Forall is_word (fields_ascii s).
Proof.
  induction s as [|c s IH]; intros Hs; [constructor|].
  cbn in Hs. apply andb_true_iff in Hs as [Hc Hs]. specialize (IH Hs).
  destruct (asciiSpace c) eqn:Hsp.
  { cbn [fields_ascii]. by rewrite Hsp. }
  rewrite fields_ascii_cons_word by done.
  assert (is_word [c]) as Hw1.
  { split; [done|]. by repeat constructor. }
  destruct s as [|c' s]; [by repeat constructor|].
  destruct (asciiSpace c') eqn:Hsp'; [by constructor|].
  destruct (fields_ascii (c' :: s)) as [|w ws]; [by repeat constructor|].
  apply Forall_cons in IH as [[Hne Hw] Hws]. constructor; [|done].
  split; [done|]. by constructor.
Qed.

(** A word in front of white space or of the end is the first field. *)
Lemma fields_ascii_word_app w rest :
  is_word w →
  match rest with [] => True | c :: _ => asciiSpace c = true end →
  fields_ascii (w ++ rest) = w :: fields_ascii rest.
Proof.
  intros [Hne Hw] Hrest. induction w as [|c w IH]; [done|].
  apply Forall_cons in Hw as [[Hc _] Hw].
  cbn [app]. rewrite fields_ascii_cons_word by done.
  destruct w as [|c' w].
  - cbn [app]. destruct rest as [|r rest]; [done|]. by rewrite Hrest.
  - cbn [app] in *. pose proof Hw as Hw'.
    apply Forall_cons in Hw' as [[Hc' _] _]. rewrite Hc'.
    rewrite IH by done. done.
Qed.

Lemma asciiSpace_space : asciiSpace (ascii_of_nat 32) = true.
Proof. reflexivity. Qed.

Lemma fields_ascii_skip_space s :
  fields_ascii (lit " " ++ s) = fields_ascii s.
Proof. reflexivity. Qed.

(** The fields of a list of words joined by single spaces are the words. *)
Lemma fields_ascii_Join ws :
  Forall is_word ws → fields_ascii (Join ws (lit " ")) = ws.
Proof.
  induction ws as [|w ws IH]; intros Hall; [done|].
  apply Forall_cons in Hall as [Hw Hws].
  destruct ws as [|w' ws'].
  - cbn [Join]. rewrite <- (app_nil_r w) at 1.
    by rewrite fields_ascii_word_app.
  - rewrite Join_cons_cons.
    rewrite fields_ascii_word_app; [|done|reflexivity].
    by rewrite fields_ascii_skip_space, IH.
Qed.

Lemma Join_ascii ws :
  Forall is_word ws → forallb is_ascii_byte (Join ws (lit " ")) = true.
Proof.
  assert (∀ w, is_word w → forallb is_ascii_byte w = true) as Hword.
  { intros w [_ Hw]. apply forallb_forall. intros c Hc.
    rewrite Forall_forall in Hw. apply list_elem_of_In in Hc.
    by apply Hw. }
  induction ws as [|w ws IH]; intros Hall; [done|].
  apply Forall_cons in Hall as [Hw Hws].
  destruct ws as [|w' ws'].
  - cbn. by apply Hword.
  - rewrite Join_cons_cons, !forallb_app, (Hword w Hw), IH by done. done.
Qed.

(** ** First-seen order *)

Lemma elem_of_first_seen l x : x ∈ first_seen l ↔ x ∈ l.
Proof.
  induction l as [|y l IH]; [done|]. cbn [first_seen].
  rewrite !elem_of_cons, list_elem_of_filter, IH.
  destruct (decide (x = y)) as [->|Hne]; [tauto|]. tauto.
Qed.

Lemma NoDup_first_seen l : NoDup (first_seen l).
Proof.
  induction l as [|y l IH]; [constructor|]. cbn [first_seen].
  constructor; [|by apply NoDup_filter].
  rewrite list_elem_of_filter. by intros [? _].
Qed.

Lemma filter_all {A} (P : A → Prop) `{!∀ x, Decision (P x)} (l : list A) :
  Forall P l → filter P l = l.
Proof.
  induction 1 as [|x l Hx _ IH]; [done|].
  by rewrite filter_cons_True, IH.
Qed.

Lemma filter_none {A} (P : A → Prop) `{!∀ x, Decision (P x)} (l : list A) :
  Forall (λ x, ¬ P x) l → filter P l = [].
Proof.
  induction 1 as [|x l Hx _ IH]; [done|].
  by rewrite filter_cons_False, IH.
Qed.

Lemma filter_and_l {A} (P Q : A → Prop)
    `{!∀ x, Decision (P x)} `{!∀ x, Decision (Q x)} (l : list A) :
  filter P (filter Q l) = filter (λ x, P x ∧ Q x) l.
Proof.
  induction l as [|x l IH]; [done|].
  destruct (decide (Q x)) as [HQ|HQ].
  - rewrite (filter_cons_True Q) by done.
    destruct (decide (P x)) as [HP|HP].
    + by rewrite !filter_cons_True, IH by done.
    + rewrite !filter_cons_False by tauto. done.
  - rewrite (filter_cons_False Q) by done.
    rewrite (filter_cons_False (λ x, P x ∧ Q x)) by tauto. done.
Qed.

Lemma filter_iff {A} (P Q : A → Prop)
    `{!∀ x, Decision (P x)} `{!∀ x, Decision (Q x)} (l : list A) :
  (∀ x, x ∈ l → P x ↔ Q x) → filter P l = filter Q l.
Proof.
  induction l as [|x l IH]; intros Hl; [done|].
  assert (P x ↔ Q x) as Hx by (apply Hl; left).
  assert (filter P l = filter Q l) as Hr.
  { apply IH. intros y Hy. apply Hl. by right. }
  destruct (decide (P x)) as [HP|HP].
  - rewrite !filter_cons_True by tauto. by rewrite Hr.
  - rewrite !filter_cons_False by tauto. done.
Qed.

Lemma first_seen_NoDup l : NoDup l → first_seen l = l.
Proof.
  induction 1 as [|x l Hx _ IH]; [done|]. cbn [first_seen].
  rewrite IH. f_equal. apply filter_all, Forall_forall. by intros y Hy ->.
Qed.

Lemma first_seen_idemp l : first_seen (first_seen l) = first_seen l.
Proof. apply first_seen_NoDup, NoDup_first_seen. Qed.

Lemma first_seen_app l1 l2 :
  first_seen (l1 ++ l2)
  = first_seen l1 ++ filter (λ y, y ∉ l1) (first_seen l2).
Proof.
  induction l1 as [|x l1 IH].
  - cbn. symmetry. apply filter_all, Forall_forall. intros y _. apply not_elem_of_nil.
  - cbn [app first_seen]. rewrite IH, filter_app, filter_and_l. do 2 f_equal.
    apply filter_iff. intros y _. rewrite elem_of_cons. tauto.
Qed.

(** A part seen before changes nothing; the parts of a list are the same
    whether or not an earlier list was reduced first. *)
Lemma first_seen_app_l l1 l2 :
  first_seen (first_seen l1 ++ l2) = first_seen (l1 ++ l2).
Proof.
  rewrite !first_seen_app, first_seen_idemp. f_equal.
  apply filter_iff. intros y _. by rewrite elem_of_first_seen.
Qed.

Lemma first_seen_app_r l1 l2 :
  first_seen (l1 ++ first_seen l2) = first_seen (l1 ++ l2).
Proof. by rewrite !first_seen_app, first_seen_idemp. Qed.

Local Ltac unfold_add_classes := unfold add_classes.
Local Ltac unfold_joinClasses := unfold joinClasses.
Local Ltac unfold_Merge := unfold Merge.
Local Ltac unfold_Class := unfold Class.
Local Ltac unfold_CreateAttrs := unfold CreateAttrs.

Section UIProperties.

Context (FieldsFunc_unicode : bytes → list bytes) {Other : Type}.

Local Abbreviation Fields := (Fields FieldsFunc_unicode).
Local Abbreviation add_classes := (add_classes FieldsFunc_unicode).
Local Abbreviation joinClasses := (joinClasses FieldsFunc_unicode).
Local Abbreviation Merge := (Merge FieldsFunc_unicode).
Local Abbreviation Class := (Class FieldsFunc_unicode (Other := Other)).
Local Abbreviation CreateAttrs := (CreateAttrs FieldsFunc_unicode (Other := Other)).

Implicit Types (s a b c : bytes) (ws : list bytes).

Lemma Fields_ascii s : ascii_only s → Fields s = fields_ascii s.
Proof. unfold Fields, ascii_only. by intros ->. Qed.

Lemma word_nonempty ws : Forall is_word ws → Forall (λ w, w ≠ []) ws.
Proof. intros H. eapply Forall_impl; [exact H|]. by intros w [? _]. Qed.

(** The inner loop keeps [seen] and [out] in step and appends the new
    parts in first-seen order. *)
Lemma foldl_add_part ws : ∀ seen out,
  (∀ x, x ∈ seen ↔ x ∈ out) →
  Forall (λ w, w ≠ []) ws →
  (∀ x, x ∈ (foldl add_part (seen, out) ws).1
        ↔ x ∈ (foldl add_part (seen, out) ws).2) ∧
  (foldl add_part (seen, out) ws).2
  = out ++ filter (λ w, w ∉ out) (first_seen ws).
Proof.
  induction ws as [|w ws IH]; intros seen out Hso Hne.
  { cbn. by rewrite app_nil_r. }
  apply Forall_cons in Hne as [Hw Hne]. cbn [foldl first_seen].
  unfold add_part at 2 4 6. cbn [fst snd].
  rewrite bool_decide_eq_false_2 by done.
  destruct (decide (w ∈ seen)) as [Hin|Hin].
  - rewrite bool_decide_eq_true_2 by done.
    destruct (IH seen out Hso Hne) as [H1 H2]. split; [done|].
    rewrite H2. f_equal. rewrite filter_cons_False by (rewrite <- Hso; tauto).
    rewrite filter_and_l. apply filter_iff. intros y _.
    split; [|tauto]. intros Hy. split; [done|]. intros ->. by apply Hy, Hso.
  - rewrite bool_decide_eq_false_2 by done.
    destruct (IH (w :: seen) (out ++ [w])) as [H1 H2]; [|done|].
    { intros x. rewrite elem_of_cons, elem_of_app, list_elem_of_singleton, Hso.
      tauto. }
    split; [done|]. rewrite H2, <- app_assoc. f_equal. cbn [app].
    rewrite filter_cons_True by (by rewrite <- Hso).
    f_equal. rewrite filter_and_l. apply filter_iff. intros y _.
    rewrite elem_of_app, list_elem_of_singleton. tauto.
Qed.

Lemma foldl_add_classes cs : ∀ seen out,
  Forall ascii_only cs →
  (∀ x, x ∈ seen ↔ x ∈ out) →
  (foldl add_classes (seen, out) cs).2
  = out ++ filter (λ w, w ∉ out) (first_seen (flat_map fields_ascii cs)).
Proof.
  induction cs as [|c cs IH]; intros seen out Hcs Hso.
  { cbn. by rewrite app_nil_r. }
  apply Forall_cons in Hcs as [Hc Hcs]. cbn [foldl flat_map].
  assert (add_classes (seen, out) c
          = foldl add_part (seen, out) (fields_ascii c)) as ->.
  { unfold_add_classes. case_bool_decide as Hempty.
    - by subst c.
    - by rewrite Fields_ascii. }
  destruct (foldl_add_part (fields_ascii c) seen out Hso) as [H1 H2].
  { by apply word_nonempty, fields_ascii_words. }
  destruct (foldl add_part (seen, out) (fields_ascii c)) as [seen' out'] eqn:E.
  cbn [fst snd] in *. rewrite (IH seen' out' Hcs H1), H2.
  rewrite first_seen_app, filter_app, <- app_assoc. f_equal. f_equal.
  rewrite filter_and_l. apply filter_iff. intros y _.
  rewrite elem_of_app, list_elem_of_filter, elem_of_first_seen. tauto.
Qed.

(** [joinClasses] of ASCII strings, in closed form. *)
Lemma joinClasses_ascii cs :
  Forall ascii_only cs →
  joinClasses cs
  = Join (first_seen (flat_map fields_ascii cs)) (lit " ").
Proof.
  intros Hcs. unfold_joinClasses.
  rewrite (foldl_add_classes cs [] []) by done. cbn [app]. f_equal.
  apply filter_all, Forall_forall. intros y _. apply not_elem_of_nil.
Qed.

Lemma flat_map_fields_words cs :
  Forall ascii_only cs → Forall is_word (flat_map fields_ascii cs).
Proof.
  induction 1 as [|c cs Hc _ IH]; [constructor|]. cbn [flat_map].
  apply Forall_app. split; [by apply fields_ascii_words|done].
Qed.

Lemma first_seen_words ws : Forall is_word ws → Forall is_word (first_seen ws).
Proof.
  rewrite !Forall_forall. intros H w Hw. by apply H, elem_of_first_seen.
Qed.

Lemma joinClasses_ascii_only cs :
  Forall ascii_only cs → ascii_only (joinClasses cs).
Proof.
  intros Hcs. rewrite joinClasses_ascii by done.
  by apply Join_ascii, first_seen_words, flat_map_fields_words.
Qed.

Lemma fields_joinClasses cs :
  Forall ascii_only cs →
  fields_ascii (joinClasses cs) = first_seen (flat_map fields_ascii cs).
Proof.
  intros Hcs. rewrite joinClasses_ascii by done.
  by apply fields_ascii_Join, first_seen_words, flat_map_fields_words.
Qed.

Lemma flat_map_Fields cs :
  Forall ascii_only cs → flat_map Fields cs = flat_map fields_ascii cs.
Proof.
  induction 1 as [|c cs Hc _ IH]; [done|]. cbn [flat_map].
  by rewrite IH, Fields_ascii.
Qed.

(** Joining a joined list with one more string is joining all of them. *)
Lemma joinClasses_snoc cs c :
  Forall ascii_only cs → ascii_only c →
  joinClasses [joinClasses cs; c] = joinClasses (cs ++ [c]).
Proof.
  intros Hcs Hc. pose proof (joinClasses_ascii_only cs Hcs) as Hj.
  rewrite (joinClasses_ascii [_; _]) by (by repeat constructor).
  rewrite (joinClasses_ascii (cs ++ [c]))
    by (apply Forall_app; split; [done|by constructor]).
  f_equal. rewrite flat_map_app. cbn [flat_map]. rewrite !app_nil_r.
  by rewrite fields_joinClasses, first_seen_app_l.
Qed.

Lemma joinClasses_cons c cs :
  ascii_only c → Forall ascii_only cs →
  joinClasses [c; joinClasses cs] = joinClasses (c :: cs).
Proof.
  intros Hc Hcs. pose proof (joinClasses_ascii_only cs Hcs) as Hj.
  rewrite (joinClasses_ascii [_; _]) by (by repeat constructor).
  rewrite (joinClasses_ascii (c :: cs)) by (by constructor).
  f_equal. cbn [flat_map]. rewrite !app_nil_r.
  by rewrite fields_joinClasses, first_seen_app_r.
Qed.

(** X20: for ASCII class strings the result of [joinClasses] is in normal
    form: its fields are the fields of the arguments in first-seen order,
    no field occurs twice, and the result is exactly these fields with one
    space between them (no leading, trailing or doubled white space). *)
Theorem joinClasses_normal_form cs :
  Forall ascii_only cs →
  Fields (joinClasses cs) = first_seen (flat_map Fields cs) ∧
  NoDup (Fields (joinClasses cs)) ∧
  joinClasses cs = Join (Fields (joinClasses cs)) (lit " ").
Proof.
  intros Hcs.
  assert (Fields (joinClasses cs) = first_seen (flat_map Fields cs)) as E.
  { rewrite Fields_ascii by (by apply joinClasses_ascii_only).
    by rewrite fields_joinClasses, flat_map_Fields. }
  split; [done|]. rewrite E. split; [apply NoDup_first_seen|].
  rewrite flat_map_Fields by done. by apply joinClasses_ascii.
Qed.

(** X21: [Merge] is associative on ASCII class strings: merging in either
    grouping gives [joinClasses] of the three. *)
Theorem Merge_assoc a b c :
  ascii_only a → ascii_only b → ascii_only c →
  Merge (Merge a b) c = joinClasses [a; b; c] ∧
  Merge a (Merge b c) = joinClasses [a; b; c].
Proof.
  intros Ha Hb Hc. unfold_Merge. split.
  - by rewrite (joinClasses_snoc [a; b] c) by (by repeat constructor).
  - by rewrite (joinClasses_cons a [b; c]) by (by repeat constructor).
Qed.

(** X22: merging a merged class string again with one of its arguments, or
    with the empty string, changes nothing. *)
Theorem Merge_absorbs a b :
  ascii_only a → ascii_only b →
  Merge (Merge a b) a = Merge a b ∧
  Merge (Merge a b) b = Merge a b ∧
  Merge (Merge a b) [] = Merge a b ∧
  Merge [] (Merge a b) = Merge a b.
Proof.
  intros Ha Hb. unfold_Merge.
  assert (Forall ascii_only [a; b]) as Hab by (by repeat constructor).
  assert (∀ c, ascii_only c → (∀ w, w ∈ fields_ascii c → w ∈ fields_ascii a ++ fields_ascii b) →
               joinClasses [joinClasses [a; b]; c] = joinClasses [a; b]) as Habs.
  { intros c Hc Hsub. rewrite (joinClasses_snoc [a; b] c) by done.
    rewrite !joinClasses_ascii
      by (try apply Forall_app; repeat constructor; done).
    f_equal. cbn [app flat_map]. rewrite !app_nil_r, app_assoc.
    rewrite (first_seen_app (_ ++ _)).
    rewrite filter_none; [by rewrite app_nil_r|].
    apply Forall_forall. intros w Hw. rewrite elem_of_first_seen in Hw.
    intros Hnot. by apply Hnot, Hsub. }
  split; [|split; [|split]].
  - apply Habs; [done|]. intros w Hw. apply elem_of_app. by left.
  - apply Habs; [done|]. intros w Hw. apply elem_of_app. by right.
  - apply Habs; [done|]. intros w Hw. by apply elem_of_nil in Hw.
  - rewrite (joinClasses_cons [] [a; b]) by done.
    rewrite !joinClasses_ascii by (by repeat constructor). done.
Qed.

(** X23: [CreateAttrs] with [Class] options: the class attribute is
    [joinClasses] of the base class, the default class and the classes of
    the options in order; a nil option is skipped. *)
Theorem CreateAttrs_Class_options base dflt (os : list (option bytes)) :
  ascii_only base → ascii_only dflt → Forall ascii_only (omap id os) →
  CreateAttrs base dflt (map (fmap Class) os) !! lit "class"
  = Some (AString (joinClasses (base :: dflt :: omap id os))).
Proof.
  intros Hb Hd. unfold_CreateAttrs.
  assert (∀ cs (attrs : gmap bytes (attr_value (Other := Other))),
            Forall ascii_only cs →
            Forall ascii_only (omap id os) →
            attrs !! lit "class" = Some (AString (joinClasses cs)) →
            foldl (λ attrs o, match o with Some f => f attrs | None => attrs end)
                  attrs (map (fmap Class) os) !! lit "class"
            = Some (AString (joinClasses (cs ++ omap id os)))) as Hgen.
  { induction os as [|o os IH]; intros cs attrs Hcs Hos Hattrs.
    { cbn. by rewrite app_nil_r. }
    destruct o as [c|]; cbn [map fmap option_fmap option_map foldl omap list_omap id] in *.
    - apply Forall_cons in Hos as [Hc Hos].
      rewrite (IH (cs ++ [c])); [by rewrite <- app_assoc| |done|].
      { apply Forall_app. split; [done|by constructor]. }
      unfold_Class. rewrite Hattrs, lookup_insert_eq.
      by rewrite joinClasses_snoc.
    - by apply IH. }
  intros Hos. apply (Hgen [base; dflt]); [by repeat constructor|done|].
  by rewrite lookup_insert_eq.
Qed.

(** X24: an [Attr] option that stores a value that is no string under
    "class" makes a later [Class] option start from the empty string: the
    base and default classes are lost. *)
Theorem Class_after_non_string_class base dflt (v : Other) c :
  CreateAttrs base dflt [Some (Attr (lit "class") (AOther v)); Some (Class c)]
    !! lit "class"
  = Some (AString (joinClasses [c])).
Proof.
  unfold_CreateAttrs. unfold_Class. unfold Attr.
  cbn [foldl]. rewrite lookup_insert_eq, lookup_insert_eq. reflexivity.
Qed.

End UIProperties.

(** ** The same on concrete inputs *)

Lemma generateSecret_hex_digits_witness :
  ∃ s, generateSecret (rand_const "a") = Some s ∧
       length s = 64%nat ∧
       Forall (λ c, c ∈ hextable) s.
Proof.
  apply (generateSecret_hex_digits (rand_const "a") (replicate 32 "a"%char));
    reflexivity.
Defined.

Lemma generateSecret_injective_witness :
  generateSecret (rand_const "a") ≠ generateSecret (rand_const "b").
Proof.
  apply (generateSecret_injective (rand_const "a") (rand_const "b")
           (replicate 32 "a"%char) (replicate 32 "b"%char));
    [reflexivity|reflexivity|by vm_compute].
Defined.

Lemma injectSecret_key_inside_line_witness :
  injectSecret env_path (lit "0f3a") (env_fs (lit "export APP_SECRET=old"))
  = Some (env_fs (lit "export APP_SECRET=old")).
Proof.
  apply (injectSecret_key_inside_line env_path (lit "0f3a")
           (env_fs (lit "export APP_SECRET=old"))
           (mk_file (lit "export APP_SECRET=old") 420));
    [vm_compute; reflexivity|vm_compute; reflexivity|vm_compute; reflexivity|].
  vm_compute. repeat constructor.
Defined.

Lemma injectSecret_rewrites_key_lines_witness :
  ∃ fs' f',
    injectSecret env_path (lit "0f3a")
      (env_fs (lit "PORT=1" ++ [nl] ++ lit "APP_SECRET=old" ++ [nl]))
    = Some fs' ∧
    umask fs' = 18 ∧
    (∀ q, q ≠ env_path →
          files fs' !! q
          = files (env_fs (lit "PORT=1" ++ [nl] ++ lit "APP_SECRET=old" ++ [nl]))
              !! q) ∧
    files fs' !! env_path = Some f' ∧
    perm f' = 420 ∧
    Split (data f') nl = [lit "PORT=1"; lit "APP_SECRET=0f3a"; []].
Proof.
  apply (injectSecret_rewrites_key_lines env_path (lit "0f3a")
           (env_fs (lit "PORT=1" ++ [nl] ++ lit "APP_SECRET=old" ++ [nl]))
           (mk_file (lit "PORT=1" ++ [nl] ++ lit "APP_SECRET=old" ++ [nl]) 420));
    [vm_compute; reflexivity|vm_compute; reflexivity|vm_compute; reflexivity|].
  compute_done.
Defined.

Lemma injectSecret_again_witness :
  injectSecret env_path (lit "0f3a") (env_fs (lit "PORT=1"))
    ≫= injectSecret env_path (lit "77e0")
  = injectSecret env_path (lit "77e0") (env_fs (lit "PORT=1")).
Proof.
  apply (injectSecret_again env_path (lit "0f3a") (lit "77e0")
           (env_fs (lit "PORT=1")) (mk_file (lit "PORT=1") 420));
    [vm_compute; reflexivity|vm_compute; reflexivity|].
  unfold hextable. repeat constructor; compute_done.
Defined.

Lemma fresh_install_env_witness :
  ensureEnv (lit "app/.env.local") (lit "app/.env.example") env_path
            (mk_filesys ∅ 18)
    ≫= injectSecret env_path (lit "0f3a")
  = Some (mk_filesys
            {[ env_path := mk_file (lit "APP_SECRET=0f3a" ++ [nl]) 384 ]} 18).
Proof.
  apply (fresh_install_env (lit "app/.env.local") (lit "app/.env.example")
           env_path (lit "0f3a") (mk_filesys ∅ 18)); reflexivity.
Defined.

Lemma replace_in_file_spec_witness :
  replace_in_file (lit "AABBCCDD") (lit "shop") env_path
    (env_fs (lit "module AABBCCDD/AABBCCDD"))
  = Some (env_fs (lit "module shop/shop")).
Proof.
  rewrite (replace_in_file_spec (lit "AABBCCDD") (lit "shop") env_path
             (env_fs (lit "module AABBCCDD/AABBCCDD"))
             (mk_file (lit "module AABBCCDD/AABBCCDD") 420));
    [vm_compute; reflexivity|done|vm_compute; reflexivity].
Defined.

Lemma joinClasses_normal_form_witness :
  Fields no_unicode (joinClasses no_unicode btn_classes)
  = [lit "btn"; lit "btn-primary"; lit "p-2"; lit "mt-1"] ∧
  NoDup (Fields no_unicode (joinClasses no_unicode btn_classes)) ∧
  joinClasses no_unicode btn_classes = lit "btn btn-primary p-2 mt-1".
Proof.
  destruct (joinClasses_normal_form no_unicode btn_classes) as (H1 & H2 & H3).
  - repeat constructor.
  - split; [exact H1|]. split; [exact H2|]. exact H3.
Defined.

Lemma Merge_assoc_witness :
  Merge no_unicode (Merge no_unicode (lit "a b") (lit "b c")) (lit "c a d")
  = lit "a b c d" ∧
  Merge no_unicode (lit "a b") (Merge no_unicode (lit "b c") (lit "c a d"))
  = lit "a b c d".
Proof.
  apply (Merge_assoc no_unicode (lit "a b") (lit "b c") (lit "c a d"));
    reflexivity.
Defined.

Lemma Merge_absorbs_witness :
  let ab := Merge no_unicode (lit "a  b") (lit "b c ") in
  Merge no_unicode ab (lit "a  b") = ab ∧
  Merge no_unicode ab (lit "b c ") = ab ∧
  Merge no_unicode ab [] = ab ∧
  Merge no_unicode [] ab = ab.
Proof.
  apply (Merge_absorbs no_unicode (lit "a  b") (lit "b c ")); reflexivity.
Defined.

Lemma CreateAttrs_Class_options_witness :
  CreateAttrs (Other := unit) no_unicode (lit "btn") (lit "btn-primary")
    (map (fmap (Class no_unicode)) btn_options) !! lit "class"
  = Some (AString (lit "btn btn-primary p-2 mt-1")).
Proof.
  apply (CreateAttrs_Class_options (Other := unit) no_unicode
           (lit "btn") (lit "btn-primary") btn_options);
    [reflexivity|reflexivity|repeat constructor].
Defined.
